(** * even-g2-explore: audio capture, resampling and the Whisper worker

    A shallow embedding of the TypeScript sources

    - [audio.ts]  : [pcmS16LEtoFloat32], [mergeChunks], [GlassesAudioCapture],
                    [BrowserAudioCapture] (with its private [resample]), in
                    the version whose [AudioCapture] interface has
                    [getAudio];
    - [worker.ts] : the recognition worker ([loadModel], [transcribe],
                    [self.onmessage]);
    - [main.ts]   : the recording controller ([startRecording],
                    [stopRecording], [toggleRecording], [worker.onmessage]).

    Conventions of the embedding.

    - A [Float32Array] is an object with identity: the program state carries a
      store of typed arrays, a reference is an index into it, and [new
      Float32Array(..)] extends the store.  A typed array that a function
      builds in a local variable is private until the function returns it; it
      enters the store when it is returned.
    - In the capture classes sample values are exact rationals ([Q]): the
      rounding of IEEE binary32 and binary64 arithmetic, infinities and NaN
      inputs are not modelled there.  A read outside a typed array gives
      [undefined] in JavaScript, which arithmetic turns into NaN; the
      embedding over [Q] reports such a read as the outcome [NaNSample]
      instead of inventing a value.
    - What [resample] returns depends on that rounding.  Module [IEEE] embeds
      the method a second time with binary64 operations and binary32 storage,
      infinities and NaN included; statements about the length and the
      values of the resampled buffer are made there.
    - Code that can throw returns a [result].  Calls into the platform (the
      device bridge, the Web Audio graph, the recognition pipeline) are
      recorded in traces or supplied as explicit outcomes. *)

From Stdlib Require Import String Ascii Strings.Byte.
From Stdlib Require Import ZArith QArith Qround List Lia Lqa Bool.
From Stdlib Require Import Floats.SpecFloat.
Import ListNotations.

Set Implicit Arguments.

(** ** Outcomes of fallible code *)

Inductive exn : Type :=
  | RangeError
  | TypeError
  | NaNSample
  | Error (message : string).

Inductive result (A : Type) : Type :=
  | Ok (a : A)
  | Throw (e : exn).

Arguments Ok {A} a.
Arguments Throw {A} e.

Definition bind {A B : Type} (r : result A) (k : A -> result B) : result B :=
  match r with
  | Ok a => k a
  | Throw e => Throw e
  end.

Notation "x <- r ;; k" := (bind r (fun x => k))
  (at level 61, r at next level, right associativity).

(** [for (let i = start; i < start + count; i++) body] over a loop state. *)
Fixpoint for_loop {S : Type} (start count : nat)
    (body : nat -> S -> result S) (s : S) : result S :=
  match count with
  | O => Ok s
  | Datatypes.S c => s' <- body start s ;; for_loop (Datatypes.S start) c body s'
  end.

(** ** The store of typed arrays *)

Definition ref : Type := nat.
Definition heap : Type := list (list Q).

(** The contents of a typed array; a reference that was never allocated has
    no contents. *)
Definition deref (h : heap) (r : ref) : list Q := nth r h [].

Definition valid (h : heap) (r : ref) : Prop := (r < length h)%nat.

(** Entering a finished typed array into the store. *)
Definition alloc (h : heap) (a : list Q) : heap * ref := (h ++ [a], length h).

(** [new Float32Array(n)]: [n] zeros. *)
Definition Float32Array_zeros (n : nat) : list Q := repeat 0%Q n.

(** [a[i] = v] on a typed array: a write outside the array is ignored. *)
Fixpoint store_at (a : list Q) (i : nat) (v : Q) : list Q :=
  match a, i with
  | [], _ => []
  | _ :: t, O => v :: t
  | x :: t, Datatypes.S j => x :: store_at t j v
  end.

(** [a[i]] with an integer index: [None] stands for [undefined]. *)
Definition load_at (a : list Q) (i : Z) : option Q :=
  if (i <? 0)%Z then None else nth_error a (Z.to_nat i).

(** [target.set(source, offset)]: a [RangeError] when the source does not fit. *)
Definition set_at (target source : list Q) (offset : nat) : result (list Q) :=
  if (length target <? offset + length source)%nat then Throw RangeError
  else Ok (firstn offset target ++ source
             ++ skipn (offset + length source) target).

(** ** [audio.ts] *)

Module Audio.

(** A [Uint8Array]: a window of [length8] bytes at [byteOffset] of a buffer. *)
Record Uint8Array : Type := mkUint8Array {
  buffer : list byte;
  byteOffset : nat;
  length8 : nat
}.

Definition byte_at (buf : list byte) (pos : nat) : Z :=
  Z.of_N (Byte.to_N (nth pos buf x00)).

(** Element of an [Int16Array] at byte position [pos]: two bytes, the low one
    first, read as a two's-complement 16-bit integer. *)
Definition int16_at (buf : list byte) (pos : nat) : Z :=
  let u := (byte_at buf pos + 256 * byte_at buf (pos + 1))%Z in
  if (u <? 32768)%Z then u else (u - 65536)%Z.

(** [new Int16Array(uint8.buffer, uint8.byteOffset, uint8.length / 2)].  The
    constructor throws a [RangeError] when the offset is not a multiple of the
    element size or the view leaves the buffer; a fractional length is
    truncated. *)
Definition Int16Array_view (uint8 : Uint8Array) : result (list Z) :=
  if Nat.odd (byteOffset uint8) then Throw RangeError
  else
    let n := (length8 uint8 / 2)%nat in
    if (length (buffer uint8) <? byteOffset uint8 + 2 * n)%nat
    then Throw RangeError
    else Ok (map (fun k => int16_at (buffer uint8) (byteOffset uint8 + 2 * k))
                 (seq 0 n)).

Definition pcm_sample (s : Z) : Q := inject_Z s / 32768.

Definition pcmS16LEtoFloat32 (h : heap) (uint8 : Uint8Array)
    : result (heap * ref) :=
  int16 <- Int16Array_view uint8 ;;
  let float32 := Float32Array_zeros (length int16) in
  float32 <- for_loop 0 (length int16)
               (fun i float32 =>
                  Ok (store_at float32 i (pcm_sample (nth i int16 0%Z))))
               float32 ;;
  Ok (alloc h float32).

(** [mergeChunks]: the total length by [reduce], a zeroed array of that
    length, then every chunk copied at the running offset. *)
Fixpoint mergeChunks_loop (h : heap) (chunks : list ref) (merged : list Q)
    (offset : nat) : result (list Q) :=
  match chunks with
  | [] => Ok merged
  | chunk :: rest =>
      merged' <- set_at merged (deref h chunk) offset ;;
      mergeChunks_loop h rest merged' (offset + length (deref h chunk))
  end.

Definition mergeChunks (h : heap) (chunks : list ref) : result (heap * ref) :=
  let totalLength :=
    fold_left (fun sum c => (sum + length (deref h c))%nat) chunks 0%nat in
  let merged := Float32Array_zeros totalLength in
  merged <- mergeChunks_loop h chunks merged 0 ;;
  Ok (alloc h merged).

(** *** The device bridge (external collaborator)

    The bridge is not part of the repository.  The embedding keeps what the
    capture class relies on: [onEvenHubEvent] registers a listener and returns
    a function that removes it again, [audioControl] is a request to the
    device, and the bridge hands every event to every registered listener. *)

Inductive bridge_call : Type :=
  | audioControl (isOpen : bool)
  | onEvenHubEvent (listener : nat)
  | removeListener (listener : nat).

Record EvenAppBridge : Type := mkBridge {
  listeners : list nat;
  issued : nat;
  calls : list bridge_call
}.

Definition new_bridge : EvenAppBridge := mkBridge [] 0 [].

Definition bridge_onEvenHubEvent (b : EvenAppBridge) : EvenAppBridge * nat :=
  (mkBridge (listeners b ++ [issued b]) (S (issued b))
            (calls b ++ [onEvenHubEvent (issued b)]),
   issued b).

Definition bridge_removeListener (b : EvenAppBridge) (l : nat) : EvenAppBridge :=
  mkBridge (filter (fun l' => negb (Nat.eqb l' l)) (listeners b)) (issued b)
           (calls b ++ [removeListener l]).

Definition bridge_audioControl (b : EvenAppBridge) (isOpen : bool)
    : EvenAppBridge :=
  mkBridge (listeners b) (issued b) (calls b ++ [audioControl isOpen]).

(** Of an [EvenHubEvent] the capture class reads [audioEvent?.audioPcm] only. *)
Record EvenHubEvent : Type := mkEvent {
  audioEvent : option Uint8Array
}.

(** *** [GlassesAudioCapture] *)

Module Glasses.

Record t : Type := mk {
  chunks : list ref;
  recording : bool;
  unsubscribe : option nat;
  bridge : EvenAppBridge
}.

(** Field initialisers and [constructor(private bridge)]. *)
Definition create (b : EvenAppBridge) : t := mk [] false None b.

Definition start (this : t) : t :=
  let (b, l) := bridge_onEvenHubEvent (bridge this) in
  mk [] true (Some l) (bridge_audioControl b true).

(** The listener installed by [start]. *)
Definition listener (h : heap) (this : t) (event : EvenHubEvent)
    : result (heap * t) :=
  match audioEvent event with
  | Some audioPcm =>
      if recording this then
        r <- pcmS16LEtoFloat32 h audioPcm ;;
        Ok (fst r, mk (chunks this ++ [snd r]) (recording this)
                      (unsubscribe this) (bridge this))
      else Ok (h, this)
  | None => Ok (h, this)
  end.

Definition getAudio (h : heap) (this : t) : t * result (heap * ref) :=
  (this, mergeChunks h (chunks this)).

Definition stop (h : heap) (this : t) : t * result (heap * ref) :=
  let b := bridge_audioControl (bridge this) false in
  let b := match unsubscribe this with
           | Some l => bridge_removeListener b l
           | None => b
           end in
  let this := mk (chunks this) false None b in
  (this, mergeChunks h (chunks this)).

(** The bridge delivering [event]: every registered listener runs.  All of
    them are the closure installed by [start] on this object; a listener that
    throws has changed nothing. *)
Fixpoint dispatch (ls : list nat) (h : heap) (this : t) (event : EvenHubEvent)
    : heap * t :=
  match ls with
  | [] => (h, this)
  | _ :: rest =>
      match listener h this event with
      | Ok (h', this') => dispatch rest h' this' event
      | Throw _ => dispatch rest h this event
      end
  end.

(** What can happen to a capture object, and a history of it. *)
Inductive op : Type :=
  | op_start
  | op_event (event : EvenHubEvent)
  | op_getAudio
  | op_stop.

Definition returned (h : heap) (r : t * result (heap * ref)) : heap * t :=
  match r with
  | (this, Ok (h', _)) => (h', this)
  | (this, Throw _) => (h, this)
  end.

Definition step (st : heap * t) (o : op) : heap * t :=
  let (h, this) := st in
  match o with
  | op_start => (h, start this)
  | op_event event => dispatch (listeners (bridge this)) h this event
  | op_getAudio => returned h (getAudio h this)
  | op_stop => returned h (stop h this)
  end.

Definition run (st : heap * t) (ops : list op) : heap * t :=
  fold_left step ops st.

End Glasses.

(** *** [BrowserAudioCapture] *)

Definition Math_round (x : Q) : Z := Qfloor (x + (1 # 2)).

Module Browser.

(** The Web Audio objects the class holds: a context with its sample rate, and
    graph nodes that deliver blocks while connected. *)
Record AudioContext : Type := mkContext {
  sampleRate : Q;
  closed : bool
}.

Record AudioNode : Type := mkNode {
  connected : bool
}.

Record t : Type := mk {
  stream : option nat;
  audioCtx : option AudioContext;
  sourceNode : option AudioNode;
  processorNode : option AudioNode;
  chunks : list ref;
  nativeSampleRate : Q
}.

Definition create : t := mk None None None None [] 48000.

(** [init]: [getUserMedia] resolves with a stream or rejects. *)
Definition init (this : t) (granted : result nat) : t * result unit :=
  match granted with
  | Ok s => (mk (Some s) (audioCtx this) (sourceNode this)
                (processorNode this) (chunks this) (nativeSampleRate this),
             Ok tt)
  | Throw e => (this, Throw e)
  end.

(** [start]; [deviceRate] is the sample rate of the [AudioContext] the
    platform creates.  [createMediaStreamSource(null)] is a [TypeError]. *)
Definition start (this : t) (deviceRate : Q) : t * result unit :=
  let ctx := mkContext deviceRate false in
  match stream this with
  | None =>
      (mk None (Some ctx) (sourceNode this) (processorNode this) [] deviceRate,
       Throw TypeError)
  | Some s =>
      (mk (Some s) (Some ctx) (Some (mkNode true)) (Some (mkNode true)) []
          deviceRate,
       Ok tt)
  end.

(** [processorNode.onaudioprocess]: the delivered block is copied. *)
Definition onaudioprocess (h : heap) (this : t) (input : list Q) : heap * t :=
  let (h', copy) := alloc h input in
  (h', mk (stream this) (audioCtx this) (sourceNode this) (processorNode this)
          (chunks this ++ [copy]) (nativeSampleRate this)).

(** [resample]: the body of the private method, on the instance's
    [nativeSampleRate], in exact arithmetic ([IEEE.resample] has the rounding
    of the language). *)
Definition resample (this : t) (h : heap) (raw : ref) : result (heap * ref) :=
  let raw := deref h raw in
  if Qeq_bool (nativeSampleRate this) 16000 then Ok (alloc h raw)
  else
    let ratio := 16000 / nativeSampleRate this in
    let outLen := Math_round (inject_Z (Z.of_nat (length raw)) * ratio) in
    if (outLen <? 0)%Z then Throw RangeError
    else
      let out := Float32Array_zeros (Z.to_nat outLen) in
      out <- for_loop 0 (Z.to_nat outLen)
               (fun i out =>
                  let srcIdx := inject_Z (Z.of_nat i) / ratio in
                  let lo := Qfloor srcIdx in
                  let hi := Z.min (lo + 1) (Z.of_nat (length raw) - 1) in
                  let frac := srcIdx - inject_Z lo in
                  match load_at raw lo, load_at raw hi with
                  | Some a, Some b =>
                      Ok (store_at out i (a * (1 - frac) + b * frac))
                  | _, _ => Throw NaNSample
                  end)
               out ;;
      Ok (alloc h out).

Definition getAudio (h : heap) (this : t) : t * result (heap * ref) :=
  (this, r <- mergeChunks h (chunks this) ;; resample this (fst r) (snd r)).

Definition disconnect (n : option AudioNode) : option AudioNode :=
  option_map (fun _ => mkNode false) n.

Definition close (c : option AudioContext) : option AudioContext :=
  option_map (fun c => mkContext (sampleRate c) true) c.

Definition stop (h : heap) (this : t) : t * result (heap * ref) :=
  let this := mk (stream this) (audioCtx this) None None (chunks this)
                 (nativeSampleRate this) in
  match r <- mergeChunks h (chunks this) ;; resample this (fst r) (snd r) with
  | Ok audio =>
      (mk (stream this) None (sourceNode this) (processorNode this)
          (chunks this) (nativeSampleRate this),
       Ok audio)
  | Throw e => (this, Throw e)
  end.

Definition dispose (this : t) : t :=
  mk (stream this) (close (audioCtx this)) (disconnect (sourceNode this))
     (disconnect (processorNode this)) (chunks this) (nativeSampleRate this).

(** What can happen to a capture object, and a history of it.  The history
    may deliver a block at any moment; the platform does so only while a
    processor node is connected, so its histories are among these. *)
Inductive op : Type :=
  | op_init (granted : result nat)
  | op_start (deviceRate : Q)
  | op_audioprocess (input : list Q)
  | op_getAudio
  | op_stop
  | op_dispose.

Definition returned (h : heap) (r : t * result (heap * ref)) : heap * t :=
  match r with
  | (this, Ok (h', _)) => (h', this)
  | (this, Throw _) => (h, this)
  end.

Definition step (st : heap * t) (o : op) : heap * t :=
  let (h, this) := st in
  match o with
  | op_init granted => (h, fst (init this granted))
  | op_start deviceRate => (h, fst (start this deviceRate))
  | op_audioprocess input => onaudioprocess h this input
  | op_getAudio => returned h (getAudio h this)
  | op_stop => returned h (stop h this)
  | op_dispose => (h, dispose this)
  end.

Definition run (st : heap * t) (ops : list op) : heap * t :=
  fold_left step ops st.

(** The platform keeps its side of the contract: sample rates are positive
    and delivered samples lie in [[-1, 1]]. *)
Definition nominal (o : op) : Prop :=
  match o with
  | op_start deviceRate => 0 < deviceRate
  | op_audioprocess input => Forall (fun x => -1 <= x <= 1) input
  | _ => True
  end.

End Browser.

End Audio.

(** ** [worker.ts] *)

Module Worker.

(** A loaded [AutomaticSpeechRecognitionPipeline], opaque. *)
Definition pipeline : Type := nat.

Inductive device : Type := webgpu | wasm.

Definition device_name (d : device) : string :=
  match d with
  | webgpu => "webgpu"
  | wasm => "wasm"
  end.

Inductive WorkerRequest : Type :=
  | load
  | transcribe (audio : list Q).

Inductive WorkerResponse : Type :=
  | msg_progress (status : string) (file : option string) (progress : option Q)
  | msg_ready (device : string)
  | msg_result (text : string)
  | msg_error (error : string).

(** What [detectDevice] meets: no [gpu] property, [requestAdapter] resolving
    with an adapter or with [null], or [requestAdapter] throwing. *)
Inductive gpu_probe : Type :=
  | NoGpu
  | Adapter (found : bool)
  | ProbeThrows.

Definition detectDevice (p : gpu_probe) : device :=
  match p with
  | Adapter true => webgpu
  | _ => wasm
  end.

(** The argument of [progress_callback]. *)
Record progress_info : Type := mkProgress {
  p_status : option string;
  p_file : option string;
  p_progress : option Q
}.

(** What the pipeline returns: one result object or an array of them. *)
Inductive output : Type :=
  | Single (text : string)
  | Many (candidates : list string).

(** [String.prototype.trim] on the white space and line terminators of
    ASCII, the characters 9 to 13 and 32.  The white space beyond ASCII that
    [trim] removes as well (U+00A0, U+FEFF, ...) is not modelled: on a text
    of ASCII characters the two agree. *)
Definition is_space (c : ascii) : bool :=
  let n := nat_of_ascii c in
  ((9 <=? n) && (n <=? 13) || (n =? 32))%nat.

Fixpoint trim_start (s : string) : string :=
  match s with
  | String c rest => if is_space c then trim_start rest else s
  | EmptyString => EmptyString
  end.

Fixpoint trim_end (s : string) : string :=
  match s with
  | String c rest =>
      match trim_end rest with
      | EmptyString => if is_space c then EmptyString else String c EmptyString
      | rest' => String c rest'
      end
  | EmptyString => EmptyString
  end.

Definition trim (s : string) : string := trim_end (trim_start s).

(** [Array.isArray(result) ? result[0].text : result.text], then [.trim()];
    [result[0]] of an empty array is [undefined], whose [.text] throws. *)
Definition result_text (r : output) : result string :=
  match r with
  | Single text => Ok (trim text)
  | Many (first :: _) => Ok (trim first)
  | Many [] => Throw TypeError
  end.

(** An error interpolated into a template string, reduced to what the
    embedding keeps of it.  The language puts the name of the class and a
    colon before the message of an [Error], and an engine's own message after
    the name of a [RangeError] or [TypeError]; these parts are not
    modelled. *)
Definition exn_string (e : exn) : string :=
  match e with
  | RangeError => "RangeError"
  | TypeError => "TypeError"
  | NaNSample => "NaN"
  | Error message => message
  end.

(** A handler suspended at an [await]. *)
Inductive task : Type :=
  | Detecting
  | Creating (d : device)
  | Inferring (m : pipeline) (audio : list Q).

(** The module-level [transcriber], the suspended handlers by request number,
    and what the worker has done so far: the messages posted (each with the
    number of the request whose handler posted it) and the pipeline calls. *)
Record state : Type := mkState {
  transcriber : option pipeline;
  tasks : list (nat * task);
  received : nat;
  posted : list (nat * WorkerResponse);
  invoked : list (nat * (pipeline * list Q))
}.

Definition initial : state := mkState None [] 0 [] [].

Definition postMessage (st : state) (id : nat) (r : WorkerResponse) : state :=
  mkState (transcriber st) (tasks st) (received st) (posted st ++ [(id, r)])
          (invoked st).

Definition suspend (st : state) (id : nat) (t : task) : state :=
  mkState (transcriber st) (tasks st ++ [(id, t)]) (received st) (posted st)
          (invoked st).

Fixpoint find_task (id : nat) (ts : list (nat * task)) : option task :=
  match ts with
  | [] => None
  | (id', t) :: rest => if Nat.eqb id' id then Some t else find_task id rest
  end.

Definition finish (st : state) (id : nat) : state :=
  mkState (transcriber st)
          (filter (fun p => negb (Nat.eqb (fst p) id)) (tasks st))
          (received st) (posted st) (invoked st).

(** Steps of the worker: a message arrives, or an awaited promise settles and
    the handler of request [id] resumes. *)
Inductive event : Type :=
  | Message (req : WorkerRequest)
  | DeviceDetected (id : nat) (probe : gpu_probe)
  | ProgressCallback (id : nat) (p : progress_info)
  | CreateResolved (id : nat) (m : pipeline)
  | CreateRejected (id : nat) (err : exn)
  | InferenceResolved (id : nat) (r : output)
  | InferenceRejected (id : nat) (err : exn).

(** [self.onmessage] up to its first [await]. *)
Definition onmessage (st : state) (req : WorkerRequest) : state :=
  let id := received st in
  let st := mkState (transcriber st) (tasks st) (S id) (posted st)
                    (invoked st) in
  match req with
  | load => suspend st id Detecting
  | transcribe audio =>
      match transcriber st with
      | None => postMessage st id (msg_error "Model not loaded")
      | Some m =>
          suspend (mkState (transcriber st) (tasks st) (received st)
                           (posted st) (invoked st ++ [(id, (m, audio))]))
                  id (Inferring m audio)
      end
  end.

Definition step (st : state) (ev : event) : state :=
  match ev with
  | Message req => onmessage st req
  | DeviceDetected id probe =>
      match find_task id (tasks st) with
      | Some Detecting =>
          let device := detectDevice probe in
          let st := postMessage st id
                      (msg_progress "initiate"
                         (Some ("device: " ++ device_name device)%string) None) in
          suspend (finish st id) id (Creating device)
      | _ => st
      end
  | ProgressCallback id p =>
      match find_task id (tasks st) with
      | Some (Creating _) =>
          postMessage st id
            (msg_progress (match p_status p with Some s => s | None => EmptyString end)
                          (p_file p) (p_progress p))
      | _ => st
      end
  | CreateResolved id m =>
      match find_task id (tasks st) with
      | Some (Creating device) =>
          let st := mkState (Some m) (tasks st) (received st) (posted st)
                            (invoked st) in
          finish (postMessage st id (msg_ready (device_name device))) id
      | _ => st
      end
  | CreateRejected id err =>
      match find_task id (tasks st) with
      | Some (Creating _) =>
          finish (postMessage st id
                    (msg_error ("Model load failed: " ++ exn_string err))) id
      | _ => st
      end
  | InferenceResolved id r =>
      match find_task id (tasks st) with
      | Some (Inferring _ _) =>
          match result_text r with
          | Ok text => finish (postMessage st id (msg_result text)) id
          | Throw err =>
              finish (postMessage st id
                        (msg_error ("Transcription failed: " ++ exn_string err)))
                     id
          end
      | _ => st
      end
  | InferenceRejected id err =>
      match find_task id (tasks st) with
      | Some (Inferring _ _) =>
          finish (postMessage st id
                    (msg_error ("Transcription failed: " ++ exn_string err))) id
      | _ => st
      end
  end.

Definition run (st : state) (evs : list event) : state := fold_left step evs st.

(** The responses posted by the handler of request [id], and its pipeline
    calls. *)
Definition responses (id : nat) (st : state) : list WorkerResponse :=
  map snd (filter (fun p => Nat.eqb (fst p) id) (posted st)).

Definition invocations (id : nat) (st : state) : list (pipeline * list Q) :=
  map snd (filter (fun p => Nat.eqb (fst p) id) (invoked st)).

Definition is_result (r : WorkerResponse) : bool :=
  match r with msg_result _ => true | _ => false end.

(** What request [id] has to show for itself in a state: its suspended
    handler, its responses and its pipeline calls. *)
Definition view (id : nat) (st : state)
    : option task * list WorkerResponse * list (pipeline * list Q) :=
  (find_task id (tasks st), responses id st, invocations id st).

(** A state in which the request numbers from [received] on are unused. *)
Definition tidy (st : state) : Prop :=
  forall id, (received st <= id)%nat -> view id st = (None, [], []).

(** [ev] completes a load: [create(..)] resolves. *)
Definition loads (ev : event) : bool :=
  match ev with CreateResolved _ _ => true | _ => false end.

(** [ev] settles the pipeline call of request [id]. *)
Definition settles (id : nat) (ev : event) : bool :=
  match ev with
  | InferenceResolved i _ | InferenceRejected i _ => Nat.eqb i id
  | _ => false
  end.

(** [ev] makes the handler of request [id] throw [e] after the pipeline was
    called: the call rejects, or it resolves with an empty array, whose first
    element has no [text]. *)
Definition raises (id : nat) (ev : event) (e : exn) : Prop :=
  ev = InferenceRejected id e
  \/ (ev = InferenceResolved id (Many []) /\ e = TypeError).

End Worker.

(** ** [main.ts] *)

(** The [AudioCapture] interface.  A method returns the object after the call
    together with what the call returned or threw. *)
Class AudioCapture (C : Type) : Type := {
  start : C -> C * result unit;
  stop : heap -> C -> C * result (heap * ref);
  getAudio : heap -> C -> C * result (heap * ref)
}.

#[global] Instance GlassesAudioCapture : AudioCapture Audio.Glasses.t := {
  start := fun this => (Audio.Glasses.start this, Ok tt);
  stop := Audio.Glasses.stop;
  getAudio := Audio.Glasses.getAudio
}.

(** The browser variant on a device whose [AudioContext] runs at
    [deviceRate]. *)
#[global] Instance BrowserAudioCapture (deviceRate : Q)
    : AudioCapture Audio.Browser.t := {
  start := fun this => Audio.Browser.start this deviceRate;
  stop := Audio.Browser.stop;
  getAudio := Audio.Browser.getAudio
}.

Module Main.

Inductive log_type : Type := info | event | error.

(** Log entries and status lines.  A text that interpolates a number or an
    error keeps the interpolated value instead of its formatting. *)
Inductive text : Type :=
  | Text (s : string)
  | Captured (samples : nat)
  | AudioDecodeError (err : exn)
  | Transcript (t : string)
  | WorkerError (e : string)
  | ModelProgress (status : string) (file : option string)
                  (progress : option Q)
  | LoadingModel (file : option string)
  | ModelReady (device : string).

Record Button : Type := mkButton {
  textContent : text;
  disabled : bool;
  class_recording : bool
}.

Section Controller.

Context {C : Type} `{AudioCapture C}.

(** The module-level variables of [main.ts], the page elements it writes, the
    messages posted to the worker and the texts sent to the glasses display,
    with the store of typed arrays.  [logEl] has the newest entry first. *)
Record state : Type := mkState {
  memory : heap;
  modelReady : bool;
  has_bridge : bool;
  audioCapture : option C;
  recording : bool;
  statusEl : text;
  modelStatusEl : text;
  recordBtn : Button;
  logEl : list (log_type * text);
  display : list string;
  to_worker : list Worker.WorkerRequest
}.

Definition log (st : state) (msg : text) (type : log_type) : state :=
  mkState (memory st) (modelReady st) (has_bridge st) (audioCapture st)
          (recording st) (statusEl st) (modelStatusEl st) (recordBtn st)
          ((type, msg) :: logEl st) (display st) (to_worker st).

Definition updateDisplay (st : state) (content : string) : state :=
  if has_bridge st then
    mkState (memory st) (modelReady st) (has_bridge st) (audioCapture st)
            (recording st) (statusEl st) (modelStatusEl st) (recordBtn st)
            (logEl st) (display st ++ [content]) (to_worker st)
  else st.

Definition set_status (st : state) (t : text) : state :=
  mkState (memory st) (modelReady st) (has_bridge st) (audioCapture st)
          (recording st) t (modelStatusEl st) (recordBtn st) (logEl st)
          (display st) (to_worker st).

Definition set_modelStatus (st : state) (t : text) : state :=
  mkState (memory st) (modelReady st) (has_bridge st) (audioCapture st)
          (recording st) (statusEl st) t (recordBtn st) (logEl st)
          (display st) (to_worker st).

Definition set_button (st : state) (b : Button) : state :=
  mkState (memory st) (modelReady st) (has_bridge st) (audioCapture st)
          (recording st) (statusEl st) (modelStatusEl st) b (logEl st)
          (display st) (to_worker st).

Definition set_recording (st : state) (r : bool) : state :=
  mkState (memory st) (modelReady st) (has_bridge st) (audioCapture st) r
          (statusEl st) (modelStatusEl st) (recordBtn st) (logEl st)
          (display st) (to_worker st).

Definition set_capture (st : state) (h : heap) (c : C) : state :=
  mkState h (modelReady st) (has_bridge st) (Some c) (recording st)
          (statusEl st) (modelStatusEl st) (recordBtn st) (logEl st)
          (display st) (to_worker st).

Definition btn_text (st : state) (t : text) : state :=
  set_button st (mkButton t (disabled (recordBtn st))
                          (class_recording (recordBtn st))).

Definition btn_disabled (st : state) (d : bool) : state :=
  set_button st (mkButton (textContent (recordBtn st)) d
                          (class_recording (recordBtn st))).

Definition btn_class_recording (st : state) (on : bool) : state :=
  set_button st (mkButton (textContent (recordBtn st))
                          (disabled (recordBtn st)) on).

(** [worker.postMessage({ type: "transcribe", audio }, [audio.buffer])]: the
    samples travel to the worker and the array on this side is left
    detached, of length zero. *)
Fixpoint detach (h : heap) (r : ref) : heap :=
  match h, r with
  | [], _ => []
  | _ :: t, O => [] :: t
  | a :: t, S r' => a :: detach t r'
  end.

Definition post_transcribe (st : state) (audio : ref) : state :=
  mkState (detach (memory st) audio) (modelReady st) (has_bridge st)
          (audioCapture st) (recording st) (statusEl st) (modelStatusEl st)
          (recordBtn st) (logEl st) (display st)
          (to_worker st ++ [Worker.transcribe (deref (memory st) audio)]).

(** [worker.onmessage] *)
Definition worker_onmessage (st : state) (msg : Worker.WorkerResponse)
    : state :=
  match msg with
  | Worker.msg_progress status file progress =>
      let st := set_modelStatus st (ModelProgress status file progress) in
      if String.eqb status "initiate"
      then log st (LoadingModel file) info
      else st
  | Worker.msg_ready device =>
      let st := mkState (memory st) true (has_bridge st) (audioCapture st)
                        (recording st) (statusEl st) (ModelReady device)
                        (recordBtn st) (logEl st) (display st)
                        (to_worker st) in
      let st := btn_disabled st false in
      let st := log st (ModelReady device) event in
      updateDisplay st "Ready - tap to record"
  | Worker.msg_result t =>
      let st := log st (Transcript t) event in
      let st := updateDisplay st t in
      let st := set_status st (Text "Tap to record") in
      btn_text st (Text "Record")
  | Worker.msg_error e =>
      let st := log st (WorkerError e) error in
      let st := set_status st (Text "Error - tap to retry") in
      btn_text st (Text "Record")
  end.

Definition startRecording (st : state) : state * result unit :=
  match audioCapture st with
  | None => (st, Ok tt)
  | Some capture =>
      let st := set_recording st true in
      match start capture with
      | (capture, Throw e) => (set_capture st (memory st) capture, Throw e)
      | (capture, Ok _) =>
          let st := set_capture st (memory st) capture in
          let st := set_status st (Text "Recording...") in
          let st := btn_text st (Text "Stop") in
          let st := btn_class_recording st true in
          let st := updateDisplay st "Recording..." in
          (log st (Text "Recording started") event, Ok tt)
      end
  end.

(** [stopRecording].  Both capture classes run [stop()] to its end inside the
    call, so the [await] resumes before any other event is handled. *)
Definition stopRecording (st : state) : state :=
  match audioCapture st with
  | None => st
  | Some capture =>
      if negb (recording st) then st
      else
        let st := set_recording st false in
        let st := btn_text st (Text "...") in
        let st := btn_class_recording st false in
        let st := btn_disabled st true in
        match stop (memory st) capture with
        | (capture, Ok (h, audio)) =>
            let st := set_capture st h capture in
            let st := log st (Captured (length (deref h audio))) info in
            if (length (deref h audio) <? 1600)%nat then
              let st := log st (Text "Recording too short, ignoring") error in
              let st := set_status st (Text "Too short - try again") in
              let st := btn_text st (Text "Record") in
              btn_disabled st false
            else
              let st := set_status st (Text "Transcribing...") in
              let st := updateDisplay st "Transcribing..." in
              let st := post_transcribe st audio in
              btn_disabled st false
        | (capture, Throw err) =>
            let st := set_capture st (memory st) capture in
            let st := log st (AudioDecodeError err) error in
            let st := set_status st (Text "Audio error - try again") in
            let st := btn_text st (Text "Record") in
            btn_disabled st false
        end
  end.

Definition toggleRecording (st : state) : state :=
  if negb (modelReady st) then st
  else if recording st then stopRecording st
  else fst (startRecording st).

End Controller.

End Main.

(** ** Vocabulary of the statements *)

(** The lengths of the chunks and the offset at which chunk [k] begins in the
    merged array. *)
Definition chunk_lengths (h : heap) (chunks : list ref) : list nat :=
  map (fun c => length (deref h c)) chunks.

Definition chunk_offset (h : heap) (chunks : list ref) (k : nat) : nat :=
  list_sum (firstn k (chunk_lengths h chunks)).

(** Signed 16-bit samples and their little-endian bytes. *)
Definition is_int16 (s : Z) : Prop := (-32768 <= s <= 32767)%Z.




(** A sample of a buffer leaving a capture backend lies in [[-1, 1]]. *)
Definition in_range (x : Q) : Prop := -1 <= x <= 1.

(** Linear interpolation of [raw] at output index [i] when the input runs at
    [native] Hz and the output at 16000 Hz, as the specification words it:
    source position [i / ratio], the sample below it, the sample above it
    clamped to the last index, weighted by the fractional part. *)
Definition interpolation (raw : list Q) (native : Q) (i : nat) : Q :=
  let ratio := 16000 / native in
  let srcIdx := inject_Z (Z.of_nat i) / ratio in
  let lo := Qfloor srcIdx in
  let hi := Z.min (lo + 1) (Z.of_nat (length raw) - 1) in
  let frac := srcIdx - inject_Z lo in
  nth (Z.to_nat lo) raw 0 * (1 - frac) + nth (Z.to_nat hi) raw 0 * frac.

(** Chunks that exist in the store and hold samples of the range. *)
Definition sound (h : heap) (chunks : list ref) : Prop :=
  Forall (fun c => valid h c /\ Forall in_range (deref h c)) chunks.

(** What every history of the browser backend preserves: sound chunks and a
    positive native rate. *)
Definition browser_ok (st : heap * Audio.Browser.t) : Prop :=
  sound (fst st) (Audio.Browser.chunks (snd st))
  /\ 0 < Audio.Browser.nativeSampleRate (snd st).

(** Two short sessions: the glasses backend after [start()] and one frame
    holding one sample, the browser backend after [init()], [start()] and one
    delivered block. *)
Definition example_frame : Audio.EvenHubEvent :=
  Audio.mkEvent (Some (Audio.mkUint8Array [x00; x40] 0 2)).

Definition glasses_session : heap * Audio.Glasses.t :=
  Audio.Glasses.run ([], Audio.Glasses.create Audio.new_bridge)
    [Audio.Glasses.op_start; Audio.Glasses.op_event example_frame].

Definition browser_session : heap * Audio.Browser.t :=
  Audio.Browser.run ([], Audio.Browser.create)
    [Audio.Browser.op_init (Ok 0%nat); Audio.Browser.op_start 16000;
     Audio.Browser.op_audioprocess [1 # 2]].

(** ** Further vocabulary *)

(** A [Uint8Array] whose window lies inside its buffer, as every typed array
    does. *)
Definition inside (uint8 : Audio.Uint8Array) : Prop :=
  (Audio.byteOffset uint8 + Audio.length8 uint8
   <= length (Audio.buffer uint8))%nat.

(** What one bridge event adds to the chunk list of a recording glasses
    backend: the converted frame, or nothing when the event carries no audio
    or the frame cannot be viewed as 16-bit samples. *)
Definition frame_chunk (event : Audio.EvenHubEvent) : list (list Q) :=
  match Audio.audioEvent event with
  | Some audioPcm =>
      match Audio.Int16Array_view audioPcm with
      | Ok int16 => [map Audio.pcm_sample int16]
      | Throw _ => []
      end
  | None => []
  end.

(** The response [progress_callback] posts for one progress report. *)
Definition progress_response (p : Worker.progress_info)
    : Worker.WorkerResponse :=
  Worker.msg_progress
    (match Worker.p_status p with Some s => s | None => EmptyString end)
    (Worker.p_file p) (Worker.p_progress p).

(** [ev] resumes the handler of request [id]. *)
Definition targets (id : nat) (ev : Worker.event) : bool :=
  match ev with
  | Worker.Message _ => false
  | Worker.DeviceDetected i _ | Worker.ProgressCallback i _
  | Worker.CreateResolved i _ | Worker.CreateRejected i _
  | Worker.InferenceResolved i _ | Worker.InferenceRejected i _ =>
      Nat.eqb i id
  end.

(** The life of one request, told without the rest of the worker: how the
    suspended handler, the responses and the pipeline calls of a request
    change when one of its own promises settles. *)
Definition react
    (v : option Worker.task * list Worker.WorkerResponse
         * list (Worker.pipeline * list Q))
    (ev : Worker.event)
    : option Worker.task * list Worker.WorkerResponse
      * list (Worker.pipeline * list Q) :=
  match v with
  | (Some Worker.Detecting, rs, calls) =>
      match ev with
      | Worker.DeviceDetected _ probe =>
          (Some (Worker.Creating (Worker.detectDevice probe)),
           rs ++ [Worker.msg_progress "initiate"
                    (Some ("device: "
                           ++ Worker.device_name (Worker.detectDevice probe))
                          %string)
                    None],
           calls)
      | _ => v
      end
  | (Some (Worker.Creating d), rs, calls) =>
      match ev with
      | Worker.ProgressCallback _ p =>
          (Some (Worker.Creating d), rs ++ [progress_response p], calls)
      | Worker.CreateResolved _ _ =>
          (None, rs ++ [Worker.msg_ready (Worker.device_name d)], calls)
      | Worker.CreateRejected _ err =>
          (None,
           rs ++ [Worker.msg_error
                    ("Model load failed: " ++ Worker.exn_string err)],
           calls)
      | _ => v
      end
  | (Some (Worker.Inferring _ _), rs, calls) =>
      match ev with
      | Worker.InferenceResolved _ r =>
          (None,
           rs ++ [match Worker.result_text r with
                  | Ok text => Worker.msg_result text
                  | Throw err =>
                      Worker.msg_error
                        ("Transcription failed: " ++ Worker.exn_string err)
                  end],
           calls)
      | Worker.InferenceRejected _ err =>
          (None,
           rs ++ [Worker.msg_error
                    ("Transcription failed: " ++ Worker.exn_string err)],
           calls)
      | _ => v
      end
  | (None, _, _) => v
  end.

(** A response that ends a request: [ready], [result] or [error]. *)
Definition terminal (r : Worker.WorkerResponse) : bool :=
  match r with
  | Worker.msg_progress _ _ _ => false
  | _ => true
  end.

(** A text without white space at either end. *)
Definition starts_with_space (s : string) : bool :=
  match s with
  | String c _ => Worker.is_space c
  | EmptyString => false
  end.

Fixpoint ends_with_space (s : string) : bool :=
  match s with
  | EmptyString => false
  | String c EmptyString => Worker.is_space c
  | String _ rest => ends_with_space rest
  end.

Definition trimmed (s : string) : bool :=
  negb (starts_with_space s) && negb (ends_with_space s).

(** A text of ASCII characters.  On such a text [String.prototype.trim]
    removes exactly the characters of [Worker.is_space]; beyond ASCII it
    also removes U+00A0, U+FEFF and the other white space of Unicode, which
    [Worker.trim] leaves in place. *)
Fixpoint ascii_text (s : string) : bool :=
  match s with
  | EmptyString => true
  | String c rest => (nat_of_ascii c <? 128)%nat && ascii_text rest
  end.

(** A request that is through: progress responses, then one terminal
    response; and a request still suspended: progress responses only. *)
Definition answered (rs : list Worker.WorkerResponse) : Prop :=
  exists (ps : list Worker.WorkerResponse) (t : Worker.WorkerResponse),
    rs = ps ++ [t]
    /\ forallb (fun r => negb (terminal r)) ps = true
    /\ terminal t = true.

Definition in_order
    (v : option Worker.task * list Worker.WorkerResponse
         * list (Worker.pipeline * list Q)) : Prop :=
  match v with
  | (Some _, rs, _) => forallb (fun r => negb (terminal r)) rs = true
  | (None, rs, _) => answered rs
  end.

(** ** The page: what drives the controller *)

Module Page.

(** The event types the glasses handler of [main()] tells apart; the other
    members of the SDK's [OsEventTypeList] are [other_event]s. *)
Inductive OsEventType : Type :=
  | CLICK_EVENT
  | DOUBLE_CLICK_EVENT
  | other_event (code : nat).

(** Of an [EvenHubEvent] the handler reads whether [audioEvent] is set and
    the [eventType] of [textEvent], [listEvent] and [sysEvent]; [None] stands
    for a missing sub-event as well as for a missing [eventType]. *)
Record HubEvent : Type := mkHubEvent {
  has_audio : bool;
  textEventType : option OsEventType;
  listEventType : option OsEventType;
  sysEventType : option OsEventType
}.

(** [textEvent?.eventType ?? listEvent?.eventType ?? sysEvent?.eventType] *)
Definition eventType (e : HubEvent) : option OsEventType :=
  match textEventType e with
  | Some t => Some t
  | None =>
      match listEventType e with
      | Some t => Some t
      | None => sysEventType e
      end
  end.

Inductive op : Type :=
  | toggle
  | from_worker (msg : Worker.WorkerResponse)
  | from_glasses (e : HubEvent).

Section Histories.

Context {C : Type} `{AudioCapture C}.

(** The listener [main()] registers on the bridge. *)
Definition onEvenHubEvent (st : @Main.state C) (e : HubEvent)
    : @Main.state C :=
  if has_audio e then st
  else
    match eventType e with
    | None | Some CLICK_EVENT => Main.toggleRecording st
    | Some DOUBLE_CLICK_EVENT =>
        Main.log (Main.updateDisplay st EmptyString)
                 (Main.Text "Display cleared") Main.event
    | Some (other_event _) => st
    end.

(** A click on the record button, a message from the worker, or an event
    from the glasses. *)
Definition step (st : @Main.state C) (o : op) : @Main.state C :=
  match o with
  | toggle => Main.toggleRecording st
  | from_worker msg => Main.worker_onmessage st msg
  | from_glasses e => onEvenHubEvent st e
  end.

Definition run (st : @Main.state C) (ops : list op) : @Main.state C :=
  fold_left step ops st.

End Histories.

(** An event as the bridge hands it to its listeners: [audioEvent] is what the
    capture class reads, the event types are what the controller's listener
    reads. *)
Record Event : Type := mkPageEvent {
  audioEvent : option Audio.Uint8Array;
  textEvent : option OsEventType;
  listEvent : option OsEventType;
  sysEvent : option OsEventType
}.

Definition carries_audio (e : Event) : bool :=
  match audioEvent e with
  | Some _ => true
  | None => false
  end.

Definition for_controller (e : Event) : HubEvent :=
  mkHubEvent (carries_audio e) (textEvent e) (listEvent e) (sysEvent e).

Definition for_capture (e : Event) : Audio.EvenHubEvent :=
  Audio.mkEvent (audioEvent e).

(** The bridge delivering one event to a page that runs on the glasses.  Its
    listeners run in the order of their registration: first the one [main()]
    registers when the glasses connect, then the one a capture object
    registered in its [start()], if it is still registered. *)
Definition bridge_event (st : @Main.state Audio.Glasses.t) (e : Event)
    : @Main.state Audio.Glasses.t :=
  let st := onEvenHubEvent st (for_controller e) in
  match Main.audioCapture st with
  | Some capture =>
      let (h, capture') :=
        Audio.Glasses.step (Main.memory st, capture)
          (Audio.Glasses.op_event (for_capture e)) in
      Main.set_capture st h capture'
  | None => st
  end.

Definition deliver (st : @Main.state Audio.Glasses.t) (events : list Event)
    : @Main.state Audio.Glasses.t :=
  fold_left bridge_event events st.

Definition is_ready (o : op) : bool :=
  match o with
  | from_worker (Worker.msg_ready _) => true
  | _ => false
  end.

End Page.

(** A [transcribe] request with at least a tenth of a second of audio. *)
Definition long_enough (req : Worker.WorkerRequest) : Prop :=
  match req with
  | Worker.transcribe audio => (1600 <= length audio)%nat
  | Worker.load => False
  end.

(** The parts of the controller's state a recording lives in. *)
Definition session {C : Type} (st : @Main.state C)
    : bool * list Worker.WorkerRequest * option C * heap * bool :=
  (Main.recording st, Main.to_worker st, Main.audioCapture st,
   Main.memory st, Main.modelReady st).

(** ** [scripts/start-sim.mjs] *)

Module Sim.

(** What [waitForServer] does to the outside: a [fetch] of the URL, or a
    pause of [delay] milliseconds. *)
Inductive effect : Type :=
  | fetch (url : string)
  | pause (delay : nat).

(** [waitForServer], from attempt number [i] with [retries] attempts left;
    [up i] tells whether the [fetch] of attempt [i] resolves. *)
Fixpoint waitForServer_from (up : nat -> bool) (url : string) (delay : nat)
    (i retries : nat) : list effect * result bool :=
  match retries with
  | O =>
      ([], Throw (Error ("Server at " ++ url ++ " did not start in time")))
  | S n =>
      if up i then ([fetch url], Ok true)
      else
        let (trace, r) := waitForServer_from up url delay (S i) n in
        (fetch url :: pause delay :: trace, r)
  end.

Definition waitForServer (up : nat -> bool) (url : string)
    (retries delay : nat) : list effect * result bool :=
  waitForServer_from up url delay 0 retries.

(** [k] failed attempts: a fetch and a pause each. *)
Definition failed_attempts (url : string) (delay k : nat) : list effect :=
  concat (repeat [fetch url; pause delay] k).

End Sim.

(** ** [resample] in the arithmetic of the language

    [Audio.Browser.resample] above computes with exact rationals, which is
    enough for what the capture classes do with buffers.  The length and the
    sample values the method returns are the results of binary64 operations
    stored as binary32; this module embeds the method once more with that
    arithmetic, on the floating-point specification of the standard library
    ([SFadd], [SFmul], [SFdiv], ... round to nearest, ties to even). *)

Module IEEE.

(** A JavaScript Number: a binary64 value in canonical form. *)
Definition Number : Type := spec_float.

(** An element of a [Float32Array]: a binary32 value in canonical form. *)
Definition float32 : Type := spec_float.

Definition NaN : spec_float := S754_nan.

(** An integer as a Number (exact up to [2^53]). *)
Definition of_Z (z : Z) : Number := binary_normalize 53 1024 z 0 false.

Definition add : Number -> Number -> Number := SFadd 53 1024.
Definition sub : Number -> Number -> Number := SFsub 53 1024.
Definition mul : Number -> Number -> Number := SFmul 53 1024.
Definition div : Number -> Number -> Number := SFdiv 53 1024.

(** [x === y] on Numbers. *)
Definition strict_eq (x y : Number) : bool := SFeqb x y.

(** The signed significand of a finite value. *)
Definition signed (s : bool) (m : positive) : Z := cond_Zopp s (Zpos m).

(** Reading an element of a [Float32Array]: the same value as a Number. *)
Definition widen (x : float32) : Number :=
  match x with
  | S754_finite s m e => binary_normalize 53 1024 (signed s m) e s
  | _ => x
  end.

(** Writing a Number into a [Float32Array]: rounded to the nearest binary32
    value, ties to even; beyond the binary32 range it becomes an infinity. *)
Definition fround (x : Number) : float32 :=
  match x with
  | S754_finite s m e => binary_normalize 24 128 (signed s m) e s
  | _ => x
  end.

(** [Math.floor]. *)
Definition Math_floor (x : Number) : Number :=
  match x with
  | S754_finite s m e =>
      if (0 <=? e)%Z then x
      else
        let z := Z.shiftr (signed s m) (- e) in
        if (z =? 0)%Z then S754_zero s else of_Z z
  | _ => x
  end.

(** [Math.round]: the nearest integer, a tie going up; a result of zero keeps
    the sign of the argument. *)
Definition Math_round (x : Number) : Number :=
  match x with
  | S754_finite s m e =>
      if (0 <=? e)%Z then x
      else
        let z := Z.shiftr (2 * signed s m + 2 ^ (- e)) (1 - e) in
        if (z =? 0)%Z then S754_zero s else of_Z z
  | _ => x
  end.

(** [Math.min] of two Numbers: NaN if either is NaN, and [-0] below [+0]. *)
Definition Math_min (x y : Number) : Number :=
  match SFcompare x y with
  | None => NaN
  | Some Lt => x
  | Some Gt => y
  | Some Eq => match x with S754_zero true => x | _ => y end
  end.

(** The integer a Number denotes when it is one. *)
Definition to_integer (x : Number) : option Z :=
  match x with
  | S754_zero _ => Some 0%Z
  | S754_finite s m e =>
      if (0 <=? e)%Z then Some (signed s m * 2 ^ e)%Z
      else if (Z.land (Zpos m) (2 ^ (- e) - 1) =? 0)%Z
           then Some (Z.shiftr (signed s m) (- e))
           else None
  | _ => None
  end.

(** [a[x]] on a [Float32Array] with a Number as the key: the element when
    [x] is an integer inside the array, [undefined] otherwise, which
    arithmetic reads as NaN. *)
Definition get (a : list float32) (x : Number) : Number :=
  match to_integer x with
  | Some z =>
      if (z <? 0)%Z then NaN
      else match nth_error a (Z.to_nat z) with
           | Some v => widen v
           | None => NaN
           end
  | None => NaN
  end.

(** [a[i] = v] on a [Float32Array]: a write outside the array is ignored. *)
Fixpoint set (a : list float32) (i : nat) (v : Number) : list float32 :=
  match a, i with
  | [], _ => []
  | _ :: t, O => fround v :: t
  | x :: t, Datatypes.S j => x :: set t j v
  end.

(** [ToIntegerOrInfinity] of the language definition: NaN counts as 0 and
    the fraction of a finite Number is dropped. *)
Inductive integer_or_infinity : Type :=
  | Integer (z : Z)
  | PlusInfinity
  | MinusInfinity.

Definition ToIntegerOrInfinity (x : Number) : integer_or_infinity :=
  match x with
  | S754_nan | S754_zero _ => Integer 0
  | S754_infinity false => PlusInfinity
  | S754_infinity true => MinusInfinity
  | S754_finite s m e =>
      if (0 <=? e)%Z then Integer (signed s m * 2 ^ e)
      else Integer (Z.quot (signed s m) (2 ^ (- e)))
  end.

(** [new Float32Array(length)] with a Number.  [ToIndex] throws a
    [RangeError] unless the integer lies in [0 .. 2^53 - 1], and so does the
    allocation when the array is longer than the engine creates; that limit
    is the parameter [maxLength].  A failure for lack of memory below that
    limit is not modelled.  The new array holds [+0] everywhere. *)
Definition new_Float32Array (maxLength : N) (length : Number)
    : result (list float32) :=
  match ToIntegerOrInfinity length with
  | Integer z =>
      if ((z <? 0) || (2 ^ 53 - 1 <? z) || (Z.of_N maxLength <? z))%Z
      then Throw RangeError
      else Ok (repeat (S754_zero false) (Z.to_nat z))
  | _ => Throw RangeError
  end.

(** [BrowserAudioCapture.resample]: the quotient, the product, the source
    position and the interpolation are binary64 operations, and the sample
    is stored as binary32.  [outLen] is an integer, an infinity or NaN, so
    when the array exists [i < outLen] holds for the indices of [out] and for
    no other [i]. *)
Definition resample (maxLength : N) (nativeSampleRate : Number)
    (raw : list float32) : result (list float32) :=
  if strict_eq nativeSampleRate (of_Z 16000) then Ok raw
  else
    let ratio := div (of_Z 16000) nativeSampleRate in
    let length := of_Z (Z.of_nat (List.length raw)) in
    let outLen := Math_round (mul length ratio) in
    out <- new_Float32Array maxLength outLen ;;
    for_loop 0 (List.length out)
      (fun i out =>
         let srcIdx := div (of_Z (Z.of_nat i)) ratio in
         let lo := Math_floor srcIdx in
         let hi := Math_min (add lo (of_Z 1)) (sub length (of_Z 1)) in
         let frac := sub srcIdx lo in
         Ok (set out i
               (add (mul (get raw lo) (sub (of_Z 1) frac))
                    (mul (get raw hi) frac))))
      out.

(** The rational a finite value stands for, in lowest terms. *)
Definition value (x : spec_float) : option Q :=
  match x with
  | S754_zero _ => Some 0
  | S754_finite s m e => Some (Qred (inject_Z (signed s m) * Qpower 2 e))
  | _ => None
  end.

(** A Number that is not below zero: a zero, a finite value or an infinity
    with a clear sign bit, or NaN. *)
Definition not_negative (x : Number) : bool :=
  match x with
  | S754_zero s | S754_infinity s | S754_finite s _ _ => negb s
  | S754_nan => true
  end.

(** A positive finite Number, as the sample rate of an audio device is. *)
Definition positive_finite (x : Number) : bool :=
  match x with
  | S754_finite false _ _ => true
  | _ => false
  end.

End IEEE.

(** * Properties *)

(** ** Loops and typed arrays *)

Section ArrayFacts.

Lemma store_at_length (a : list Q) (i : nat) (v : Q) :
  length (store_at a i v) = length a.
Proof.
  revert i; induction a as [|x t IH]; intros [|j]; simpl; auto.
Qed.

Lemma store_at_app (pre t : list Q) (x v : Q) :
  store_at (pre ++ x :: t) (length pre) v = pre ++ v :: t.
Proof.
  induction pre as [|p pre IH]; simpl; [reflexivity|].
  now rewrite IH.
Qed.

(** A loop that assigns [f i] to cell [i] fills the zeroed tail of the array
    from left to right. *)
Lemma for_loop_fill (body : nat -> list Q -> result (list Q)) (f : nat -> Q) :
  forall (count start : nat) (pre : list Q),
    (forall i a, (start <= i < start + count)%nat ->
                 body i a = Ok (store_at a i (f i))) ->
    length pre = start ->
    for_loop start count body (pre ++ repeat 0%Q count)
    = Ok (pre ++ map f (seq start count)).
Proof.
  induction count as [|c IH]; intros start pre Hbody Hlen.
  - reflexivity.
  - cbn [for_loop repeat seq map].
    rewrite Hbody by lia.
    subst start. rewrite store_at_app. cbn [bind].
    replace (pre ++ f (length pre) :: repeat 0%Q c)
      with ((pre ++ [f (length pre)]) ++ repeat 0%Q c)
      by (rewrite <- app_assoc; reflexivity).
    rewrite IH.
    + rewrite <- app_assoc. reflexivity.
    + intros i a Hi. apply Hbody. lia.
    + rewrite length_app. simpl. lia.
Qed.

Lemma for_loop_fill0 (body : nat -> list Q -> result (list Q)) (f : nat -> Q)
    (n : nat) :
  (forall i a, (i < n)%nat -> body i a = Ok (store_at a i (f i))) ->
  for_loop 0 n body (Float32Array_zeros n) = Ok (map f (seq 0 n)).
Proof.
  intros Hbody.
  apply (@for_loop_fill body f n 0%nat []); [|reflexivity].
  intros i a Hi. apply Hbody. lia.
Qed.

Lemma map_nth_seq {A B : Type} (f : A -> B) (l : list A) (d : A) :
  map (fun i => f (nth i l d)) (seq 0 (length l)) = map f l.
Proof.
  induction l as [|x l IH]; simpl; [reflexivity|].
  f_equal. rewrite <- seq_shift, map_map. exact IH.
Qed.

Lemma set_at_fits (pre source : list Q) (m : nat) :
  set_at (pre ++ repeat 0%Q (length source + m)) source (length pre)
  = Ok (pre ++ source ++ repeat 0%Q m).
Proof.
  unfold set_at.
  rewrite length_app, repeat_length.
  destruct (Nat.ltb_spec (length pre + (length source + m))
                         (length pre + length source)) as [Hlt|_]; [lia|].
  f_equal.
  rewrite firstn_app, Nat.sub_diag, firstn_all. cbn [firstn].
  rewrite app_nil_r. f_equal. f_equal.
  rewrite skipn_app, repeat_app.
  replace (length pre + length source - length pre)%nat
    with (length source) by lia.
  rewrite (skipn_all2 pre) by lia. cbn [app].
  rewrite skipn_app, repeat_length, Nat.sub_diag.
  rewrite skipn_all2 by (rewrite repeat_length; lia).
  reflexivity.
Qed.

(** The store after an allocation. *)
Lemma deref_alloc_new (h : heap) (a : list Q) :
  deref (fst (alloc h a)) (snd (alloc h a)) = a.
Proof.
  unfold deref, alloc. simpl.
  rewrite app_nth2 by lia. now rewrite Nat.sub_diag.
Qed.

Lemma deref_alloc_old (h : heap) (a : list Q) (r : ref) :
  valid h r -> deref (fst (alloc h a)) r = deref h r.
Proof.
  unfold deref, alloc, valid. simpl. intros Hr.
  now rewrite app_nth1.
Qed.

Lemma deref_app_new (h : heap) (a : list Q) : deref (h ++ [a]) (length h) = a.
Proof. exact (deref_alloc_new h a). Qed.

Lemma deref_app_old (h : heap) (a : list Q) (r : ref) :
  valid h r -> deref (h ++ [a]) r = deref h r.
Proof. exact (@deref_alloc_old h a r). Qed.

End ArrayFacts.

(** ** [mergeChunks] *)

Section MergeChunks.

Import Audio.

Variable h : heap.

Lemma totalLength_sum (chunks : list ref) (acc : nat) :
  fold_left (fun sum c => (sum + length (deref h c))%nat) chunks acc
  = (acc + list_sum (chunk_lengths h chunks))%nat.
Proof.
  revert acc; induction chunks as [|c rest IH]; intros acc; simpl.
  - lia.
  - rewrite IH. unfold chunk_lengths. lia.
Qed.

Lemma mergeChunks_loop_concat (chunks : list ref) :
  forall pre : list Q,
    mergeChunks_loop h chunks
      (pre ++ repeat 0%Q (list_sum (chunk_lengths h chunks))) (length pre)
    = Ok (pre ++ concat (map (deref h) chunks)).
Proof.
  induction chunks as [|c rest IH]; intros pre; simpl.
  - reflexivity.
  - rewrite set_at_fits. cbn [bind].
    rewrite app_assoc.
    replace (length pre + length (deref h c))%nat
      with (length (pre ++ deref h c)) by (rewrite length_app; reflexivity).
    rewrite IH. now rewrite <- !app_assoc.
Qed.

Lemma mergeChunks_eq (chunks : list ref) :
  mergeChunks h chunks
  = Ok (h ++ [concat (map (deref h) chunks)], length h).
Proof.
  unfold mergeChunks. rewrite totalLength_sum. simpl.
  change (Float32Array_zeros (list_sum (chunk_lengths h chunks)))
    with ([] ++ repeat 0%Q (list_sum (chunk_lengths h chunks))).
  change 0%nat with (length (@nil Q)) at 1.
  rewrite mergeChunks_loop_concat. reflexivity.
Qed.

Lemma length_concat_chunks (chunks : list ref) :
  length (concat (map (deref h) chunks)) = list_sum (chunk_lengths h chunks).
Proof.
  induction chunks as [|c rest IH]; simpl; [reflexivity|].
  rewrite length_app, IH. reflexivity.
Qed.

Lemma concat_chunks_nth (chunks : list ref) :
  forall k j c,
    nth_error chunks k = Some c ->
    (j < length (deref h c))%nat ->
    nth_error (concat (map (deref h) chunks)) (chunk_offset h chunks k + j)
    = nth_error (deref h c) j.
Proof.
  induction chunks as [|c0 rest IH]; intros k j c Hk Hj.
  - destruct k; discriminate.
  - destruct k as [|k]; simpl in Hk.
    + injection Hk as ->. unfold chunk_offset. simpl.
      now rewrite nth_error_app1.
    + unfold chunk_offset in *. simpl.
      rewrite nth_error_app2 by lia.
      replace (length (deref h c0) + list_sum (firstn k (chunk_lengths h rest))
               + j - length (deref h c0))%nat
        with (list_sum (firstn k (chunk_lengths h rest)) + j)%nat by lia.
      now apply IH.
Qed.

End MergeChunks.

(** C4. [mergeChunks] always returns; the array it returns is new, holds the
    chunks one after the other (sample [j] of chunk [k] at the offset of chunk
    [k] plus [j]) and has the sum of their lengths; every array that existed
    before the call is unchanged; no chunks give an empty array; and
    [1, -1, 0.5] merged with [0.25] is [1, -1, 0.5, 0.25]. *)
Theorem mergeChunks_concatenates :
  (forall (h : heap) (chunks : list ref),
     exists (h' : heap) (merged : ref),
       Audio.mergeChunks h chunks = Ok (h', merged)
       /\ deref h' merged = concat (map (deref h) chunks)
       /\ length (deref h' merged) = list_sum (chunk_lengths h chunks)
       /\ (forall k j c,
             nth_error chunks k = Some c ->
             (j < length (deref h c))%nat ->
             nth_error (deref h' merged) (chunk_offset h chunks k + j)
             = nth_error (deref h c) j)
       /\ (forall r, valid h r -> deref h' r = deref h r)
       /\ ~ valid h merged)
  /\ (forall h : heap,
        exists h' merged,
          Audio.mergeChunks h [] = Ok (h', merged) /\ deref h' merged = [])
  /\ (exists h' merged,
        Audio.mergeChunks [[1; -1; 1 # 2]; [1 # 4]]%Q [0; 1]%nat
        = Ok (h', merged)
        /\ deref h' merged = [1; -1; 1 # 2; 1 # 4]%Q).
Proof.
  split; [|split].
  - intros h chunks.
    exists (h ++ [concat (map (deref h) chunks)]), (length h).
    rewrite deref_app_new.
    split; [apply mergeChunks_eq|].
    split; [reflexivity|].
    split; [apply length_concat_chunks|].
    split; [apply concat_chunks_nth|].
    split; [intros r Hr; now apply deref_app_old|].
    unfold valid. lia.
  - intros h. exists (h ++ [[]]), (length h).
    split; [apply mergeChunks_eq|apply deref_app_new].
  - eexists _, _. split; reflexivity.
Qed.

(** ** [pcmS16LEtoFloat32] *)

Section Pcm.

Import Audio.






(** Once the view exists the conversion cannot fail: cell [i] receives
    [int16[i] / 32768]. *)
Lemma pcmS16LEtoFloat32_view (h : heap) (uint8 : Uint8Array) (int16 : list Z) :
  Int16Array_view uint8 = Ok int16 ->
  pcmS16LEtoFloat32 h uint8 = Ok (h ++ [map pcm_sample int16], length h).
Proof.
  intros Hview. unfold pcmS16LEtoFloat32. rewrite Hview. cbn [bind].
  rewrite (for_loop_fill0 _ (fun i => pcm_sample (nth i int16 0%Z)))
    by reflexivity.
  cbn [bind]. now rewrite map_nth_seq.
Qed.

(** A window at an odd byte offset cannot be viewed as 16-bit elements: the
    conversion throws before it allocates. *)
Lemma pcmS16LEtoFloat32_misaligned (h : heap) (uint8 : Uint8Array) :
  Nat.odd (byteOffset uint8) = true ->
  pcmS16LEtoFloat32 h uint8 = Throw RangeError.
Proof.
  intros Hodd. unfold pcmS16LEtoFloat32, Int16Array_view.
  now rewrite Hodd.
Qed.

Lemma pcm_sample_in_range (s : Z) : is_int16 s -> in_range (pcm_sample s).
Proof.
  unfold is_int16, in_range, pcm_sample, Qle. cbn. lia.
Qed.

End Pcm.



(** ** [BrowserAudioCapture.resample] *)

Section Resample.

Import Audio.

Lemma load_at_nth (a : list Q) (i : Z) :
  (0 <= i < Z.of_nat (length a))%Z ->
  load_at a i = Some (nth (Z.to_nat i) a 0).
Proof.
  intros [Hlo Hhi]. unfold load_at.
  destruct (Z.ltb_spec i 0) as [Hneg|_]; [lia|].
  apply nth_error_nth'. lia.
Qed.

Lemma Math_round_nonneg (x : Q) : 0 <= x -> (0 <= Math_round x)%Z.
Proof.
  intros Hx. unfold Math_round.
  change 0%Z with (Qfloor 0). apply Qfloor_resp_le. lra.
Qed.

Lemma Math_round_Z (z : Z) : Math_round (inject_Z z) = z.
Proof.
  unfold Math_round.
  apply Z.le_antisymm.
  - assert (H : inject_Z (Qfloor (inject_Z z + (1 # 2))) < inject_Z (z + 1)).
    { eapply Qle_lt_trans; [apply Qfloor_le|].
      rewrite inject_Z_plus. change (inject_Z 1) with 1. lra. }
    rewrite <- Zlt_Qlt in H. lia.
  - rewrite <- (Qfloor_Z z) at 1. apply Qfloor_resp_le. lra.
Qed.

Variable native : Q.
Hypothesis native_pos : 0 < native.

Lemma ratio_pos : 0 < 16000 / native.
Proof.
  apply Qlt_shift_div_l; [exact native_pos|]. lra.
Qed.

Lemma srcIdx_nonneg (i : nat) : 0 <= inject_Z (Z.of_nat i) / (16000 / native).
Proof.
  apply Qle_shift_div_l; [exact ratio_pos|].
  assert (H : inject_Z 0 <= inject_Z (Z.of_nat i)) by (rewrite <- Zle_Qle; lia).
  change (inject_Z 0) with 0 in H. lra.
Qed.

(** Every output index has its source position strictly inside the input. *)
Lemma srcIdx_lt_length (n i : nat) :
  (i < Z.to_nat (Math_round (inject_Z (Z.of_nat n) * (16000 / native))))%nat ->
  inject_Z (Z.of_nat i) / (16000 / native) < inject_Z (Z.of_nat n).
Proof.
  intros Hi.
  pose proof ratio_pos as Hr.
  apply Qlt_shift_div_r; [exact Hr|].
  unfold Math_round in Hi.
  set (x := inject_Z (Z.of_nat n) * (16000 / native)) in *.
  assert (H1 : (Z.of_nat i + 1 <= Qfloor (x + (1 # 2)))%Z) by lia.
  rewrite Zle_Qle in H1.
  pose proof (Qfloor_le (x + (1 # 2))) as H2.
  rewrite inject_Z_plus in H1. change (inject_Z 1) with 1 in H1.
  lra.
Qed.

Lemma lo_in_bounds (n i : nat) :
  (i < Z.to_nat (Math_round (inject_Z (Z.of_nat n) * (16000 / native))))%nat ->
  (0 <= Qfloor (inject_Z (Z.of_nat i) / (16000 / native)) < Z.of_nat n)%Z.
Proof.
  intros Hi. split.
  - change 0%Z with (Qfloor 0). apply Qfloor_resp_le, srcIdx_nonneg.
  - rewrite Zlt_Qlt.
    eapply Qle_lt_trans; [apply Qfloor_le|].
    now apply srcIdx_lt_length.
Qed.

Lemma frac_bounds (x : Q) : 0 <= x - inject_Z (Qfloor x) < 1.
Proof.
  pose proof (Qfloor_le x) as H1.
  pose proof (Qlt_floor x) as H2.
  rewrite inject_Z_plus in H2. change (inject_Z 1) with 1 in H2.
  split; lra.
Qed.

End Resample.

Section ResampleRun.

Import Audio.

Variable this : Browser.t.
Variable h : heap.
Variable raw : ref.

Hypothesis native_pos : 0 < Browser.nativeSampleRate this.

Lemma Math_round_comp (x y : Q) : x == y -> Math_round x = Math_round y.
Proof.
  intros Hxy. unfold Math_round. apply Qfloor_comp. now rewrite Hxy.
Qed.

Lemma outLen_nonneg (n : nat) :
  (0 <= Math_round (inject_Z (Z.of_nat n)
                    * (16000 / Browser.nativeSampleRate this)))%Z.
Proof.
  apply Math_round_nonneg.
  apply Qmult_le_0_compat.
  - change 0 with (inject_Z 0). rewrite <- Zle_Qle. lia.
  - apply Qlt_le_weak, ratio_pos, native_pos.
Qed.

(** The interpolating path: no read leaves the input, and cell [i] of the
    output receives the interpolation at [i]. *)
Lemma resample_interpolating :
  Qeq_bool (Browser.nativeSampleRate this) 16000 = false ->
  Browser.resample this h raw
  = Ok (h ++ [map (interpolation (deref h raw) (Browser.nativeSampleRate this))
                  (seq 0 (Z.to_nat
                            (Math_round
                               (inject_Z (Z.of_nat (length (deref h raw)))
                                * (16000 / Browser.nativeSampleRate this)))))],
        length h).
Proof.
  intros Hne. unfold Browser.resample. rewrite Hne.
  set (x := deref h raw).
  set (native := Browser.nativeSampleRate this) in *.
  destruct (Z.ltb_spec
              (Math_round (inject_Z (Z.of_nat (length x)) * (16000 / native)))
              0) as [Hneg|_].
  { pose proof (outLen_nonneg (length x)). fold native in H. lia. }
  rewrite (for_loop_fill0 _ (interpolation x native)); [reflexivity|].
  intros i a Hi.
  pose proof (@lo_in_bounds native native_pos (length x) i Hi) as Hlo.
  cbv zeta in Hlo. fold native in Hlo.
  rewrite (load_at_nth x Hlo).
  rewrite (@load_at_nth x (Z.min _ _)) by lia.
  reflexivity.
Qed.

(** The copying path. *)
Lemma resample_copying :
  Qeq_bool (Browser.nativeSampleRate this) 16000 = true ->
  Browser.resample this h raw = Ok (h ++ [deref h raw], length h).
Proof.
  intros Heq. unfold Browser.resample. now rewrite Heq.
Qed.

Lemma copy_is_interpolation (x : list Q) (i : nat) :
  Browser.nativeSampleRate this == 16000 ->
  nth i x 0 == interpolation x (Browser.nativeSampleRate this) i.
Proof.
  intros Heq. unfold interpolation.
  assert (Hsrc : inject_Z (Z.of_nat i) / (16000 / Browser.nativeSampleRate this)
                 == inject_Z (Z.of_nat i)).
  { rewrite Heq. field. }
  rewrite (Qfloor_comp _ _ Hsrc), Qfloor_Z, Nat2Z.id, Hsrc.
  ring.
Qed.

Lemma copy_length (n : nat) :
  Browser.nativeSampleRate this == 16000 ->
  Math_round (inject_Z (Z.of_nat n) * (16000 / Browser.nativeSampleRate this))
  = Z.of_nat n.
Proof.
  intros Heq. rewrite <- Math_round_Z. apply Math_round_comp.
  rewrite Heq. field.
Qed.

(** Both paths at once. *)
Lemma resample_samples :
  exists out : list Q,
    Browser.resample this h raw = Ok (h ++ [out], length h)
    /\ Z.of_nat (length out)
       = Math_round (inject_Z (Z.of_nat (length (deref h raw)))
                     * (16000 / Browser.nativeSampleRate this))
    /\ forall i, (i < length out)%nat ->
         nth i out 0
         == interpolation (deref h raw) (Browser.nativeSampleRate this) i.
Proof.
  destruct (Qeq_bool (Browser.nativeSampleRate this) 16000) eqn:E.
  - exists (deref h raw).
    pose proof (Qeq_bool_eq _ _ E) as Heq.
    split; [now apply resample_copying|].
    split; [now rewrite copy_length|].
    intros i _. now apply copy_is_interpolation.
  - eexists. split; [now apply resample_interpolating|].
    rewrite length_map, length_seq.
    split; [apply Z2Nat.id, outLen_nonneg|].
    intros i Hi.
    rewrite (nth_indep _ 0 (interpolation (deref h raw)
                                          (Browser.nativeSampleRate this) 0%nat))
      by (now rewrite length_map, length_seq).
    rewrite (map_nth (interpolation (deref h raw)
                                    (Browser.nativeSampleRate this))).
    rewrite seq_nth by exact Hi. reflexivity.
Qed.

End ResampleRun.

(** C7. At a native rate of 16000 Hz [resample] returns a new array with
    exactly the samples of its input, whatever its length; the arrays that
    existed before, the input among them, are unchanged and the result is
    none of them. *)
Theorem resample_identity :
  forall (this : Audio.Browser.t) (h : heap) (raw : ref),
    Audio.Browser.nativeSampleRate this == 16000 ->
    exists (h' : heap) (out : ref),
      Audio.Browser.resample this h raw = Ok (h', out)
      /\ deref h' out = deref h raw
      /\ (length (deref h raw) = 0%nat -> deref h' out = [])
      /\ ~ valid h out
      /\ (valid h raw -> out <> raw)
      /\ (forall r, valid h r -> deref h' r = deref h r).
Proof.
  intros this h raw Heq.
  exists (h ++ [deref h raw]), (length h).
  rewrite deref_app_new.
  split; [apply resample_copying, Qeq_eq_bool, Heq|].
  split; [reflexivity|].
  split; [now intros ->%length_zero_iff_nil|].
  unfold valid.
  split; [lia|]. split; [lia|].
  intros r Hr. now apply deref_app_old.
Qed.

(** ** [resample] in binary64 and binary32 *)

Section Binary.

Lemma set_app (pre t : list IEEE.float32) (x : IEEE.float32)
    (v : IEEE.Number) :
  IEEE.set (pre ++ x :: t) (length pre) v = pre ++ IEEE.fround v :: t.
Proof.
  induction pre as [|p pre IH]; simpl; [reflexivity|].
  now rewrite IH.
Qed.

(** The loop of [resample] writes cell [i] once, with the rounded value of
    its right-hand side. *)
Lemma for_loop_set (f : nat -> IEEE.Number) :
  forall (count start : nat) (pre : list IEEE.float32),
    length pre = start ->
    for_loop start count (fun i out => Ok (IEEE.set out i (f i)))
             (pre ++ repeat (S754_zero false) count)
    = Ok (pre ++ map (fun i => IEEE.fround (f i)) (seq start count)).
Proof.
  induction count as [|c IH]; intros start pre Hlen.
  - reflexivity.
  - cbn [for_loop repeat seq map]. subst start.
    rewrite set_app. cbn [bind].
    replace (pre ++ IEEE.fround (f (length pre)) :: repeat (S754_zero false) c)
      with ((pre ++ [IEEE.fround (f (length pre))])
              ++ repeat (S754_zero false) c)
      by (rewrite <- app_assoc; reflexivity).
    rewrite IH by (rewrite length_app; simpl; lia).
    now rewrite <- app_assoc.
Qed.

(** Rounding keeps the sign it is given. *)
Lemma binary_round_aux_sign (prec emax : Z) (sx : bool) (mx ex : Z)
    (lx : location) :
  match binary_round_aux prec emax sx mx ex lx with
  | S754_zero s | S754_infinity s | S754_finite s _ _ => s = sx
  | S754_nan => True
  end.
Proof.
  unfold binary_round_aux.
  destruct (shr_fexp prec emax mx ex lx) as [mrs e].
  destruct (shr_fexp prec emax _ e loc_Exact) as [mrs' e'].
  destruct (shr_m mrs'); [reflexivity| |exact I].
  now destruct (e' <=? emax - prec)%Z.
Qed.

Lemma binary_round_sign (prec emax : Z) (sx : bool) (mx : positive) (ex : Z) :
  match binary_round prec emax sx mx ex with
  | S754_zero s | S754_infinity s | S754_finite s _ _ => s = sx
  | S754_nan => True
  end.
Proof.
  unfold binary_round. destruct (shl_align _ _ _) as [mz ez].
  apply binary_round_aux_sign.
Qed.

Lemma of_Z_not_negative (z : Z) :
  (0 <= z)%Z -> IEEE.not_negative (IEEE.of_Z z) = true.
Proof.
  intros Hz. unfold IEEE.of_Z, binary_normalize.
  destruct z as [|p|p]; [reflexivity| |lia].
  pose proof (binary_round_sign 53 1024 false p 0) as Hs.
  destruct (binary_round 53 1024 false p 0); cbn; try reflexivity;
    now rewrite Hs.
Qed.

Lemma div_not_negative (x y : IEEE.Number) :
  IEEE.not_negative x = true -> IEEE.not_negative y = true ->
  IEEE.not_negative (IEEE.div x y) = true.
Proof.
  unfold IEEE.div.
  destruct x as [sx|sx| |sx mx ex], y as [sy|sy| |sy my ey]; cbn;
    intros Hx Hy; try reflexivity;
    apply negb_true_iff in Hx; apply negb_true_iff in Hy; subst;
    try reflexivity.
  destruct (SFdiv_core_binary 53 1024 (Z.pos mx) ex (Z.pos my) ey)
    as [[mz ez] lz].
  pose proof (binary_round_aux_sign 53 1024 (xorb false false) mz ez lz) as Hs.
  destruct (binary_round_aux 53 1024 (xorb false false) mz ez lz); cbn;
    try reflexivity; now rewrite Hs.
Qed.

Lemma mul_not_negative (x y : IEEE.Number) :
  IEEE.not_negative x = true -> IEEE.not_negative y = true ->
  IEEE.not_negative (IEEE.mul x y) = true.
Proof.
  unfold IEEE.mul.
  destruct x as [sx|sx| |sx mx ex], y as [sy|sy| |sy my ey]; cbn;
    intros Hx Hy; try reflexivity;
    apply negb_true_iff in Hx; apply negb_true_iff in Hy; subst;
    try reflexivity.
  pose proof (binary_round_aux_sign 53 1024 (xorb false false)
                (Z.pos (mx * my)) (ex + ey) loc_Exact) as Hs.
  destruct (binary_round_aux 53 1024 (xorb false false)
              (Z.pos (mx * my)) (ex + ey) loc_Exact); cbn;
    try reflexivity; now rewrite Hs.
Qed.

Lemma Math_round_not_negative (x : IEEE.Number) :
  IEEE.not_negative x = true -> IEEE.not_negative (IEEE.Math_round x) = true.
Proof.
  destruct x as [s|s| |s m e]; cbn [IEEE.Math_round]; try easy.
  intros Hs. destruct (0 <=? e)%Z; [exact Hs|].
  cbn in Hs. apply negb_true_iff in Hs. subst s.
  cbv zeta. destruct (Z.eqb_spec (Z.shiftr (2 * IEEE.signed false m + 2 ^ (- e)) (1 - e)) 0);
    [reflexivity|].
  apply of_Z_not_negative, Z.shiftr_nonneg.
  unfold IEEE.signed, cond_Zopp.
  pose proof (Z.pow_nonneg 2 (- e)). lia.
Qed.

(** A length that is not negative as a Number is not negative as an
    integer. *)
Lemma ToIntegerOrInfinity_not_negative (x : IEEE.Number) :
  IEEE.not_negative x = true ->
  match IEEE.ToIntegerOrInfinity x with
  | IEEE.Integer n => (0 <= n)%Z
  | IEEE.PlusInfinity => True
  | IEEE.MinusInfinity => False
  end.
Proof.
  destruct x as [s|s| |s m e]; cbn; try easy.
  - intros Hs. apply negb_true_iff in Hs. now subst s.
  - intros Hs. apply negb_true_iff in Hs. subst s.
    unfold IEEE.signed, cond_Zopp.
    destruct (Z.leb_spec 0 e) as [He|He].
    + pose proof (Z.pow_nonneg 2 e). nia.
    + apply Z.quot_pos; [lia|]. apply Z.pow_pos_nonneg; lia.
Qed.

Lemma outLen_not_negative (native : IEEE.Number) (n : nat) :
  IEEE.positive_finite native = true ->
  IEEE.not_negative
    (IEEE.Math_round
       (IEEE.mul (IEEE.of_Z (Z.of_nat n))
                 (IEEE.div (IEEE.of_Z 16000) native))) = true.
Proof.
  intros Hpos.
  apply Math_round_not_negative, mul_not_negative.
  - apply of_Z_not_negative. lia.
  - apply div_not_negative; [apply of_Z_not_negative; lia|].
    destruct native as [s|s| |[|] m e]; try discriminate. reflexivity.
Qed.

(** Once the output array exists, [resample] returns it filled. *)
Lemma resample_fills (maxLength : N) (native : IEEE.Number)
    (raw : list IEEE.float32) (n : nat) :
  IEEE.strict_eq native (IEEE.of_Z 16000) = false ->
  let len := IEEE.of_Z (Z.of_nat (length raw)) in
  let ratio := IEEE.div (IEEE.of_Z 16000) native in
  IEEE.new_Float32Array maxLength (IEEE.Math_round (IEEE.mul len ratio))
  = Ok (repeat (S754_zero false) n) ->
  IEEE.resample maxLength native raw
  = Ok (map (fun i =>
               let srcIdx := IEEE.div (IEEE.of_Z (Z.of_nat i)) ratio in
               let lo := IEEE.Math_floor srcIdx in
               let hi := IEEE.Math_min (IEEE.add lo (IEEE.of_Z 1))
                                       (IEEE.sub len (IEEE.of_Z 1)) in
               let frac := IEEE.sub srcIdx lo in
               IEEE.fround
                 (IEEE.add
                    (IEEE.mul (IEEE.get raw lo) (IEEE.sub (IEEE.of_Z 1) frac))
                    (IEEE.mul (IEEE.get raw hi) frac)))
            (seq 0 n)).
Proof.
  intros Hne len ratio Hnew.
  unfold IEEE.resample. rewrite Hne. fold len ratio. rewrite Hnew.
  cbn [bind]. rewrite repeat_length.
  exact (@for_loop_set _ n 0%nat [] eq_refl).
Qed.

End Binary.

(** C1, as the code computes it.  With [ratio] the binary64 quotient
    [16000 / native] and [outLen] the binary64 product [len * ratio] rounded
    by [Math.round]: when [outLen] is an integer no larger than the longest
    array the engine creates, [resample] returns [outLen] samples and sample
    [i] is the binary32 rounding of [raw[lo] * (1 - frac) + raw[hi] * frac]
    evaluated in binary64, with [srcIdx = i / ratio], [lo = floor(srcIdx)],
    [hi = min(lo + 1, len - 1)] and [frac = srcIdx - lo], a read outside
    [raw] counting as NaN; otherwise it throws a [RangeError].  For a positive
    rate [outLen] is never negative, so only a length that is too large
    makes the method throw.  At 16000 Hz the samples are returned as they
    are, an empty input gives an empty output at every rate, and [1, 0] at
    8000 Hz gives [1, 0.5, 0, 0]. *)
Theorem resample_interpolates_in_binary64 :
  (forall (maxLength : N) (native : IEEE.Number) (raw : list IEEE.float32),
     IEEE.strict_eq native (IEEE.of_Z 16000) = false ->
     let len := IEEE.of_Z (Z.of_nat (length raw)) in
     let ratio := IEEE.div (IEEE.of_Z 16000) native in
     let outLen := IEEE.Math_round (IEEE.mul len ratio) in
     match IEEE.ToIntegerOrInfinity outLen with
     | IEEE.Integer n =>
         if ((0 <=? n) && (n <=? 2 ^ 53 - 1) && (n <=? Z.of_N maxLength))%Z
         then
           exists out : list IEEE.float32,
             IEEE.resample maxLength native raw = Ok out
             /\ Z.of_nat (length out) = n
             /\ forall i : nat,
                  (i < length out)%nat ->
                  let srcIdx := IEEE.div (IEEE.of_Z (Z.of_nat i)) ratio in
                  let lo := IEEE.Math_floor srcIdx in
                  let hi := IEEE.Math_min (IEEE.add lo (IEEE.of_Z 1))
                                          (IEEE.sub len (IEEE.of_Z 1)) in
                  let frac := IEEE.sub srcIdx lo in
                  nth_error out i
                  = Some (IEEE.fround
                            (IEEE.add
                               (IEEE.mul (IEEE.get raw lo)
                                         (IEEE.sub (IEEE.of_Z 1) frac))
                               (IEEE.mul (IEEE.get raw hi) frac)))
         else IEEE.resample maxLength native raw = Throw RangeError
     | _ => IEEE.resample maxLength native raw = Throw RangeError
     end)
  /\ (forall (native : IEEE.Number) (raw : list IEEE.float32),
        IEEE.positive_finite native = true ->
        match IEEE.ToIntegerOrInfinity
                (IEEE.Math_round
                   (IEEE.mul (IEEE.of_Z (Z.of_nat (length raw)))
                             (IEEE.div (IEEE.of_Z 16000) native))) with
        | IEEE.Integer n => (0 <= n)%Z
        | IEEE.PlusInfinity => True
        | IEEE.MinusInfinity => False
        end)
  /\ (forall (maxLength : N) (raw : list IEEE.float32),
        IEEE.resample maxLength (IEEE.of_Z 16000) raw = Ok raw)
  /\ (forall (maxLength : N) (native : IEEE.Number),
        IEEE.resample maxLength native [] = Ok [])
  /\ (exists out : list IEEE.float32,
        IEEE.resample 4294967295 (IEEE.of_Z 8000)
          [IEEE.fround (IEEE.of_Z 1); IEEE.fround (IEEE.of_Z 0)]
        = Ok out
        /\ map IEEE.value out = [Some 1; Some (1 # 2); Some 0; Some 0]).
Proof.
  split; [|split; [|split; [|split]]].
  - intros maxLength native raw Hne len ratio outLen.
    destruct (IEEE.ToIntegerOrInfinity outLen) as [n| |] eqn:HT.
    + destruct ((0 <=? n) && (n <=? 2 ^ 53 - 1) && (n <=? Z.of_N maxLength))%Z
        eqn:Hc.
      * apply andb_true_iff in Hc. destruct Hc as [Hc Hmax].
        apply andb_true_iff in Hc. destruct Hc as [H0 H53].
        apply Z.leb_le in H0, H53, Hmax.
        assert (Hnew : IEEE.new_Float32Array maxLength outLen
                       = Ok (repeat (S754_zero false) (Z.to_nat n))).
        { unfold IEEE.new_Float32Array. rewrite HT.
          destruct (Z.ltb_spec n 0); [lia|].
          destruct (Z.ltb_spec (2 ^ 53 - 1) n); [lia|].
          destruct (Z.ltb_spec (Z.of_N maxLength) n); [lia|]. reflexivity. }
        rewrite (@resample_fills maxLength native raw (Z.to_nat n) Hne Hnew).
        eexists. split; [reflexivity|].
        rewrite length_map, length_seq.
        split; [now apply Z2Nat.id|].
        intros i Hi. rewrite nth_error_map, nth_error_seq.
        destruct (Nat.ltb_spec i (Z.to_nat n)) as [_|Hge]; [reflexivity|lia].
      * unfold IEEE.resample. rewrite Hne. fold len ratio outLen.
        unfold IEEE.new_Float32Array. rewrite HT.
        destruct (Z.ltb_spec n 0) as [|H0]; [reflexivity|].
        destruct (Z.ltb_spec (2 ^ 53 - 1) n) as [|H53]; [reflexivity|].
        destruct (Z.ltb_spec (Z.of_N maxLength) n) as [|Hmax]; [reflexivity|].
        apply Z.leb_le in H0, H53, Hmax. now rewrite H0, H53, Hmax in Hc.
    + unfold IEEE.resample. rewrite Hne. fold len ratio outLen.
      unfold IEEE.new_Float32Array. now rewrite HT.
    + unfold IEEE.resample. rewrite Hne. fold len ratio outLen.
      unfold IEEE.new_Float32Array. now rewrite HT.
  - intros native raw Hpos.
    apply ToIntegerOrInfinity_not_negative, outLen_not_negative, Hpos.
  - intros maxLength raw. reflexivity.
  - intros maxLength native. unfold IEEE.resample.
    destruct (IEEE.strict_eq native (IEEE.of_Z 16000)); [reflexivity|].
    change (IEEE.of_Z (Z.of_nat (length (@nil IEEE.float32))))
      with (S754_zero false).
    assert (Hlen : forall r : IEEE.Number,
               IEEE.new_Float32Array maxLength
                 (IEEE.Math_round (IEEE.mul (S754_zero false) r))
               = Ok []).
    { intros [s|s| |s m e]; unfold IEEE.new_Float32Array; cbn;
        destruct (Z.ltb_spec (Z.of_N maxLength) 0); try reflexivity; lia. }
    now rewrite Hlen.
  - eexists. split; vm_compute; reflexivity.
Qed.

(** The resampler does not compute in exact arithmetic.  Nineteen samples at
    4864 Hz give 62 samples although [19 * 16000 / 4864 = 62.5] rounds to 63,
    because the binary64 product is [62.49999999999999]; at 44100 Hz
    sample 1 of [0, 1, 0, -1, 0, 1] is the binary32 neighbour of the
    interpolated value [-121/160], not that value; and at the positive rate
    [2^-1000] one sample asks for an array of [16000 * 2^1000] elements,
    which no engine creates: the method throws. *)
Lemma resample_rounds_in_binary64 :
  (exists out : list IEEE.float32,
     IEEE.resample 4294967295 (IEEE.of_Z 4864) (repeat (S754_zero false) 19)
     = Ok out
     /\ length out = 62%nat
     /\ Z.to_nat (Audio.Math_round (inject_Z 19 * (16000 / 4864))) = 63%nat)
  /\ (exists y : IEEE.float32,
        IEEE.resample 4294967295 (IEEE.of_Z 44100)
          (map (fun z => IEEE.fround (IEEE.of_Z z)) [0; 1; 0; -1; 0; 1]%Z)
        = Ok [S754_zero false; y]
        /\ IEEE.value y = Some (-6343885 # 8388608)
        /\ interpolation [0; 1; 0; -1; 0; 1] 44100 1 == -121 # 160
        /\ ~ -6343885 # 8388608 == -121 # 160)
  /\ (IEEE.positive_finite (S754_finite false 4503599627370496 (-1052)) = true
      /\ valid_binary 53 1024 (S754_finite false 4503599627370496 (-1052))
         = true
      /\ forall maxLength : N,
           IEEE.resample maxLength
             (S754_finite false 4503599627370496 (-1052))
             [IEEE.fround (IEEE.of_Z 1)]
           = Throw RangeError).
Proof.
  split; [|split].
  - eexists. split; [vm_compute; reflexivity|]. split; reflexivity.
  - eexists. split; [vm_compute; reflexivity|].
    split; [reflexivity|]. split; [reflexivity|]. discriminate.
  - split; [reflexivity|]. split; [reflexivity|].
    intros maxLength.
    assert (HT : IEEE.ToIntegerOrInfinity
                   (IEEE.Math_round
                      (IEEE.mul (IEEE.of_Z 1)
                         (IEEE.div (IEEE.of_Z 16000)
                            (S754_finite false 4503599627370496 (-1052)))))
                 = IEEE.Integer (16000 * 2 ^ 1000))
      by (vm_compute; reflexivity).
    assert (Hlong : forall b : bool,
               ((16000 * 2 ^ 1000 <? 0) || (2 ^ 53 - 1 <? 16000 * 2 ^ 1000)
                || b)%Z = true)
      by (intros b; vm_compute; reflexivity).
    unfold IEEE.resample.
    replace (IEEE.strict_eq (S754_finite false 4503599627370496 (-1052))
                            (IEEE.of_Z 16000))
      with false by (vm_compute; reflexivity).
    cbv zeta. unfold IEEE.new_Float32Array.
    change (Z.of_nat (length [IEEE.fround (IEEE.of_Z 1)])) with 1%Z.
    now rewrite HT, Hlong.
Qed.

(** ** Sample ranges *)

Section Ranges.

Import Audio.

Lemma in_range_Qeq (x y : Q) : x == y -> in_range y -> in_range x.
Proof. unfold in_range. intros ->. trivial. Qed.

(** A weighted mean of two samples of the range is in the range. *)
Lemma in_range_mix (a b f : Q) :
  in_range a -> in_range b -> 0 <= f <= 1 ->
  in_range (a * (1 - f) + b * f).
Proof.
  unfold in_range. intros [Ha1 Ha2] [Hb1 Hb2] [Hf1 Hf2].
  assert (Hg : 0 <= 1 - f) by lra.
  pose proof (Qmult_le_compat_r _ _ _ Ha1 Hg) as H1.
  pose proof (Qmult_le_compat_r _ _ _ Ha2 Hg) as H2.
  pose proof (Qmult_le_compat_r _ _ _ Hb1 Hf1) as H3.
  pose proof (Qmult_le_compat_r _ _ _ Hb2 Hf1) as H4.
  split; lra.
Qed.

Lemma byte_at_range (buf : list byte) (pos : nat) :
  (0 <= byte_at buf pos <= 255)%Z.
Proof.
  unfold byte_at. pose proof (Byte.to_N_bounded (nth pos buf x00)). lia.
Qed.

Lemma int16_at_range (buf : list byte) (pos : nat) :
  is_int16 (int16_at buf pos).
Proof.
  unfold is_int16, int16_at.
  pose proof (byte_at_range buf pos).
  pose proof (byte_at_range buf (pos + 1)).
  destruct (Z.ltb_spec (byte_at buf pos + 256 * byte_at buf (pos + 1)) 32768);
    lia.
Qed.

Lemma Int16Array_view_range (uint8 : Uint8Array) (int16 : list Z) :
  Int16Array_view uint8 = Ok int16 -> Forall is_int16 int16.
Proof.
  unfold Int16Array_view.
  destruct (Nat.odd (byteOffset uint8)); [discriminate|].
  destruct (_ <? _)%nat; [discriminate|].
  intros [= <-]. apply Forall_map, Forall_forall.
  intros k _. apply int16_at_range.
Qed.

(** Whatever bytes arrive, a conversion that returns has allocated one new
    array of samples of the range. *)
Lemma pcmS16LEtoFloat32_range (h h' : heap) (uint8 : Uint8Array) (r : ref) :
  pcmS16LEtoFloat32 h uint8 = Ok (h', r) ->
  exists a, h' = h ++ [a] /\ r = length h /\ Forall in_range a.
Proof.
  destruct (Int16Array_view uint8) as [int16|e] eqn:Hview.
  - rewrite (pcmS16LEtoFloat32_view h _ Hview). intros [= <- <-].
    eexists. split; [reflexivity|]. split; [reflexivity|].
    apply Forall_map.
    eapply Forall_impl; [|exact (Int16Array_view_range _ Hview)].
    intros s Hs. now apply pcm_sample_in_range.
  - unfold pcmS16LEtoFloat32. rewrite Hview. discriminate.
Qed.

Lemma sound_grow (h : heap) (a : list Q) (chunks : list ref) :
  sound h chunks -> sound (h ++ [a]) chunks.
Proof.
  unfold sound. apply Forall_impl. intros c [Hv Hr].
  rewrite deref_app_old by exact Hv.
  split; [|exact Hr]. unfold valid in *. rewrite length_app. simpl. lia.
Qed.

Lemma sound_push (h : heap) (a : list Q) (chunks : list ref) :
  sound h chunks -> Forall in_range a ->
  sound (h ++ [a]) (chunks ++ [length h]).
Proof.
  intros Hs Ha. apply Forall_app. split; [now apply sound_grow|].
  constructor; [|constructor].
  rewrite deref_app_new. split; [|exact Ha].
  unfold valid. rewrite length_app. simpl. lia.
Qed.

Lemma sound_concat (h : heap) (chunks : list ref) :
  sound h chunks -> Forall in_range (concat (map (deref h) chunks)).
Proof.
  induction 1 as [|c rest [_ Hc] _ IH]; simpl.
  - constructor.
  - apply Forall_app. now split.
Qed.

(** Interpolating samples of the range stays in the range. *)
Lemma resample_in_range (this : Browser.t) (h : heap) (raw : ref) :
  0 < Browser.nativeSampleRate this ->
  Forall in_range (deref h raw) ->
  exists out,
    Browser.resample this h raw = Ok (h ++ [out], length h)
    /\ Forall in_range out.
Proof.
  intros Hpos Hraw.
  destruct (@resample_samples this h raw Hpos) as (out & Hrun & Hlen & Hnth).
  exists out. split; [exact Hrun|].
  apply Forall_forall. intros y Hy.
  destruct (In_nth _ _ 0 Hy) as (i & Hi & <-).
  apply (in_range_Qeq (Hnth i Hi)).
  assert (Hi' : (i < Z.to_nat
                   (Math_round
                      (inject_Z (Z.of_nat (length (deref h raw)))
                       * (16000 / Browser.nativeSampleRate this))))%nat)
    by (rewrite <- Hlen, Nat2Z.id; exact Hi).
  pose proof (@lo_in_bounds _ Hpos _ i Hi') as Hlo. cbv zeta in Hlo.
  rewrite Forall_forall in Hraw.
  unfold interpolation.
  apply in_range_mix.
  - apply Hraw, nth_In. lia.
  - apply Hraw, nth_In. lia.
  - pose proof (frac_bounds
                  (inject_Z (Z.of_nat i)
                   / (16000 / Browser.nativeSampleRate this))).
    lra.
Qed.

End Ranges.

(** ** The capture backends *)

Section GlassesFacts.

Import Audio.

Lemma glasses_listener_sound (h h' : heap) (this this' : Glasses.t)
    (event : EvenHubEvent) :
  sound h (Glasses.chunks this) ->
  Glasses.listener h this event = Ok (h', this') ->
  sound h' (Glasses.chunks this').
Proof.
  intros Hs. unfold Glasses.listener.
  destruct (audioEvent event) as [audioPcm|]; [|now intros [= <- <-]].
  destruct (Glasses.recording this); [|now intros [= <- <-]].
  destruct (pcmS16LEtoFloat32 h audioPcm) as [[h1 r]|e] eqn:Hpcm;
    [|discriminate].
  cbn [bind fst snd]. intros [= <- <-]. cbn [Glasses.chunks].
  destruct (pcmS16LEtoFloat32_range _ _ Hpcm) as (a & -> & -> & Ha).
  now apply sound_push.
Qed.

Lemma glasses_dispatch_sound (ls : list nat) (event : EvenHubEvent) :
  forall (h : heap) (this : Glasses.t),
    sound h (Glasses.chunks this) ->
    sound (fst (Glasses.dispatch ls h this event))
          (Glasses.chunks (snd (Glasses.dispatch ls h this event))).
Proof.
  induction ls as [|l rest IH]; intros h this Hs; simpl; [exact Hs|].
  destruct (Glasses.listener h this event) as [[h' this']|e] eqn:Hl.
  - apply IH. eapply glasses_listener_sound; eassumption.
  - now apply IH.
Qed.

Lemma glasses_step_sound (st : heap * Glasses.t) (o : Glasses.op) :
  sound (fst st) (Glasses.chunks (snd st)) ->
  sound (fst (Glasses.step st o)) (Glasses.chunks (snd (Glasses.step st o))).
Proof.
  destruct st as [h this]. cbn [fst snd]. intros Hs.
  destruct o as [|event| |]; cbn [Glasses.step].
  - unfold Glasses.start. destruct (bridge_onEvenHubEvent _). constructor.
  - now apply glasses_dispatch_sound.
  - unfold Glasses.getAudio. rewrite mergeChunks_eq. cbn.
    now apply sound_grow.
  - unfold Glasses.stop. cbn [Glasses.chunks]. rewrite mergeChunks_eq. cbn.
    now apply sound_grow.
Qed.

Lemma glasses_run_sound (ops : list Glasses.op) :
  forall st : heap * Glasses.t,
    sound (fst st) (Glasses.chunks (snd st)) ->
    sound (fst (Glasses.run st ops)) (Glasses.chunks (snd (Glasses.run st ops))).
Proof.
  induction ops as [|o rest IH]; intros st Hs; [exact Hs|].
  apply IH. now apply glasses_step_sound.
Qed.

End GlassesFacts.

Section BrowserFacts.

Import Audio.

Lemma browser_merge_resample (h : heap) (this : Browser.t) :
  browser_ok (h, this) ->
  exists merged out,
    (r <- mergeChunks h (Browser.chunks this) ;;
     Browser.resample this (fst r) (snd r))
    = Ok (h ++ [merged] ++ [out], S (length h))
    /\ Forall in_range out.
Proof.
  intros [Hs Hpos]. cbn [fst snd] in *.
  rewrite mergeChunks_eq. cbn [bind fst snd].
  set (merged := concat (map (deref h) (Browser.chunks this))).
  destruct (@resample_in_range this (h ++ [merged]) (length h) Hpos)
    as (out & Hrun & Hout).
  { rewrite deref_app_new. now apply sound_concat. }
  exists merged, out. rewrite Hrun, length_app, <- app_assoc.
  split; [|exact Hout]. simpl. do 2 f_equal. lia.
Qed.

Lemma browser_step_ok (st : heap * Browser.t) (o : Browser.op) :
  Browser.nominal o -> browser_ok st -> browser_ok (Browser.step st o).
Proof.
  destruct st as [h this]. intros Hnom Hok.
  pose proof Hok as [Hs Hpos]. cbn [fst snd] in Hs, Hpos.
  destruct o as [granted|deviceRate|input| | |]; cbn [Browser.step].
  - destruct granted; split; assumption.
  - unfold Browser.start. destruct (Browser.stream this); split;
      solve [constructor | exact Hnom].
  - split; cbn; [|exact Hpos]. now apply sound_push.
  - unfold Browser.getAudio.
    destruct (browser_merge_resample Hok) as (merged & out & -> & _).
    rewrite app_assoc. split; cbn; [|exact Hpos]. now do 2 apply sound_grow.
  - unfold Browser.stop. cbv zeta.
    destruct (@browser_merge_resample h
                (Browser.mk (Browser.stream this) (Browser.audioCtx this)
                            None None (Browser.chunks this)
                            (Browser.nativeSampleRate this)))
      as (merged & out & -> & _); [split; assumption|].
    rewrite app_assoc. split; cbn; [|exact Hpos]. now do 2 apply sound_grow.
  - split; assumption.
Qed.

Lemma browser_run_ok (ops : list Browser.op) :
  forall st : heap * Browser.t,
    Forall Browser.nominal ops -> browser_ok st ->
    browser_ok (Browser.run st ops).
Proof.
  induction ops as [|o rest IH]; intros st Hnom Hok; [exact Hok|].
  inversion Hnom as [|? ? Ho Hrest]; subst.
  apply IH; [exact Hrest|]. now apply browser_step_ok.
Qed.

End BrowserFacts.

(** C9. Every buffer returned by [stop()] or [getAudio()] holds samples in
    [[-1, 1]]: for the glasses backend after any history at all (its chunks
    are 16-bit samples divided by 32768), for the browser backend after any
    history in which the platform delivered samples of that range at a
    positive rate.  The buffer is a single sequence of samples: one
    channel. *)
Theorem capture_output_in_range :
  (forall (b : Audio.EvenAppBridge) (h0 : heap) (ops : list Audio.Glasses.op),
     let st := Audio.Glasses.run (h0, Audio.Glasses.create b) ops in
     (exists h' audio,
        snd (Audio.Glasses.stop (fst st) (snd st)) = Ok (h', audio)
        /\ Forall in_range (deref h' audio))
     /\ (exists h' audio,
           snd (Audio.Glasses.getAudio (fst st) (snd st)) = Ok (h', audio)
           /\ Forall in_range (deref h' audio)))
  /\ (forall (h0 : heap) (ops : list Audio.Browser.op),
        Forall Audio.Browser.nominal ops ->
        let st := Audio.Browser.run (h0, Audio.Browser.create) ops in
        (exists h' audio,
           snd (Audio.Browser.stop (fst st) (snd st)) = Ok (h', audio)
           /\ Forall in_range (deref h' audio))
        /\ (exists h' audio,
              snd (Audio.Browser.getAudio (fst st) (snd st)) = Ok (h', audio)
              /\ Forall in_range (deref h' audio))).
Proof.
  split.
  - intros b h0 ops st.
    assert (Hs : sound (fst st) (Audio.Glasses.chunks (snd st))).
    { apply glasses_run_sound. constructor. }
    destruct st as [h this]. cbn [fst snd] in *.
    unfold Audio.Glasses.stop, Audio.Glasses.getAudio.
    cbn [snd Audio.Glasses.chunks]. rewrite mergeChunks_eq.
    split; eexists _, _; (split; [reflexivity|]);
      rewrite deref_app_new; now apply sound_concat.
  - intros h0 ops Hnom st.
    assert (Hok : browser_ok st).
    { apply browser_run_ok; [exact Hnom|]. split; [constructor|reflexivity]. }
    destruct st as [h this].
    cbn [fst snd]. split.
    + unfold Audio.Browser.stop. cbv zeta.
      destruct (@browser_merge_resample h
                  (Audio.Browser.mk (Audio.Browser.stream this)
                     (Audio.Browser.audioCtx this) None None
                     (Audio.Browser.chunks this)
                     (Audio.Browser.nativeSampleRate this)))
        as (merged & out & -> & Hout); [exact Hok|].
      eexists _, _. split; [reflexivity|].
      rewrite app_assoc.
      replace (S (length h)) with (length (h ++ [merged]))
        by (rewrite length_app; simpl; lia).
      now rewrite deref_app_new.
    + unfold Audio.Browser.getAudio.
      destruct (browser_merge_resample Hok) as (merged & out & -> & Hout).
      eexists _, _. split; [reflexivity|].
      rewrite app_assoc.
      replace (S (length h)) with (length (h ++ [merged]))
        by (rewrite length_app; simpl; lia).
      now rewrite deref_app_new.
Qed.

(** C10. [stop()] on a capture object fresh from its constructor returns an
    empty buffer: the chunk list is empty and [unsubscribe] is [null], so the
    only call to the bridge is [audioControl(false)] and no listener is
    removed. *)
Theorem glasses_stop_before_start :
  forall (b : Audio.EvenAppBridge) (h : heap),
    Audio.Glasses.chunks (Audio.Glasses.create b) = []
    /\ Audio.Glasses.unsubscribe (Audio.Glasses.create b) = None
    /\ (exists h' audio,
          snd (Audio.Glasses.stop h (Audio.Glasses.create b)) = Ok (h', audio)
          /\ deref h' audio = []
          /\ length (deref h' audio) = 0%nat)
    /\ Audio.Glasses.bridge (fst (Audio.Glasses.stop h (Audio.Glasses.create b)))
       = Audio.bridge_audioControl b false
    /\ Audio.listeners
         (Audio.Glasses.bridge
            (fst (Audio.Glasses.stop h (Audio.Glasses.create b))))
       = Audio.listeners b.
Proof.
  intros b h.
  split; [reflexivity|]. split; [reflexivity|]. split; [|split; reflexivity].
  exists (h ++ [[]]), (length h).
  unfold Audio.Glasses.stop, Audio.Glasses.create.
  cbn [snd Audio.Glasses.chunks]. rewrite mergeChunks_eq.
  rewrite deref_app_new. repeat split.
Qed.

(** A session that has accumulated a chunk still holds it after [stop()]
    and after [getAudio()], in both backends: the chunk list is not empty
    when either call has returned. *)
Lemma chunks_survive_stop :
  Audio.Glasses.chunks
    (fst (Audio.Glasses.stop (fst glasses_session) (snd glasses_session)))
  <> []
  /\ Audio.Glasses.chunks
       (fst (Audio.Glasses.getAudio (fst glasses_session)
               (snd glasses_session)))
     <> []
  /\ Audio.Browser.chunks
       (fst (Audio.Browser.stop (fst browser_session) (snd browser_session)))
     <> []
  /\ Audio.Browser.chunks
       (fst (Audio.Browser.getAudio (fst browser_session)
               (snd browser_session)))
     <> [].
Proof.
  repeat split; discriminate.
Qed.

(** Events reaching the glasses backend add chunks at the end of the list
    and remove none. *)
Lemma glasses_dispatch_keeps (ls : list nat) :
  forall (h : heap) (this : Audio.Glasses.t) (event : Audio.EvenHubEvent),
    exists more : list ref,
      Audio.Glasses.chunks (snd (Audio.Glasses.dispatch ls h this event))
      = Audio.Glasses.chunks this ++ more.
Proof.
  induction ls as [|l rest IH]; intros h this event.
  - exists []. cbn. now rewrite app_nil_r.
  - cbn [Audio.Glasses.dispatch].
    destruct (Audio.Glasses.listener h this event) as [[h' this']|e] eqn:Hl;
      [|apply IH].
    destruct (IH h' this' event) as [more Hmore].
    assert (Hone : exists one, Audio.Glasses.chunks this'
                               = Audio.Glasses.chunks this ++ one).
    { unfold Audio.Glasses.listener in Hl.
      destruct (Audio.audioEvent event) as [audioPcm|];
        [|injection Hl as _ <-; exists []; now rewrite app_nil_r].
      destruct (Audio.Glasses.recording this);
        [|injection Hl as _ <-; exists []; now rewrite app_nil_r].
      destruct (Audio.pcmS16LEtoFloat32 h audioPcm) as [[h1 c]|e1];
        [|discriminate].
      cbn in Hl. injection Hl as _ <-. now exists [c]. }
    destruct Hone as [one Hone].
    exists (one ++ more). now rewrite Hmore, Hone, app_assoc.
Qed.

(** [resample] reads the native rate of the object and nothing else of it. *)
Lemma resample_reads_rate (this this' : Audio.Browser.t) (h : heap)
    (raw : ref) :
  Audio.Browser.nativeSampleRate this' = Audio.Browser.nativeSampleRate this ->
  Audio.Browser.resample this' h raw = Audio.Browser.resample this h raw.
Proof.
  intros Hrate. unfold Audio.Browser.resample. now rewrite Hrate.
Qed.

(** C5, as the code has it.  The chunk list of either backend is empty on a
    new object and after [start()].  [stop()] and [getAudio()] read it and
    leave it as it was: the glasses backend returns the chunks merged, the
    browser backend what [resample] returns on the merged chunks.  No
    operation other than [start()] removes a chunk: every other operation
    leaves the list as it was or adds chunks at its end. *)
Theorem chunks_reset_by_start :
  (forall b, Audio.Glasses.chunks (Audio.Glasses.create b) = [])
  /\ Audio.Browser.chunks Audio.Browser.create = []
  /\ (forall this, Audio.Glasses.chunks (Audio.Glasses.start this) = [])
  /\ (forall this deviceRate,
        Audio.Browser.chunks (fst (Audio.Browser.start this deviceRate)) = [])
  /\ (forall h this,
        Audio.Glasses.chunks (fst (Audio.Glasses.stop h this))
        = Audio.Glasses.chunks this
        /\ snd (Audio.Glasses.stop h this)
           = Ok (h ++ [concat (map (deref h) (Audio.Glasses.chunks this))],
                 length h))
  /\ (forall h this,
        fst (Audio.Glasses.getAudio h this) = this
        /\ snd (Audio.Glasses.getAudio h this)
           = Ok (h ++ [concat (map (deref h) (Audio.Glasses.chunks this))],
                 length h))
  /\ (forall h this,
        Audio.Browser.chunks (fst (Audio.Browser.stop h this))
        = Audio.Browser.chunks this
        /\ snd (Audio.Browser.stop h this)
           = Audio.Browser.resample this
               (h ++ [concat (map (deref h) (Audio.Browser.chunks this))])
               (length h))
  /\ (forall h this,
        fst (Audio.Browser.getAudio h this) = this
        /\ snd (Audio.Browser.getAudio h this)
           = Audio.Browser.resample this
               (h ++ [concat (map (deref h) (Audio.Browser.chunks this))])
               (length h))
  /\ (forall (st : heap * Audio.Glasses.t) (o : Audio.Glasses.op),
        o = Audio.Glasses.op_start
        \/ exists more : list ref,
             Audio.Glasses.chunks (snd (Audio.Glasses.step st o))
             = Audio.Glasses.chunks (snd st) ++ more)
  /\ (forall (st : heap * Audio.Browser.t) (o : Audio.Browser.op),
        (exists deviceRate, o = Audio.Browser.op_start deviceRate)
        \/ exists more : list ref,
             Audio.Browser.chunks (snd (Audio.Browser.step st o))
             = Audio.Browser.chunks (snd st) ++ more).
Proof.
  split; [reflexivity|]. split; [reflexivity|]. split; [reflexivity|].
  split.
  { intros this deviceRate. unfold Audio.Browser.start.
    now destruct (Audio.Browser.stream this). }
  split.
  { intros h this. split; [reflexivity|].
    unfold Audio.Glasses.stop. cbn [snd Audio.Glasses.chunks].
    apply mergeChunks_eq. }
  split.
  { intros h this. split; [reflexivity|].
    unfold Audio.Glasses.getAudio. cbn [snd]. apply mergeChunks_eq. }
  split.
  { intros h this. unfold Audio.Browser.stop. cbv zeta.
    cbn [Audio.Browser.chunks]. rewrite mergeChunks_eq. cbn [bind fst snd].
    rewrite (@resample_reads_rate this) by reflexivity.
    now destruct (Audio.Browser.resample this _ _) as [audio|e]. }
  split.
  { intros h this. split; [reflexivity|].
    unfold Audio.Browser.getAudio. cbn [snd].
    now rewrite mergeChunks_eq. }
  split.
  { intros [h this] [|event| |]; [now left|right..]; cbn [Audio.Glasses.step snd].
    - apply glasses_dispatch_keeps.
    - exists []. rewrite app_nil_r. unfold Audio.Glasses.getAudio.
      now destruct (Audio.mergeChunks h _) as [[h' a]|e].
    - exists []. rewrite app_nil_r. unfold Audio.Glasses.stop.
      now destruct (Audio.mergeChunks h _) as [[h' a]|e]. }
  intros [h this] [granted|deviceRate|input| | |];
    [right|left; now exists deviceRate|right..]; cbn [Audio.Browser.step snd].
  - exists []. rewrite app_nil_r. now destruct granted.
  - now exists [length h].
  - exists []. rewrite app_nil_r. unfold Audio.Browser.getAudio.
    now destruct (bind _ _) as [[h' a]|e].
  - exists []. rewrite app_nil_r. unfold Audio.Browser.stop. cbv zeta.
    now destruct (bind _ _) as [[h' a]|e].
  - exists []. now rewrite app_nil_r.
Qed.

(** ** The worker *)

Section WorkerFacts.

Import Worker.

Lemma find_task_app (id : nat) (ts us : list (nat * task)) :
  find_task id (ts ++ us)
  = match find_task id ts with
    | Some t => Some t
    | None => find_task id us
    end.
Proof.
  induction ts as [|[i t] ts IH]; simpl; [reflexivity|].
  destruct (Nat.eqb i id); [reflexivity|exact IH].
Qed.

Lemma find_task_filter (id id' : nat) (ts : list (nat * task)) :
  find_task id (filter (fun p => negb (Nat.eqb (fst p) id')) ts)
  = if Nat.eqb id' id then None else find_task id ts.
Proof.
  induction ts as [|[i t] ts IH]; simpl.
  - now destruct (Nat.eqb id' id).
  - destruct (Nat.eqb_spec i id') as [->|Hne]; simpl.
    + rewrite IH. destruct (Nat.eqb_spec id' id); reflexivity.
    + rewrite IH.
      destruct (Nat.eqb_spec i id) as [->|Hne'].
      * destruct (Nat.eqb_spec id' id); [congruence|reflexivity].
      * reflexivity.
Qed.

Lemma received_step (st : state) (ev : event) :
  (received st <= received (step st ev))%nat.
Proof.
  destruct ev as [req|i p|i p|i m|i e|i r|i e]; cbn [step].
  - unfold onmessage. destruct req; [cbn; lia|].
    cbn [transcriber]. destruct (transcriber st); cbn; lia.
  - destruct (find_task i (tasks st)) as [[| |]|]; cbn; lia.
  - destruct (find_task i (tasks st)) as [[| |]|]; cbn; lia.
  - destruct (find_task i (tasks st)) as [[| |]|]; cbn; lia.
  - destruct (find_task i (tasks st)) as [[| |]|]; cbn; lia.
  - destruct (find_task i (tasks st)) as [[| |]|]; [| |destruct (result_text r)|];
      cbn; lia.
  - destruct (find_task i (tasks st)) as [[| |]|]; cbn; lia.
Qed.

End WorkerFacts.

Section WorkerFrames.

Import Worker.

Ltac view_norm :=
  unfold view, responses, invocations;
  cbn [finish suspend postMessage tasks posted invoked transcriber received];
  repeat first
    [ rewrite find_task_filter | rewrite find_task_app
    | rewrite filter_app | rewrite map_app ];
  cbn [find_task filter map fst snd app].

Ltac eqb_cases id :=
  repeat match goal with
    | |- context [Nat.eqb ?i id] =>
        destruct (Nat.eqb_spec i id); try subst; try congruence; try lia
    end.

(** A step leaves alone every request that is not suspended, and every
    request that waits for its pipeline call unless the step settles that
    call. *)
Lemma step_view (id : nat) (st : state) (ev : event) :
  (forall req, ev = Message req -> id <> received st) ->
  find_task id (tasks st) = None
  \/ (exists m a, find_task id (tasks st) = Some (Inferring m a)
                  /\ settles id ev = false) ->
  view id (step st ev) = view id st.
Proof.
  intros Hid Hcase.
  assert (Hsettle : settles id ev = true -> find_task id (tasks st) = None).
  { intros Hs. destruct Hcase as [H|(m & a & _ & H)]; congruence. }
  assert (Hkeep : forall t', find_task id (tasks st) = Some t' ->
                             exists m a, t' = Inferring m a).
  { intros t' Ht. destruct Hcase as [H|(m & a & H & _)]; [congruence|].
    exists m, a. congruence. }
  destruct ev as [req|i p|i p|i m|i e|i r|i e]; cbn [step].
  - specialize (Hid req eq_refl).
    unfold onmessage. destruct req as [|audio];
      [|cbn [transcriber]; destruct (transcriber st) as [m|]];
      view_norm; eqb_cases id; rewrite ?app_nil_r;
      try (now destruct (find_task id (tasks st))).
  - destruct (find_task i (tasks st)) as [[| |]|] eqn:Hi; try reflexivity;
      view_norm; eqb_cases id; rewrite ?app_nil_r;
      try (now destruct (Hkeep _ Hi) as (? & ? & [=]));
      try (now destruct (find_task id (tasks st))).
  - destruct (find_task i (tasks st)) as [[| |]|] eqn:Hi; try reflexivity;
      view_norm; eqb_cases id; rewrite ?app_nil_r;
      try (now destruct (Hkeep _ Hi) as (? & ? & [=]));
      try (now destruct (find_task id (tasks st))).
  - destruct (find_task i (tasks st)) as [[| |]|] eqn:Hi; try reflexivity;
      view_norm; eqb_cases id; rewrite ?app_nil_r;
      try (now destruct (Hkeep _ Hi) as (? & ? & [=]));
      try (now destruct (find_task id (tasks st))).
  - destruct (find_task i (tasks st)) as [[| |]|] eqn:Hi; try reflexivity;
      view_norm; eqb_cases id; rewrite ?app_nil_r;
      try (now destruct (Hkeep _ Hi) as (? & ? & [=]));
      try (now destruct (find_task id (tasks st))).
  - destruct (find_task i (tasks st)) as [[| |]|] eqn:Hi; try reflexivity.
    assert (Hne : i <> id).
    { intros ->. cbn in Hsettle. rewrite Nat.eqb_refl in Hsettle.
      specialize (Hsettle eq_refl). congruence. }
    destruct (result_text r); view_norm; eqb_cases id;
      now rewrite ?app_nil_r.
  - destruct (find_task i (tasks st)) as [[| |]|] eqn:Hi; try reflexivity.
    assert (Hne : i <> id).
    { intros ->. cbn in Hsettle. rewrite Nat.eqb_refl in Hsettle.
      specialize (Hsettle eq_refl). congruence. }
    view_norm; eqb_cases id; now rewrite ?app_nil_r.
Qed.

Lemma tidy_initial : tidy initial.
Proof. intros id _. reflexivity. Qed.

Lemma tidy_step (st : state) (ev : event) : tidy st -> tidy (step st ev).
Proof.
  intros Ht id Hid.
  pose proof (received_step st ev) as Hmono.
  rewrite <- (Ht id) by lia.
  apply step_view.
  - intros req ->. cbn in Hid. unfold onmessage in Hid.
    destruct req; [cbn in Hid; lia|].
    cbn [transcriber] in Hid. destruct (transcriber st); cbn in Hid; lia.
  - left. specialize (Ht id ltac:(lia)). now injection Ht.
Qed.

Lemma tidy_run (evs : list event) :
  forall st, tidy st -> tidy (run st evs).
Proof.
  induction evs as [|ev rest IH]; intros st Ht; [exact Ht|].
  apply IH. now apply tidy_step.
Qed.

Lemma received_run (evs : list event) :
  forall st, (received st <= received (run st evs))%nat.
Proof.
  induction evs as [|ev rest IH]; intros st; [apply Nat.le_refl|].
  cbn [run fold_left]. etransitivity; [apply received_step|apply IH].
Qed.

(** A request that is not suspended stays as it is, whatever happens. *)
Lemma run_view_idle (id : nat) (evs : list event) :
  forall st,
    (id < received st)%nat ->
    find_task id (tasks st) = None ->
    view id (run st evs) = view id st.
Proof.
  induction evs as [|ev rest IH]; intros st Hid Hnone; [reflexivity|].
  assert (Hstep : view id (step st ev) = view id st).
  { apply step_view; [intros; lia|now left]. }
  cbn [run fold_left]. fold (run (step st ev) rest).
  rewrite IH, Hstep; [reflexivity| |].
  - pose proof (received_step st ev). lia.
  - unfold view in Hstep. injection Hstep as Ht _ _. congruence.
Qed.

(** A request that waits for its pipeline call stays as it is until the call
    settles. *)
Lemma run_view_inferring (id : nat) (m : pipeline) (a : list Q)
    (evs : list event) :
  forall st,
    (id < received st)%nat ->
    find_task id (tasks st) = Some (Inferring m a) ->
    forallb (fun ev => negb (settles id ev)) evs = true ->
    view id (run st evs) = view id st.
Proof.
  induction evs as [|ev rest IH]; intros st Hid Htask Hmid; [reflexivity|].
  cbn [forallb] in Hmid. apply andb_prop in Hmid as [Hev Hrest].
  apply negb_true_iff in Hev.
  assert (Hstep : view id (step st ev) = view id st).
  { apply step_view; [intros; lia|]. right. now exists m, a. }
  cbn [run fold_left]. fold (run (step st ev) rest).
  rewrite IH, Hstep; [reflexivity| | |exact Hrest].
  - pose proof (received_step st ev). lia.
  - unfold view in Hstep. injection Hstep as Ht _ _. congruence.
Qed.

(** The module variable [transcriber] is assigned when a load completes and
    nowhere else. *)
Lemma step_transcriber (st : state) (ev : event) :
  loads ev = false -> transcriber (step st ev) = transcriber st.
Proof.
  intros Hev.
  destruct ev as [req|i p|i p|i m|i e|i r|i e]; cbn [step];
    try discriminate;
    try (destruct (find_task i (tasks st)) as [[| |]|]; try reflexivity).
  - unfold onmessage. destruct req; [reflexivity|].
    cbn [transcriber]. now destruct (transcriber st).
  - now destruct (result_text r).
Qed.

Lemma run_transcriber_none (evs : list event) :
  forall st,
    transcriber st = None ->
    forallb (fun ev => negb (loads ev)) evs = true ->
    transcriber (run st evs) = None.
Proof.
  induction evs as [|ev rest IH]; intros st Hnone Hevs; [exact Hnone|].
  cbn [forallb] in Hevs. apply andb_prop in Hevs as [Hev Hrest].
  apply negb_true_iff in Hev.
  apply IH; [|exact Hrest]. now rewrite step_transcriber.
Qed.

Lemma step_transcriber_loaded (st : state) (ev : event) :
  transcriber st <> None -> transcriber (step st ev) <> None.
Proof.
  intros Hsome.
  destruct (loads ev) eqn:Hev; [|now rewrite step_transcriber].
  destruct ev as [req|i p|i p|i m|i e|i r|i e]; try discriminate.
  cbn [step]. destruct (find_task i (tasks st)) as [[| |]|];
    try exact Hsome.
  discriminate.
Qed.

Lemma run_transcriber_loaded (evs : list event) :
  forall st, transcriber st <> None -> transcriber (run st evs) <> None.
Proof.
  induction evs as [|ev rest IH]; intros st Hsome; [exact Hsome|].
  apply IH. now apply step_transcriber_loaded.
Qed.

End WorkerFrames.

(** C2. While no load has completed the worker holds no model, and a
    [transcribe] request handled then is answered at once by the single
    response [error "Model not loaded"]: the handler posts nothing else now or
    later, no [result] among it, suspends nothing and never calls a
    pipeline, so the audio of the request is not read. *)
Theorem transcribe_without_model :
  (forall before : list Worker.event,
     forallb (fun ev => negb (Worker.loads ev)) before = true ->
     Worker.transcriber (Worker.run Worker.initial before) = None)
  /\ (forall (before later : list Worker.event) (audio : list Q),
        let st := Worker.run Worker.initial before in
        let id := Worker.received st in
        let st' := Worker.step st (Worker.Message (Worker.transcribe audio)) in
        Worker.transcriber st = None ->
        Worker.posted st'
        = Worker.posted st ++ [(id, Worker.msg_error "Model not loaded")]
        /\ Worker.invoked st' = Worker.invoked st
        /\ Worker.tasks st' = Worker.tasks st
        /\ Worker.responses id (Worker.run st' later)
           = [Worker.msg_error "Model not loaded"]
        /\ filter Worker.is_result (Worker.responses id (Worker.run st' later))
           = []
        /\ Worker.invocations id (Worker.run st' later) = []).
Proof.
  split.
  - intros before Hbefore. now apply run_transcriber_none.
  - intros before later audio st id st' Hnone.
    assert (Htidy : Worker.view id st = (None, [], [])).
    { apply (tidy_run before tidy_initial). apply Nat.le_refl. }
    unfold Worker.view in Htidy. injection Htidy as Htask Hresp Hinv.
    assert (Hst' : st' = Worker.postMessage
                           (Worker.mkState (Worker.transcriber st)
                              (Worker.tasks st) (S id) (Worker.posted st)
                              (Worker.invoked st))
                           id (Worker.msg_error "Model not loaded")).
    { unfold st'. cbn [Worker.step]. unfold Worker.onmessage.
      cbn [Worker.transcriber]. fold id. now rewrite Hnone. }
    assert (Hview : Worker.view id (Worker.run st' later)
                    = (None, [Worker.msg_error "Model not loaded"], [])).
    { rewrite run_view_idle.
      - rewrite Hst'. unfold Worker.view, Worker.responses, Worker.invocations.
        cbn [Worker.postMessage Worker.tasks Worker.posted Worker.invoked].
        rewrite filter_app, map_app. cbn [filter fst map snd].
        rewrite Nat.eqb_refl. cbn [map snd].
        unfold Worker.responses in Hresp. unfold Worker.invocations in Hinv.
        now rewrite Htask, Hresp, Hinv.
      - rewrite Hst'. change (Worker.received st < S (Worker.received st))%nat.
        lia.
      - rewrite Hst'. exact Htask. }
    unfold Worker.view in Hview. injection Hview as _ Hresp' Hinv'.
    rewrite Hresp', Hinv', Hst'. repeat split.
Qed.

(** C8. With a model loaded, a [transcribe] request calls the pipeline once;
    when that call rejects, or resolves with nothing to read a text from, the
    handler posts the single response [error "Transcription failed: ..."]
    and nothing else afterwards, and leaves [transcriber] as it was.  A model
    stays loaded from then on: a later [transcribe] request calls the
    pipeline instead of being refused. *)
Theorem transcribe_failure_keeps_model :
  forall (before mid later : list Worker.event) (audio : list Q)
         (m : Worker.pipeline) (ev : Worker.event) (e : exn),
    let st := Worker.run Worker.initial before in
    let id := Worker.received st in
    let st1 :=
      Worker.run (Worker.step st (Worker.Message (Worker.transcribe audio)))
                 mid in
    let st2 := Worker.step st1 ev in
    let st3 := Worker.run st2 later in
    Worker.transcriber st = Some m ->
    forallb (fun ev => negb (Worker.settles id ev)) mid = true ->
    Worker.raises id ev e ->
    Worker.invocations id st1 = [(m, audio)]
    /\ Worker.responses id st1 = []
    /\ Worker.responses id st2
       = [Worker.msg_error ("Transcription failed: " ++ Worker.exn_string e)]
    /\ Worker.transcriber st2 = Worker.transcriber st1
    /\ Worker.responses id st3 = Worker.responses id st2
    /\ exists m' : Worker.pipeline,
         Worker.transcriber st3 = Some m'
         /\ forall audio' : list Q,
              Worker.invoked
                (Worker.step st3 (Worker.Message (Worker.transcribe audio')))
              = Worker.invoked st3 ++ [(Worker.received st3, (m', audio'))]
              /\ Worker.posted
                   (Worker.step st3
                      (Worker.Message (Worker.transcribe audio')))
                 = Worker.posted st3.
Proof.
  intros before mid later audio m ev e st id st1 st2 st3 Hm Hmid Hraise.
  set (st0 := Worker.step st (Worker.Message (Worker.transcribe audio))).
  assert (Htidy : Worker.view id st = (None, [], [])).
  { apply (tidy_run before tidy_initial). apply Nat.le_refl. }
  unfold Worker.view in Htidy. injection Htidy as Htask Hresp Hinv.
  assert (Hst0 : st0 = Worker.suspend
                         (Worker.mkState (Worker.transcriber st)
                            (Worker.tasks st) (S id) (Worker.posted st)
                            (Worker.invoked st ++ [(id, (m, audio))]))
                         id (Worker.Inferring m audio)).
  { unfold st0. cbn [Worker.step]. unfold Worker.onmessage.
    cbn [Worker.transcriber]. fold id. now rewrite Hm. }
  assert (Hview0 : Worker.view id st0
                   = (Some (Worker.Inferring m audio), [], [(m, audio)])).
  { rewrite Hst0. unfold Worker.view, Worker.responses, Worker.invocations.
    cbn [Worker.suspend Worker.tasks Worker.posted Worker.invoked].
    rewrite find_task_app, filter_app, map_app, Htask.
    cbn [Worker.find_task filter fst map snd]. rewrite Nat.eqb_refl.
    unfold Worker.responses in Hresp. unfold Worker.invocations in Hinv.
    now rewrite Hresp, Hinv. }
  assert (Hview1 : Worker.view id st1
                   = (Some (Worker.Inferring m audio), [], [(m, audio)])).
  { unfold st1. fold st0. rewrite <- Hview0.
    apply run_view_inferring with (m := m) (a := audio).
    - rewrite Hst0. change (Worker.received st < S (Worker.received st))%nat.
      lia.
    - unfold Worker.view in Hview0. now injection Hview0.
    - exact Hmid. }
  unfold Worker.view in Hview1. injection Hview1 as Htask1 Hresp1 Hinv1.
  assert (Hstep2 : st2 = Worker.finish
                           (Worker.postMessage st1 id
                              (Worker.msg_error
                                 ("Transcription failed: "
                                  ++ Worker.exn_string e))) id).
  { unfold st2. destruct Hraise as [->|[-> ->]];
      cbn [Worker.step Worker.result_text]; now rewrite Htask1. }
  assert (Hresp2 : Worker.responses id st2
                   = [Worker.msg_error
                        ("Transcription failed: " ++ Worker.exn_string e)]).
  { rewrite Hstep2. unfold Worker.responses in *.
    cbn [Worker.finish Worker.postMessage Worker.posted].
    rewrite filter_app, map_app, Hresp1. cbn [filter fst].
    now rewrite Nat.eqb_refl. }
  assert (Hloaded : Worker.transcriber st3 <> None).
  { unfold st3, st2, st1.
    apply run_transcriber_loaded, step_transcriber_loaded,
      run_transcriber_loaded, step_transcriber_loaded.
    fold st. congruence. }
  split; [exact Hinv1|]. split; [exact Hresp1|]. split; [exact Hresp2|].
  split; [now rewrite Hstep2|].
  split.
  - unfold st3.
    assert (Hv : Worker.view id (Worker.run st2 later) = Worker.view id st2).
    { apply run_view_idle.
      - assert (Hrec0 : Worker.received st0 = S (Worker.received st))
          by (rewrite Hst0; reflexivity).
        pose proof (received_run mid st0) as Hle.
        rewrite Hstep2.
        change (Worker.received st < Worker.received st1)%nat.
        unfold st1. fold st0. lia.
      - rewrite Hstep2. cbn [Worker.finish Worker.tasks].
        rewrite find_task_filter. now rewrite Nat.eqb_refl. }
    unfold Worker.view in Hv. now injection Hv.
  - destruct (Worker.transcriber st3) as [m'|] eqn:Hm'; [|congruence].
    exists m'. split; [reflexivity|].
    intros audio'. cbn [Worker.step]. unfold Worker.onmessage.
    cbn [Worker.transcriber]. rewrite Hm'. split; reflexivity.
Qed.

(** ** The recording controller *)

(** C3. [stopRecording()] while recording, with a capture backend whose
    [stop()] returns a buffer: under 1600 samples the controller logs
    "Recording too short, ignoring", shows "Too short - try again", is idle
    again with the record button enabled, and has posted nothing to the
    worker; from 1600 samples on it posts one [transcribe] request carrying
    the samples. *)
Theorem stopRecording_minimum_length :
  forall (C : Type) (backend : AudioCapture C) (st : @Main.state C)
         (capture capture' : C) (h : heap) (audio : ref),
    Main.audioCapture st = Some capture ->
    Main.recording st = true ->
    stop (Main.memory st) capture = (capture', Ok (h, audio)) ->
    let st' := Main.stopRecording st in
    ((length (deref h audio) < 1600)%nat ->
       Main.statusEl st' = Main.Text "Too short - try again"
       /\ hd_error (Main.logEl st')
          = Some (Main.error, Main.Text "Recording too short, ignoring")
       /\ Main.recording st' = false
       /\ Main.recordBtn st' = Main.mkButton (Main.Text "Record") false false
       /\ Main.to_worker st' = Main.to_worker st)
    /\ ((1600 <= length (deref h audio))%nat ->
          Main.to_worker st'
          = Main.to_worker st ++ [Worker.transcribe (deref h audio)]
          /\ Main.statusEl st' = Main.Text "Transcribing..."
          /\ Main.recording st' = false
          /\ Main.disabled (Main.recordBtn st') = false).
Proof.
  intros C backend st capture capture' h audio Hcap Hrec Hstop st'.
  unfold st', Main.stopRecording.
  rewrite Hcap, Hrec. cbn [negb].
  cbn [Main.memory Main.set_recording Main.btn_text Main.btn_disabled
       Main.btn_class_recording Main.set_button].
  rewrite Hstop.
  split; intros Hlen.
  - apply Nat.ltb_lt in Hlen. rewrite Hlen. repeat split.
  - apply Nat.ltb_ge in Hlen. rewrite Hlen.
    unfold Main.updateDisplay. cbn.
    destruct (Main.has_bridge st); repeat split.
Qed.

(** ** The theorems at concrete inputs *)

Lemma resample_interpolates_in_binary64_witness :
  IEEE.strict_eq (IEEE.of_Z 48000) (IEEE.of_Z 16000) = false
  /\ IEEE.positive_finite (IEEE.of_Z 48000) = true
  /\ (exists out : list IEEE.float32,
        IEEE.resample 4294967295 (IEEE.of_Z 48000)
          (map (fun z => IEEE.fround (IEEE.of_Z z)) [0; 1; 0; -1; 0; 1]%Z)
        = Ok out
        /\ Z.of_nat (length out) = 2%Z)
  /\ (0 <= 2)%Z.
Proof.
  split; [reflexivity|]. split; [reflexivity|]. split.
  - pose proof (proj1 resample_interpolates_in_binary64 4294967295%N
                  (IEEE.of_Z 48000)
                  (map (fun z => IEEE.fround (IEEE.of_Z z))
                       [0; 1; 0; -1; 0; 1]%Z)
                  eq_refl) as H.
    cbv zeta in H.
    assert (HT : IEEE.ToIntegerOrInfinity
                   (IEEE.Math_round
                      (IEEE.mul
                         (IEEE.of_Z
                            (Z.of_nat
                               (length
                                  (map (fun z => IEEE.fround (IEEE.of_Z z))
                                       [0; 1; 0; -1; 0; 1]%Z))))
                         (IEEE.div (IEEE.of_Z 16000) (IEEE.of_Z 48000))))
                 = IEEE.Integer 2)
      by (vm_compute; reflexivity).
    rewrite HT in H.
    destruct H as (out & Hrun & Hlen & _).
    exists out. split; [exact Hrun|exact Hlen].
  - exact (proj1 (proj2 resample_interpolates_in_binary64)
             (IEEE.of_Z 48000)
             (map (fun z => IEEE.fround (IEEE.of_Z z)) [0; 1; 0; -1; 0; 1]%Z)
             eq_refl).
Defined.

Lemma transcribe_without_model_witness :
  Worker.transcriber (Worker.run Worker.initial []) = None
  /\ Worker.responses 0
       (Worker.run
          (Worker.step (Worker.run Worker.initial [])
             (Worker.Message (Worker.transcribe [1 # 2])))
          [Worker.Message Worker.load])
     = [Worker.msg_error "Model not loaded"].
Proof.
  split; [reflexivity|].
  exact (proj1 (proj2 (proj2 (proj2
           (proj2 transcribe_without_model [] [Worker.Message Worker.load]
                  [1 # 2] eq_refl))))).
Defined.

Lemma stopRecording_minimum_length_witness :
  Main.to_worker
    (Main.stopRecording
       (Main.mkState [[1 # 2]] true false
          (Some (Audio.Glasses.mk [0%nat] true None Audio.new_bridge)) true
          (Main.Text "Recording...") (Main.ModelReady "wasm")
          (Main.mkButton (Main.Text "Stop") false true) [] [] []))
  = [].
Proof.
  refine (proj2 (proj2 (proj2 (proj2
            (proj1 (@stopRecording_minimum_length
                      Audio.Glasses.t GlassesAudioCapture
                      (Main.mkState [[1 # 2]] true false
                         (Some (Audio.Glasses.mk [0%nat] true None
                                  Audio.new_bridge)) true
                         (Main.Text "Recording...") (Main.ModelReady "wasm")
                         (Main.mkButton (Main.Text "Stop") false true)
                         [] [] [])
                      (Audio.Glasses.mk [0%nat] true None Audio.new_bridge)
                      _ _ _ eq_refl eq_refl eq_refl) _))))).
  simpl. lia.
Defined.

Lemma mergeChunks_concatenates_witness :
  exists (h' : heap) (merged : ref),
    Audio.mergeChunks [[1; -1; 1 # 2]; [1 # 4]] [0; 1]%nat = Ok (h', merged)
    /\ nth_error (deref h' merged) 3 = Some (1 # 4)
    /\ deref h' 0%nat = [1; -1; 1 # 2].
Proof.
  destruct (proj1 mergeChunks_concatenates
              [[1; -1; 1 # 2]; [1 # 4]] [0; 1]%nat)
    as (h' & merged & Hrun & _ & _ & Hnth & Hold & _).
  exists h', merged. split; [exact Hrun|]. split.
  - apply (Hnth 1%nat 0%nat 1%nat); [reflexivity|simpl; lia].
  - apply Hold. unfold valid. simpl. lia.
Defined.


Lemma resample_identity_witness :
  exists (h' : heap) (out : ref),
    Audio.Browser.resample
      (Audio.Browser.mk None None None None [] 16000) [[1; -1]] 0%nat
    = Ok (h', out)
    /\ deref h' out = [1; -1]
    /\ out <> 0%nat.
Proof.
  destruct (@resample_identity
              (Audio.Browser.mk None None None None [] 16000) [[1; -1]] 0%nat)
    as (h' & out & Hrun & Hsame & _ & _ & Hfresh & _).
  - reflexivity.
  - exists h', out. split; [exact Hrun|]. split; [exact Hsame|].
    apply Hfresh. unfold valid. simpl. lia.
Defined.

Lemma transcribe_failure_keeps_model_witness :
  Worker.responses 1
    (Worker.step
       (Worker.run
          (Worker.step
             (Worker.run Worker.initial
                [Worker.Message Worker.load;
                 Worker.DeviceDetected 0 Worker.NoGpu;
                 Worker.CreateResolved 0 7%nat])
             (Worker.Message (Worker.transcribe [1 # 2])))
          [])
       (Worker.InferenceRejected 1 (Error "out of memory")))
  = [Worker.msg_error "Transcription failed: out of memory"].
Proof.
  refine (proj1 (proj2 (proj2
            (@transcribe_failure_keeps_model
               [Worker.Message Worker.load;
                Worker.DeviceDetected 0 Worker.NoGpu;
                Worker.CreateResolved 0 7%nat]
               [] [] [1 # 2] 7%nat
               (Worker.InferenceRejected 1 (Error "out of memory"))
               (Error "out of memory") eq_refl eq_refl _)))).
  left. reflexivity.
Defined.

Lemma capture_output_in_range_witness :
  exists (h' : heap) (audio : ref),
    snd (Audio.Browser.stop
           (fst (Audio.Browser.run ([], Audio.Browser.create)
                   [Audio.Browser.op_init (Ok 0%nat);
                    Audio.Browser.op_start 48000;
                    Audio.Browser.op_audioprocess [1; -1; 1 # 2]]))
           (snd (Audio.Browser.run ([], Audio.Browser.create)
                   [Audio.Browser.op_init (Ok 0%nat);
                    Audio.Browser.op_start 48000;
                    Audio.Browser.op_audioprocess [1; -1; 1 # 2]])))
    = Ok (h', audio)
    /\ Forall in_range (deref h' audio).
Proof.
  apply (proj2 capture_output_in_range []
           [Audio.Browser.op_init (Ok 0%nat);
            Audio.Browser.op_start 48000;
            Audio.Browser.op_audioprocess [1; -1; 1 # 2]]).
  repeat constructor; simpl; unfold Qle; simpl; lia.
Defined.

(** * Further properties *)

(** ** [pcmS16LEtoFloat32] on arbitrary bytes *)

Section PcmTotal.

Import Audio.

Lemma Int16Array_view_inside (uint8 : Uint8Array) :
  Nat.even (byteOffset uint8) = true ->
  inside uint8 ->
  Int16Array_view uint8
  = Ok (map (fun k => int16_at (buffer uint8) (byteOffset uint8 + 2 * k))
            (seq 0 (length8 uint8 / 2))).
Proof.
  intros Heven Hin. unfold Int16Array_view.
  rewrite <- Nat.negb_even, Heven. cbn [negb].
  pose proof (Nat.div_mod_eq (length8 uint8) 2) as Hdm.
  unfold inside in Hin.
  destruct (Nat.ltb_spec (length (buffer uint8))
                         (byteOffset uint8 + 2 * (length8 uint8 / 2)))
    as [Hlt|_]; [lia|reflexivity].
Qed.

End PcmTotal.

(** X1. On a window at an even offset inside its buffer the conversion
    returns a new array of [floor(length / 2)] samples (an odd last byte is
    ignored); sample [k] is the 16-bit value at bytes [2k], [2k+1] divided by
    32768 and lies in [[-1, 1)]; the arrays that existed before are
    unchanged. *)
Theorem pcmS16LEtoFloat32_total :
  forall (h : heap) (uint8 : Audio.Uint8Array),
    Nat.even (Audio.byteOffset uint8) = true ->
    inside uint8 ->
    exists float32 : list Q,
      Audio.pcmS16LEtoFloat32 h uint8 = Ok (h ++ [float32], length h)
      /\ length float32 = (Audio.length8 uint8 / 2)%nat
      /\ (forall k, (k < length float32)%nat ->
            nth k float32 0
            = inject_Z (Audio.int16_at (Audio.buffer uint8)
                          (Audio.byteOffset uint8 + 2 * k)) / 32768
            /\ -1 <= nth k float32 0 < 1)
      /\ (forall r, valid h r -> deref (h ++ [float32]) r = deref h r).
Proof.
  intros h uint8 Heven Hin.
  pose proof (@Int16Array_view_inside uint8 Heven Hin) as Hview.
  eexists. split; [exact (pcmS16LEtoFloat32_view h _ Hview)|].
  rewrite !length_map, length_seq.
  split; [reflexivity|]. split.
  - intros k Hk.
    rewrite map_map.
    rewrite (nth_indep _ 0
               (Audio.pcm_sample
                  (Audio.int16_at (Audio.buffer uint8)
                     (Audio.byteOffset uint8 + 2 * 0))))
      by (now rewrite length_map, length_seq).
    rewrite (map_nth (fun k => Audio.pcm_sample
                                 (Audio.int16_at (Audio.buffer uint8)
                                    (Audio.byteOffset uint8 + 2 * k)))).
    rewrite seq_nth by exact Hk. split; [reflexivity|].
    pose proof (int16_at_range (Audio.buffer uint8)
                  (Audio.byteOffset uint8 + 2 * (0 + k))) as Hr.
    revert Hr. generalize (Audio.int16_at (Audio.buffer uint8)
                             (Audio.byteOffset uint8 + 2 * (0 + k))).
    intros z Hr. unfold is_int16 in Hr.
    unfold Audio.pcm_sample, Qle, Qlt. cbn. lia.
  - intros r Hr. now apply deref_app_old.
Qed.

Lemma pcmS16LEtoFloat32_total_witness :
  exists float32 : list Q,
    Audio.pcmS16LEtoFloat32 [] (Audio.mkUint8Array [x00; x40; xff] 0 3)
    = Ok ([float32], 0%nat)
    /\ length float32 = 1%nat.
Proof.
  destruct (@pcmS16LEtoFloat32_total []
              (Audio.mkUint8Array [x00; x40; xff] 0 3) eq_refl)
    as (float32 & Hrun & Hlen & _).
  - unfold inside. simpl. lia.
  - exists float32. split; [exact Hrun|exact Hlen].
Defined.

(** X2. On a window inside its buffer the conversion throws exactly when the
    byte offset is odd, and what it throws is a [RangeError]. *)
Theorem pcmS16LEtoFloat32_throws_iff_misaligned :
  forall (h : heap) (uint8 : Audio.Uint8Array) (e : exn),
    inside uint8 ->
    (Audio.pcmS16LEtoFloat32 h uint8 = Throw e
     <-> Nat.odd (Audio.byteOffset uint8) = true /\ e = RangeError).
Proof.
  intros h uint8 e Hin. split.
  - intros Hthrow.
    destruct (Nat.odd (Audio.byteOffset uint8)) eqn:Hodd.
    + rewrite (@pcmS16LEtoFloat32_misaligned h uint8 Hodd) in Hthrow.
      split; congruence.
    + assert (Heven : Nat.even (Audio.byteOffset uint8) = true)
        by (rewrite <- Nat.negb_odd, Hodd; reflexivity).
      pose proof (@Int16Array_view_inside uint8 Heven Hin) as Hview.
      rewrite (pcmS16LEtoFloat32_view h _ Hview) in Hthrow. discriminate.
  - intros [Hodd ->]. now apply pcmS16LEtoFloat32_misaligned.
Qed.

Lemma pcmS16LEtoFloat32_throws_iff_misaligned_witness :
  Audio.pcmS16LEtoFloat32 [] (Audio.mkUint8Array [xff; x00; x40] 1 2)
  = Throw RangeError.
Proof.
  apply (@pcmS16LEtoFloat32_throws_iff_misaligned []
           (Audio.mkUint8Array [xff; x00; x40] 1 2) RangeError).
  - unfold inside. simpl. lia.
  - split; reflexivity.
Defined.

(** ** [mergeChunks] composed with itself and with splitting *)

Lemma deref_pieces (h : heap) (pieces : list (list Q)) :
  map (deref (h ++ pieces)) (seq (length h) (length pieces)) = pieces.
Proof.
  apply nth_ext with (d := []) (d' := []).
  - now rewrite length_map, length_seq.
  - intros i Hi. rewrite length_map, length_seq in Hi.
    rewrite (nth_indep _ [] (deref (h ++ pieces) 0%nat))
      by (now rewrite length_map, length_seq).
    rewrite map_nth, seq_nth by exact Hi.
    unfold deref. apply app_nth2_plus.
Qed.

(** X3. Merging in stages gives what merging at once gives: merge the first
    chunks, merge the remaining ones, then merge the two results, and the
    array holds the same samples as the merge of all chunks. *)
Theorem mergeChunks_in_stages :
  forall (h : heap) (first rest : list ref),
    Forall (valid h) rest ->
    exists (h1 : heap) (m1 : ref) (h2 : heap) (m2 : ref) (h3 : heap)
           (m : ref) (h' : heap) (all : ref),
      Audio.mergeChunks h first = Ok (h1, m1)
      /\ Audio.mergeChunks h1 rest = Ok (h2, m2)
      /\ Audio.mergeChunks h2 [m1; m2] = Ok (h3, m)
      /\ Audio.mergeChunks h (first ++ rest) = Ok (h', all)
      /\ deref h3 m = deref h' all.
Proof.
  intros h first rest Hvalid.
  set (A := concat (map (deref h) first)).
  set (B := concat (map (deref h) rest)).
  assert (HB : concat (map (deref (h ++ [A])) rest) = B).
  { unfold B. f_equal. apply map_ext_in. intros c Hc.
    apply deref_app_old. rewrite Forall_forall in Hvalid. now apply Hvalid. }
  exists (h ++ [A]), (length h), ((h ++ [A]) ++ [B]), (length (h ++ [A])).
  eexists _, _, _, _.
  split; [apply mergeChunks_eq|].
  split; [rewrite mergeChunks_eq, HB; reflexivity|].
  split; [apply mergeChunks_eq|].
  split; [apply mergeChunks_eq|].
  rewrite !deref_app_new. cbn [map concat].
  rewrite deref_app_new.
  rewrite deref_app_old, deref_app_new
    by (unfold valid; rewrite length_app; simpl; lia).
  rewrite app_nil_r, map_app, concat_app. reflexivity.
Qed.

Lemma mergeChunks_in_stages_witness :
  exists (h1 : heap) (m1 : ref) (h2 : heap) (m2 : ref) (h3 : heap)
         (m : ref) (h' : heap) (all : ref),
    Audio.mergeChunks [[1]; [1 # 2]; [1 # 4]] [0%nat] = Ok (h1, m1)
    /\ Audio.mergeChunks h1 [1; 2]%nat = Ok (h2, m2)
    /\ Audio.mergeChunks h2 [m1; m2] = Ok (h3, m)
    /\ Audio.mergeChunks [[1]; [1 # 2]; [1 # 4]] ([0%nat] ++ [1; 2]%nat)
       = Ok (h', all)
    /\ deref h3 m = deref h' all.
Proof.
  apply (@mergeChunks_in_stages [[1]; [1 # 2]; [1 # 4]] [0%nat] [1; 2]%nat).
  repeat constructor; unfold valid; simpl; lia.
Defined.

(** X4. Cutting a buffer into pieces and merging the pieces gives the buffer
    back: pieces stored one after the other merge to their concatenation, and
    the two parts of a buffer cut at any position merge to the buffer. *)
Theorem mergeChunks_of_pieces :
  (forall (h : heap) (pieces : list (list Q)),
     exists (h' : heap) (merged : ref),
       Audio.mergeChunks (h ++ pieces) (seq (length h) (length pieces))
       = Ok (h', merged)
       /\ deref h' merged = concat pieces)
  /\ (forall (h : heap) (x : list Q) (n : nat),
        exists (h' : heap) (merged : ref),
          Audio.mergeChunks (h ++ [firstn n x; skipn n x])
                            [length h; S (length h)]
          = Ok (h', merged)
          /\ deref h' merged = x).
Proof.
  assert (Hpieces : forall (h : heap) (pieces : list (list Q)),
             exists (h' : heap) (merged : ref),
               Audio.mergeChunks (h ++ pieces) (seq (length h) (length pieces))
               = Ok (h', merged)
               /\ deref h' merged = concat pieces).
  { intros h pieces. eexists _, _. split; [apply mergeChunks_eq|].
    now rewrite deref_app_new, deref_pieces. }
  split; [exact Hpieces|].
  intros h x n.
  destruct (Hpieces h [firstn n x; skipn n x]) as (h' & merged & Hrun & Hc).
  exists h', merged. split; [exact Hrun|].
  rewrite Hc. cbn [concat]. now rewrite app_nil_r, firstn_skipn.
Qed.

(** ** [resample]: what the interpolation preserves *)

Section ResampleShape.


Variable native : Q.
Hypothesis native_pos : 0 < native.




End ResampleShape.





(** X7. A constant signal stays constant: if every input sample equals [c],
    every output sample of [resample] equals [c]. *)
Theorem resample_keeps_constants :
  forall (this : Audio.Browser.t) (h : heap) (raw : ref) (c : Q),
    0 < Audio.Browser.nativeSampleRate this ->
    Forall (fun x => x == c) (deref h raw) ->
    exists out : list Q,
      Audio.Browser.resample this h raw = Ok (h ++ [out], length h)
      /\ Forall (fun y => y == c) out.
Proof.
  intros this h raw c Hpos Hconst.
  destruct (@resample_samples this h raw Hpos) as (out & Hrun & Hlen & Hnth).
  exists out. split; [exact Hrun|].
  apply Forall_forall. intros y Hy.
  destruct (In_nth _ _ 0 Hy) as (i & Hi & <-).
  rewrite (Hnth i Hi).
  assert (Hi' : (i < Z.to_nat
                   (Audio.Math_round
                      (inject_Z (Z.of_nat (length (deref h raw)))
                       * (16000 / Audio.Browser.nativeSampleRate this))))%nat)
    by (rewrite <- Hlen, Nat2Z.id; exact Hi).
  pose proof (@lo_in_bounds _ Hpos _ i Hi') as Hlo.
  rewrite Forall_forall in Hconst.
  unfold interpolation. cbv zeta.
  rewrite (Hconst (nth (Z.to_nat (Qfloor _)) (deref h raw) 0))
    by (apply nth_In; lia).
  rewrite (Hconst (nth (Z.to_nat (Z.min _ _)) (deref h raw) 0))
    by (apply nth_In; lia).
  ring.
Qed.

Lemma resample_keeps_constants_witness :
  exists out : list Q,
    Audio.Browser.resample
      (Audio.Browser.mk None None None None [] 48000)
      [[1 # 2; 1 # 2; 1 # 2]] 0%nat
    = Ok ([[1 # 2; 1 # 2; 1 # 2]] ++ [out], 1%nat)
    /\ Forall (fun y => y == 1 # 2) out.
Proof.
  apply (@resample_keeps_constants
           (Audio.Browser.mk None None None None [] 48000)
           [[1 # 2; 1 # 2; 1 # 2]] 0%nat (1 # 2)).
  - reflexivity.
  - repeat constructor.
Defined.

(** X8. Output length of [resample]: a native rate of 16000 Hz or more never
    lengthens the buffer, and a native rate that divides 16000 a whole number
    [k] of times gives exactly [k] samples per input sample. *)
Theorem resample_length :
  forall (this : Audio.Browser.t) (h : heap) (raw : ref),
    0 < Audio.Browser.nativeSampleRate this ->
    exists out : list Q,
      Audio.Browser.resample this h raw = Ok (h ++ [out], length h)
      /\ (16000 <= Audio.Browser.nativeSampleRate this ->
          (length out <= length (deref h raw))%nat)
      /\ (forall k : nat,
            inject_Z (Z.of_nat k) * Audio.Browser.nativeSampleRate this
            == 16000 ->
            length out = (k * length (deref h raw))%nat).
Proof.
  intros this h raw Hpos.
  destruct (@resample_samples this h raw Hpos) as (out & Hrun & Hlen & _).
  exists out. split; [exact Hrun|].
  set (native := Audio.Browser.nativeSampleRate this) in *.
  set (len := length (deref h raw)) in *.
  assert (Hnz : ~ native == 0) by lra.
  assert (Hlen0 : 0 <= inject_Z (Z.of_nat len)).
  { change 0 with (inject_Z 0). rewrite <- Zle_Qle. lia. }
  split.
  - intros Hdown.
    assert (Hratio : 16000 / native <= 1).
    { apply Qle_shift_div_r; [exact Hpos|]. lra. }
    assert (Hx : inject_Z (Z.of_nat len) * (16000 / native)
                 <= inject_Z (Z.of_nat len)).
    { rewrite <- (Qmult_1_r (inject_Z (Z.of_nat len))) at 2.
      rewrite !(Qmult_comm (inject_Z (Z.of_nat len))).
      apply Qmult_le_compat_r; assumption. }
    assert (Hround : (Audio.Math_round
                        (inject_Z (Z.of_nat len) * (16000 / native))
                      <= Z.of_nat len)%Z).
    { rewrite <- (Math_round_Z (Z.of_nat len)) at 2.
      unfold Audio.Math_round. apply Qfloor_resp_le. lra. }
    lia.
  - intros k Hk.
    assert (Hratio : 16000 / native == inject_Z (Z.of_nat k)).
    { rewrite <- Hk. field. exact Hnz. }
    assert (Hround : Audio.Math_round
                       (inject_Z (Z.of_nat len) * (16000 / native))
                     = (Z.of_nat k * Z.of_nat len)%Z).
    { rewrite <- Math_round_Z. apply Math_round_comp.
      rewrite Hratio, inject_Z_mult. ring. }
    lia.
Qed.

Lemma resample_length_witness :
  exists out : list Q,
    Audio.Browser.resample
      (Audio.Browser.mk None None None None [] 8000) [[1; 0]] 0%nat
    = Ok ([[1; 0]] ++ [out], 1%nat)
    /\ (16000 <= 8000 -> (length out <= 2)%nat)
    /\ (forall k : nat,
          inject_Z (Z.of_nat k) * 8000 == 16000 ->
          length out = (k * 2)%nat).
Proof.
  exact (@resample_length
           (Audio.Browser.mk None None None None [] 8000) [[1; 0]] 0%nat
           eq_refl).
Defined.



(** ** Sessions of the glasses backend *)

Section GlassesSessions.

Import Audio.

Lemma glasses_listener_idle (h : heap) (this : Glasses.t)
    (event : EvenHubEvent) :
  Glasses.recording this = false ->
  Glasses.listener h this event = Ok (h, this).
Proof.
  intros Hrec. unfold Glasses.listener. rewrite Hrec.
  now destruct (audioEvent event).
Qed.

Lemma glasses_dispatch_idle (ls : list nat) (h : heap) (this : Glasses.t)
    (event : EvenHubEvent) :
  Glasses.recording this = false ->
  Glasses.dispatch ls h this event = (h, this).
Proof.
  intros Hrec. induction ls as [|l rest IH]; simpl; [reflexivity|].
  now rewrite glasses_listener_idle.
Qed.

Lemma glasses_events_idle (events : list EvenHubEvent) (h : heap)
    (this : Glasses.t) :
  Glasses.recording this = false ->
  Glasses.run (h, this) (map Glasses.op_event events) = (h, this).
Proof.
  intros Hrec. induction events as [|event rest IH]; [reflexivity|].
  cbn [map Glasses.run fold_left Glasses.step].
  rewrite glasses_dispatch_idle by exact Hrec. exact IH.
Qed.

(** One event while recording with a single listener: the chunk list grows by
    what the frame converts to. *)
Lemma glasses_dispatch_recording (l : nat) (h : heap) (this : Glasses.t)
    (event : EvenHubEvent) :
  Glasses.recording this = true ->
  Forall (valid h) (Glasses.chunks this) ->
  let st := Glasses.dispatch [l] h this event in
  Glasses.recording (snd st) = true
  /\ Glasses.bridge (snd st) = Glasses.bridge this
  /\ Forall (valid (fst st)) (Glasses.chunks (snd st))
  /\ map (deref (fst st)) (Glasses.chunks (snd st))
     = map (deref h) (Glasses.chunks this) ++ frame_chunk event.
Proof.
  intros Hrec Hvalid. cbn [Glasses.dispatch].
  unfold Glasses.listener, frame_chunk. rewrite Hrec.
  destruct (audioEvent event) as [audioPcm|];
    [|cbn; rewrite app_nil_r; repeat split; assumption].
  destruct (Int16Array_view audioPcm) as [int16|e] eqn:Hview.
  - rewrite (pcmS16LEtoFloat32_view h _ Hview). cbn [bind fst snd].
    cbn [Glasses.recording Glasses.bridge Glasses.chunks].
    split; [reflexivity|]. split; [reflexivity|]. split.
    + apply Forall_app. split.
      * eapply Forall_impl; [|exact Hvalid].
        intros c Hc. unfold valid in *. rewrite length_app. simpl. lia.
      * repeat constructor. unfold valid. rewrite length_app. simpl. lia.
    + rewrite map_app. cbn [map]. rewrite deref_app_new. f_equal.
      apply map_ext_in. intros c Hc. apply deref_app_old.
      rewrite Forall_forall in Hvalid. now apply Hvalid.
  - unfold pcmS16LEtoFloat32. rewrite Hview. cbn.
    rewrite app_nil_r. repeat split; assumption.
Qed.

Lemma glasses_events_recording (l : nat) (events : list EvenHubEvent) :
  forall (h : heap) (this : Glasses.t),
    Glasses.recording this = true ->
    listeners (Glasses.bridge this) = [l] ->
    Forall (valid h) (Glasses.chunks this) ->
    let st := Glasses.run (h, this) (map Glasses.op_event events) in
    Forall (valid (fst st)) (Glasses.chunks (snd st))
    /\ map (deref (fst st)) (Glasses.chunks (snd st))
       = map (deref h) (Glasses.chunks this) ++ flat_map frame_chunk events.
Proof.
  induction events as [|event rest IH]; intros h this Hrec Hls Hvalid.
  - cbn. rewrite app_nil_r. split; [exact Hvalid|reflexivity].
  - cbn [map Glasses.run fold_left Glasses.step flat_map]. rewrite Hls.
    destruct (@glasses_dispatch_recording l h this event Hrec Hvalid)
      as (Hrec' & Hbridge & Hvalid' & Hmap).
    destruct (Glasses.dispatch [l] h this event) as [h' this'].
    cbn [fst snd] in *.
    destruct (IH h' this' Hrec' (eq_trans (f_equal listeners Hbridge) Hls)
                 Hvalid') as [Hv Hm].
    split; [exact Hv|].
    unfold Glasses.run in Hm. rewrite Hm, Hmap, app_assoc. reflexivity.
Qed.

(** A session from [start()]: the chunks merge to the converted frames. *)
Lemma glasses_session_merge (h : heap) (this : Glasses.t)
    (events : list EvenHubEvent) :
  listeners (Glasses.bridge this) = [] ->
  let st := Glasses.run (h, Glasses.start this)
              (map Glasses.op_event events) in
  mergeChunks (fst st) (Glasses.chunks (snd st))
  = Ok (fst st ++ [concat (flat_map frame_chunk events)], length (fst st)).
Proof.
  intros Hls st.
  assert (Hstart : Glasses.recording (Glasses.start this) = true
                   /\ listeners (Glasses.bridge (Glasses.start this))
                      = [issued (Glasses.bridge this)]
                   /\ Glasses.chunks (Glasses.start this) = []).
  { unfold Glasses.start, bridge_onEvenHubEvent. cbn.
    rewrite Hls. repeat split. }
  destruct Hstart as (Hrec & Hl & Hchunks).
  destruct (@glasses_events_recording _ events h (Glasses.start this)
              Hrec Hl) as [_ Hmap].
  { rewrite Hchunks. constructor. }
  rewrite Hchunks in Hmap. cbn [map app] in Hmap. fold st in Hmap.
  now rewrite mergeChunks_eq, Hmap.
Qed.

End GlassesSessions.

(** X10. A recording session of the glasses backend: after [start()] on an
    object whose bridge holds no listener yet, any sequence of bridge events
    and then [stop()] returns the converted frames one after the other in
    arrival order; events without audio and frames at an odd offset add
    nothing.  [getAudio()] at that point returns the same samples. *)
Theorem glasses_session_collects_frames :
  forall (h : heap) (this : Audio.Glasses.t)
         (events : list Audio.EvenHubEvent),
    Audio.listeners (Audio.Glasses.bridge this) = [] ->
    let st := Audio.Glasses.run (h, Audio.Glasses.start this)
                (map Audio.Glasses.op_event events) in
    (exists h' audio,
       snd (Audio.Glasses.stop (fst st) (snd st)) = Ok (h', audio)
       /\ deref h' audio = concat (flat_map frame_chunk events))
    /\ (exists h' audio,
          snd (Audio.Glasses.getAudio (fst st) (snd st)) = Ok (h', audio)
          /\ deref h' audio = concat (flat_map frame_chunk events)).
Proof.
  intros h this events Hls st.
  pose proof (@glasses_session_merge h this events Hls) as Hmerge.
  cbv zeta in Hmerge. fold st in Hmerge.
  unfold Audio.Glasses.stop, Audio.Glasses.getAudio.
  cbn [snd Audio.Glasses.chunks]. rewrite Hmerge.
  split; eexists _, _; (split; [reflexivity|]); apply deref_app_new.
Qed.

Lemma glasses_session_collects_frames_witness :
  exists h' audio,
    snd (Audio.Glasses.stop (fst glasses_session) (snd glasses_session))
    = Ok (h', audio)
    /\ deref h' audio = [inject_Z 16384 / 32768].
Proof.
  exact (proj1 (@glasses_session_collects_frames []
                  (Audio.Glasses.create Audio.new_bridge) [example_frame]
                  eq_refl)).
Defined.

(** X11. While the recording flag is off, bridge events change nothing:
    neither the chunk list nor the store.  The flag is off on a new object
    and after every [stop()], so frames that arrive late are dropped. *)
Theorem glasses_drops_frames_when_idle :
  (forall (h : heap) (this : Audio.Glasses.t)
          (events : list Audio.EvenHubEvent),
     Audio.Glasses.recording this = false ->
     Audio.Glasses.run (h, this) (map Audio.Glasses.op_event events)
     = (h, this))
  /\ (forall (h h1 : heap) (this : Audio.Glasses.t)
             (events : list Audio.EvenHubEvent),
        Audio.Glasses.run (h1, fst (Audio.Glasses.stop h this))
          (map Audio.Glasses.op_event events)
        = (h1, fst (Audio.Glasses.stop h this)))
  /\ (forall (h : heap) (b : Audio.EvenAppBridge)
             (events : list Audio.EvenHubEvent),
        Audio.Glasses.run (h, Audio.Glasses.create b)
          (map Audio.Glasses.op_event events)
        = (h, Audio.Glasses.create b)).
Proof.
  split; [|split].
  - intros h this events Hrec. now apply glasses_events_idle.
  - intros h h1 this events. now apply glasses_events_idle.
  - intros h b events. now apply glasses_events_idle.
Qed.

Lemma glasses_drops_frames_when_idle_witness :
  Audio.Glasses.run ([], Audio.Glasses.mk [] false (Some 0%nat)
                           (Audio.mkBridge [0%nat] 1 []))
    (map Audio.Glasses.op_event [example_frame; example_frame])
  = ([], Audio.Glasses.mk [] false (Some 0%nat) (Audio.mkBridge [0%nat] 1 [])).
Proof.
  exact (proj1 glasses_drops_frames_when_idle []
           (Audio.Glasses.mk [] false (Some 0%nat)
              (Audio.mkBridge [0%nat] 1 []))
           [example_frame; example_frame] eq_refl).
Defined.

(** X12. [getAudio()] is a read: in any state the glasses backend can reach,
    it returns the object unchanged, asking again returns the same samples,
    a following [stop()] returns them too, and the array handed out first is
    not altered by the later calls. *)
Theorem glasses_getAudio_repeatable :
  forall (b : Audio.EvenAppBridge) (h0 : heap) (ops : list Audio.Glasses.op),
    let st := Audio.Glasses.run (h0, Audio.Glasses.create b) ops in
    exists (h1 : heap) (a1 : ref) (h2 : heap) (a2 : ref) (h3 : heap)
           (a3 : ref),
      Audio.Glasses.getAudio (fst st) (snd st) = (snd st, Ok (h1, a1))
      /\ Audio.Glasses.getAudio h1 (snd st) = (snd st, Ok (h2, a2))
      /\ snd (Audio.Glasses.stop h2 (snd st)) = Ok (h3, a3)
      /\ deref h2 a2 = deref h1 a1
      /\ deref h3 a3 = deref h1 a1
      /\ deref h3 a1 = deref h1 a1.
Proof.
  intros b h0 ops st.
  assert (Hs : sound (fst st) (Audio.Glasses.chunks (snd st))).
  { apply glasses_run_sound. constructor. }
  destruct st as [h this]. cbn [fst snd] in *.
  set (A := concat (map (deref h) (Audio.Glasses.chunks this))).
  assert (Hs1 : sound (h ++ [A]) (Audio.Glasses.chunks this))
    by now apply sound_grow.
  assert (Hkeep : forall (g : heap) (x : list Q),
             sound g (Audio.Glasses.chunks this) ->
             map (deref (g ++ [x])) (Audio.Glasses.chunks this)
             = map (deref g) (Audio.Glasses.chunks this)).
  { intros g x Hg. apply map_ext_in. intros c Hc. apply deref_app_old.
    unfold sound in Hg. rewrite Forall_forall in Hg. now apply Hg. }
  exists (h ++ [A]), (length h), ((h ++ [A]) ++ [A]), (length (h ++ [A])),
         (((h ++ [A]) ++ [A]) ++ [A]), (length ((h ++ [A]) ++ [A])).
  unfold Audio.Glasses.getAudio, Audio.Glasses.stop.
  cbn [snd Audio.Glasses.chunks]. rewrite !mergeChunks_eq.
  rewrite (Hkeep (h ++ [A]) A Hs1), (Hkeep h A Hs). fold A.
  repeat split.
  - now rewrite !deref_app_new.
  - now rewrite !deref_app_new.
  - rewrite (@deref_app_old ((h ++ [A]) ++ [A]) A (length h))
      by (unfold valid; rewrite !length_app; simpl; lia).
    rewrite (@deref_app_old (h ++ [A]) A (length h))
      by (unfold valid; rewrite !length_app; simpl; lia).
    reflexivity.
Qed.

(** ** Sessions of the browser backend *)

Section BrowserSessions.

Import Audio.

Lemma browser_blocks (blocks : list (list Q)) :
  forall (h : heap) (this : Browser.t),
    Forall (valid h) (Browser.chunks this) ->
    let st := Browser.run (h, this) (map Browser.op_audioprocess blocks) in
    Forall (valid (fst st)) (Browser.chunks (snd st))
    /\ map (deref (fst st)) (Browser.chunks (snd st))
       = map (deref h) (Browser.chunks this) ++ blocks
    /\ Browser.nativeSampleRate (snd st) = Browser.nativeSampleRate this.
Proof.
  induction blocks as [|input rest IH]; intros h this Hvalid.
  - cbn. rewrite app_nil_r. repeat split. exact Hvalid.
  - cbn [map Browser.run fold_left Browser.step].
    unfold Browser.onaudioprocess, alloc.
    set (this' := Browser.mk _ _ _ _ _ _).
    assert (Hvalid' : Forall (valid (h ++ [input])) (Browser.chunks this')).
    { unfold this'. cbn [Browser.chunks]. apply Forall_app. split.
      - eapply Forall_impl; [|exact Hvalid].
        intros c Hc. unfold valid in *. rewrite length_app. simpl. lia.
      - repeat constructor. unfold valid. rewrite length_app. simpl. lia. }
    destruct (IH (h ++ [input]) this' Hvalid') as (Hv & Hm & Hr).
    split; [exact Hv|]. split; [|exact Hr].
    unfold Browser.run in Hm. rewrite Hm.
    unfold this'. cbn [Browser.chunks].
    rewrite map_app. cbn [map]. rewrite deref_app_new, <- app_assoc.
    f_equal. apply map_ext_in. intros c Hc. apply deref_app_old.
    rewrite Forall_forall in Hvalid. now apply Hvalid.
Qed.

(** The samples [resample] returns depend on the samples it is given and on
    the native rate, not on where they are stored. *)
Lemma resample_of_samples (this : Browser.t) (h g : heap) (raw raw' : ref) :
  deref h raw = deref g raw' ->
  match Browser.resample this h raw with
  | Ok (h', out) =>
      h' = h ++ [deref h' out] /\ out = length h
      /\ Browser.resample this g raw'
         = Ok (g ++ [deref h' out], length g)
  | Throw e => Browser.resample this g raw' = Throw e
  end.
Proof.
  intros Hsame. unfold Browser.resample. rewrite <- Hsame.
  destruct (Qeq_bool _ _).
  - unfold alloc. now rewrite deref_app_new.
  - destruct (_ <? 0)%Z; [reflexivity|].
    destruct (for_loop _ _ _ _) as [out|e]; cbn [bind]; [|reflexivity].
    unfold alloc. now rewrite deref_app_new.
Qed.

End BrowserSessions.

(** X13. A recording session of the browser backend: after [init()]
    succeeds and [start()], the delivered blocks are kept one chunk each, in
    the order of their arrival, and the object runs at the rate of the
    device.  [stop()] hands their concatenation to [resample] and returns
    what [resample] returns on it; at a device rate of 16000 Hz that is the
    concatenation itself.  A [stop()] that returns has dropped the audio
    context and both graph nodes. *)
Theorem browser_session_resamples_blocks :
  forall (h : heap) (this : Audio.Browser.t) (s : nat) (deviceRate : Q)
         (blocks : list (list Q)),
    let st := Audio.Browser.run (h, this)
                (Audio.Browser.op_init (Ok s)
                 :: Audio.Browser.op_start deviceRate
                 :: map Audio.Browser.op_audioprocess blocks) in
    map (deref (fst st)) (Audio.Browser.chunks (snd st)) = blocks
    /\ Audio.Browser.nativeSampleRate (snd st) = deviceRate
    /\ snd (Audio.Browser.stop (fst st) (snd st))
       = Audio.Browser.resample (snd st) (fst st ++ [concat blocks])
           (length (fst st))
    /\ (deviceRate == 16000 ->
        exists (h' : heap) (audio : ref),
          snd (Audio.Browser.stop (fst st) (snd st)) = Ok (h', audio)
          /\ deref h' audio = concat blocks)
    /\ (forall r : heap * ref,
          snd (Audio.Browser.stop (fst st) (snd st)) = Ok r ->
          Audio.Browser.audioCtx (fst (Audio.Browser.stop (fst st) (snd st)))
          = None
          /\ Audio.Browser.processorNode
               (fst (Audio.Browser.stop (fst st) (snd st)))
             = None
          /\ Audio.Browser.sourceNode
               (fst (Audio.Browser.stop (fst st) (snd st)))
             = None).
Proof.
  intros h this s deviceRate blocks st.
  set (started := Audio.Browser.mk (Some s)
                    (Some (Audio.Browser.mkContext deviceRate false))
                    (Some (Audio.Browser.mkNode true))
                    (Some (Audio.Browser.mkNode true)) [] deviceRate).
  assert (Hst : st = Audio.Browser.run (h, started)
                       (map Audio.Browser.op_audioprocess blocks))
    by reflexivity.
  destruct (@browser_blocks blocks h started) as (Hvalid & Hmap & Hrate);
    [constructor|].
  rewrite <- Hst in Hvalid, Hmap, Hrate. clear Hst.
  unfold started in Hmap, Hrate. clear started.
  destruct st as [h1 this1]. cbn [fst snd] in *.
  cbn [Audio.Browser.chunks Audio.Browser.nativeSampleRate map app] in *.
  split; [exact Hmap|]. split; [exact Hrate|].
  assert (Hstop : snd (Audio.Browser.stop h1 this1)
                  = Audio.Browser.resample this1 (h1 ++ [concat blocks])
                      (length h1)
                  /\ forall r : heap * ref,
                       snd (Audio.Browser.stop h1 this1) = Ok r ->
                       Audio.Browser.audioCtx
                         (fst (Audio.Browser.stop h1 this1)) = None
                       /\ Audio.Browser.processorNode
                            (fst (Audio.Browser.stop h1 this1)) = None
                       /\ Audio.Browser.sourceNode
                            (fst (Audio.Browser.stop h1 this1)) = None).
  { unfold Audio.Browser.stop. cbv zeta.
    cbn [Audio.Browser.chunks Audio.Browser.nativeSampleRate
         Audio.Browser.stream Audio.Browser.audioCtx].
    rewrite mergeChunks_eq, Hmap. cbn [bind fst snd].
    change (Audio.Browser.resample
              (Audio.Browser.mk (Audio.Browser.stream this1)
                 (Audio.Browser.audioCtx this1) None None
                 (Audio.Browser.chunks this1)
                 (Audio.Browser.nativeSampleRate this1))
              (h1 ++ [concat blocks]) (length h1))
      with (Audio.Browser.resample this1 (h1 ++ [concat blocks]) (length h1)).
    destruct (Audio.Browser.resample this1 (h1 ++ [concat blocks]) (length h1))
      as [audio|e]; cbn [fst snd].
    - split; [reflexivity|]. intros _ _. repeat split.
    - split; [reflexivity|]. intros r Hr. discriminate Hr. }
  destruct Hstop as [Hstop Hdrop].
  split; [exact Hstop|]. split; [|exact Hdrop].
  intros H16. rewrite Hstop.
  assert (Hcopy := @resample_copying this1 (h1 ++ [concat blocks])
                     (length h1)).
  rewrite Hrate, (Qeq_eq_bool _ _ H16), deref_app_new in Hcopy.
  rewrite (Hcopy eq_refl).
  eexists _, _. split; [reflexivity|]. apply deref_app_new.
Qed.

Lemma browser_session_resamples_blocks_witness :
  (exists (h' : heap) (audio : ref),
     snd (Audio.Browser.stop
            (fst (Audio.Browser.run ([], Audio.Browser.create)
                    [Audio.Browser.op_init (Ok 0%nat);
                     Audio.Browser.op_start 16000;
                     Audio.Browser.op_audioprocess [1 # 2; 1 # 4];
                     Audio.Browser.op_audioprocess [-1 # 2]]))
            (snd (Audio.Browser.run ([], Audio.Browser.create)
                    [Audio.Browser.op_init (Ok 0%nat);
                     Audio.Browser.op_start 16000;
                     Audio.Browser.op_audioprocess [1 # 2; 1 # 4];
                     Audio.Browser.op_audioprocess [-1 # 2]])))
     = Ok (h', audio)
     /\ deref h' audio = [1 # 2; 1 # 4; -1 # 2])
  /\ map (deref
            (fst (Audio.Browser.run ([], Audio.Browser.create)
                    [Audio.Browser.op_init (Ok 0%nat);
                     Audio.Browser.op_start 48000;
                     Audio.Browser.op_audioprocess [1 # 2; 1 # 4];
                     Audio.Browser.op_audioprocess [-1 # 2]])))
         (Audio.Browser.chunks
            (snd (Audio.Browser.run ([], Audio.Browser.create)
                    [Audio.Browser.op_init (Ok 0%nat);
                     Audio.Browser.op_start 48000;
                     Audio.Browser.op_audioprocess [1 # 2; 1 # 4];
                     Audio.Browser.op_audioprocess [-1 # 2]])))
     = [[1 # 2; 1 # 4]; [-1 # 2]]
  /\ (exists (h' : heap) (audio : ref),
        snd (Audio.Browser.stop
               (fst (Audio.Browser.run ([], Audio.Browser.create)
                       [Audio.Browser.op_init (Ok 0%nat);
                        Audio.Browser.op_start 48000;
                        Audio.Browser.op_audioprocess [1 # 2; 1 # 4];
                        Audio.Browser.op_audioprocess [-1 # 2]]))
               (snd (Audio.Browser.run ([], Audio.Browser.create)
                       [Audio.Browser.op_init (Ok 0%nat);
                        Audio.Browser.op_start 48000;
                        Audio.Browser.op_audioprocess [1 # 2; 1 # 4];
                        Audio.Browser.op_audioprocess [-1 # 2]])))
        = Ok (h', audio)
        /\ map Qred (deref h' audio) = [1 # 2]).
Proof.
  split; [|split].
  - exact (proj1 (proj2 (proj2 (proj2
             (@browser_session_resamples_blocks [] Audio.Browser.create 0%nat
                16000 [[1 # 2; 1 # 4]; [-1 # 2]]))))
             (Qeq_refl 16000)).
  - exact (proj1
             (@browser_session_resamples_blocks [] Audio.Browser.create 0%nat
                48000 [[1 # 2; 1 # 4]; [-1 # 2]])).
  - pose proof (proj1 (proj2 (proj2
                  (@browser_session_resamples_blocks [] Audio.Browser.create
                     0%nat 48000 [[1 # 2; 1 # 4]; [-1 # 2]])))) as Hstop.
    eexists _, _.
    split; [etransitivity; [exact Hstop|reflexivity]|reflexivity].
Defined.

(** X14. [getAudio()] of the browser backend is a read: in any state reached
    while the platform keeps to positive rates and samples in [[-1, 1]], it
    returns the object unchanged, and a [stop()] that follows returns the
    same samples as the [getAudio()] before it. *)
Theorem browser_getAudio_then_stop :
  forall (h0 : heap) (ops : list Audio.Browser.op),
    Forall Audio.Browser.nominal ops ->
    let st := Audio.Browser.run (h0, Audio.Browser.create) ops in
    exists (h1 : heap) (a1 : ref) (h2 : heap) (a2 : ref),
      Audio.Browser.getAudio (fst st) (snd st) = (snd st, Ok (h1, a1))
      /\ snd (Audio.Browser.stop h1 (snd st)) = Ok (h2, a2)
      /\ deref h2 a2 = deref h1 a1
      /\ deref h2 a1 = deref h1 a1.
Proof.
  intros h0 ops Hnom st.
  assert (Hok : browser_ok st).
  { apply browser_run_ok; [exact Hnom|]. split; [constructor|reflexivity]. }
  destruct st as [h this]. destruct Hok as [Hs Hpos]. cbn [fst snd] in *.
  set (A := concat (map (deref h) (Audio.Browser.chunks this))).
  destruct (@resample_samples this (h ++ [A]) (length h) Hpos)
    as (out & Hrun & _ & _).
  set (h1 := (h ++ [A]) ++ [out]).
  assert (Hs1 : sound h1 (Audio.Browser.chunks this))
    by (unfold h1; now do 2 apply sound_grow).
  assert (HA1 : concat (map (deref h1) (Audio.Browser.chunks this)) = A).
  { unfold A. f_equal. apply map_ext_in. intros c Hc.
    unfold sound in Hs. rewrite Forall_forall in Hs.
    destruct (Hs c Hc) as [Hv _].
    unfold h1. rewrite !deref_app_old; [reflexivity|exact Hv|].
    unfold valid in *. rewrite length_app. simpl. lia. }
  set (stopping := Audio.Browser.mk (Audio.Browser.stream this)
                     (Audio.Browser.audioCtx this) None None
                     (Audio.Browser.chunks this)
                     (Audio.Browser.nativeSampleRate this)).
  pose proof (@resample_of_samples this (h ++ [A]) (h1 ++ [A]) (length h)
                (length h1)) as Hdep.
  rewrite !deref_app_new in Hdep. specialize (Hdep eq_refl).
  rewrite Hrun in Hdep. destruct Hdep as (_ & _ & Hrun2).
  rewrite deref_app_new in Hrun2.
  exists h1, (length (h ++ [A])), ((h1 ++ [A]) ++ [out]), (length (h1 ++ [A])).
  split.
  { unfold Audio.Browser.getAudio. rewrite mergeChunks_eq. cbn [bind fst snd].
    fold A. rewrite Hrun. reflexivity. }
  split.
  { unfold Audio.Browser.stop. cbv zeta. cbn [Audio.Browser.chunks].
    rewrite mergeChunks_eq, HA1. cbn [bind fst snd].
    change (Audio.Browser.resample
              (Audio.Browser.mk (Audio.Browser.stream this)
                 (Audio.Browser.audioCtx this) None None
                 (Audio.Browser.chunks this)
                 (Audio.Browser.nativeSampleRate this))
              (h1 ++ [A]) (length h1))
      with (Audio.Browser.resample this (h1 ++ [A]) (length h1)).
    rewrite Hrun2. reflexivity. }
  split.
  { rewrite deref_app_new. unfold h1. now rewrite deref_app_new. }
  assert (Ha1 : deref h1 (length (h ++ [A])) = out)
    by (unfold h1; apply deref_app_new).
  rewrite Ha1.
  rewrite (@deref_app_old (h1 ++ [A]) out (length (h ++ [A])))
    by (unfold h1, valid; rewrite !length_app; simpl; lia).
  rewrite (@deref_app_old h1 A (length (h ++ [A])))
    by (unfold h1, valid; rewrite !length_app; simpl; lia).
  exact Ha1.
Qed.

Lemma browser_getAudio_then_stop_witness :
  exists (h1 : heap) (a1 : ref) (h2 : heap) (a2 : ref),
    Audio.Browser.getAudio (fst browser_session) (snd browser_session)
    = (snd browser_session, Ok (h1, a1))
    /\ snd (Audio.Browser.stop h1 (snd browser_session)) = Ok (h2, a2)
    /\ deref h2 a2 = deref h1 a1
    /\ deref h2 a1 = deref h1 a1.
Proof.
  apply (@browser_getAudio_then_stop []
           [Audio.Browser.op_init (Ok 0%nat); Audio.Browser.op_start 16000;
            Audio.Browser.op_audioprocess [1 # 2]]).
  repeat constructor; simpl; unfold Qle; simpl; lia.
Defined.

(** ** The worker, request by request *)

Section WorkerRequests.

Import Worker.

Ltac req_norm :=
  unfold view, responses, invocations;
  cbn [finish suspend postMessage tasks posted invoked transcriber received];
  repeat first
    [ rewrite find_task_filter | rewrite find_task_app
    | rewrite filter_app | rewrite map_app ];
  cbn [find_task filter map fst snd app].

Ltac req_cases id :=
  repeat match goal with
    | |- context [Nat.eqb ?i id] =>
        destruct (Nat.eqb_spec i id); try subst; try congruence; try lia
    end.

(** One step seen from request [id]: a step of another request changes
    nothing, a step of its own changes what [react] says. *)
Lemma step_react (id : nat) (st : state) (ev : event) :
  (id < received st)%nat ->
  view id (step st ev)
  = if targets id ev then react (view id st) ev else view id st.
Proof.
  intros Hid.
  destruct ev as [req|i p|i p|i m|i e|i r|i e]; cbn [step targets].
  - unfold onmessage. destruct req as [|audio];
      [|cbn [transcriber]; destruct (transcriber st) as [m|]];
      req_norm; req_cases id; rewrite ?app_nil_r;
      try (now destruct (find_task id (tasks st))).
  - destruct (Nat.eqb_spec i id) as [->|Hne].
    + unfold view at 2.
      destruct (find_task id (tasks st)) as [[| |]|] eqn:Hi;
        cbn [react]; try (unfold view; rewrite Hi; reflexivity).
      req_norm. rewrite Nat.eqb_refl. cbn [map snd]. reflexivity.
    + destruct (find_task i (tasks st)) as [[| |]|] eqn:Hi; try reflexivity.
      req_norm. req_cases id. rewrite app_nil_r.
      now destruct (find_task id (tasks st)).
  - destruct (Nat.eqb_spec i id) as [->|Hne].
    + unfold view at 2.
      destruct (find_task id (tasks st)) as [[| |]|] eqn:Hi;
        cbn [react]; try (unfold view; rewrite Hi; reflexivity).
      req_norm. rewrite Nat.eqb_refl, Hi. cbn [map snd]. reflexivity.
    + destruct (find_task i (tasks st)) as [[| |]|] eqn:Hi; try reflexivity.
      req_norm. req_cases id. now rewrite app_nil_r.
  - destruct (Nat.eqb_spec i id) as [->|Hne].
    + unfold view at 2.
      destruct (find_task id (tasks st)) as [[| |]|] eqn:Hi;
        cbn [react]; try (unfold view; rewrite Hi; reflexivity).
      req_norm. rewrite Nat.eqb_refl. cbn [map snd]. reflexivity.
    + destruct (find_task i (tasks st)) as [[| |]|] eqn:Hi; try reflexivity.
      req_norm. req_cases id. now rewrite app_nil_r.
  - destruct (Nat.eqb_spec i id) as [->|Hne].
    + unfold view at 2.
      destruct (find_task id (tasks st)) as [[| |]|] eqn:Hi;
        cbn [react]; try (unfold view; rewrite Hi; reflexivity).
      req_norm. rewrite Nat.eqb_refl. cbn [map snd]. reflexivity.
    + destruct (find_task i (tasks st)) as [[| |]|] eqn:Hi; try reflexivity.
      req_norm. req_cases id. now rewrite app_nil_r.
  - destruct (Nat.eqb_spec i id) as [->|Hne].
    + unfold view at 2.
      destruct (find_task id (tasks st)) as [[| |]|] eqn:Hi;
        cbn [react]; try (unfold view; rewrite Hi; reflexivity).
      destruct (result_text r); req_norm; rewrite Nat.eqb_refl;
        cbn [map snd]; reflexivity.
    + destruct (find_task i (tasks st)) as [[| |]|] eqn:Hi; try reflexivity.
      destruct (result_text r); req_norm; req_cases id;
        now rewrite app_nil_r.
  - destruct (Nat.eqb_spec i id) as [->|Hne].
    + unfold view at 2.
      destruct (find_task id (tasks st)) as [[| |]|] eqn:Hi;
        cbn [react]; try (unfold view; rewrite Hi; reflexivity).
      req_norm. rewrite Nat.eqb_refl. cbn [map snd]. reflexivity.
    + destruct (find_task i (tasks st)) as [[| |]|] eqn:Hi; try reflexivity.
      req_norm. req_cases id. now rewrite app_nil_r.
Qed.

Lemma run_react (id : nat) (evs : list event) :
  forall st,
    (id < received st)%nat ->
    view id (run st evs)
    = fold_left react (filter (targets id) evs) (view id st).
Proof.
  induction evs as [|ev rest IH]; intros st Hid; [reflexivity|].
  cbn [run fold_left filter]. fold (run (step st ev) rest).
  rewrite IH by (pose proof (received_step st ev); lia).
  rewrite step_react by exact Hid.
  now destruct (targets id ev).
Qed.

End WorkerRequests.

Section WorkerProtocol.

Import Worker.

(** What a request looks like when its message has just been handled. *)
Lemma message_view (st : state) (req : WorkerRequest) :
  tidy st ->
  view (received st) (step st (Message req))
  = match req with
    | load => (Some Detecting, [], [])
    | transcribe audio =>
        match transcriber st with
        | None => (None, [msg_error "Model not loaded"], [])
        | Some m => (Some (Inferring m audio), [], [(m, audio)])
        end
    end.
Proof.
  intros Htidy. specialize (Htidy (received st) (Nat.le_refl _)).
  unfold view in Htidy. injection Htidy as Ht Hr Hi.
  unfold responses in Hr. unfold invocations in Hi.
  cbn [step]. unfold onmessage. destruct req as [|audio];
    [|cbn [transcriber]; destruct (transcriber st) as [m|]];
    unfold view, responses, invocations;
    cbn [suspend postMessage tasks posted invoked];
    rewrite ?find_task_app, ?filter_app, ?map_app, ?Ht, ?Hr, ?Hi;
    cbn [find_task filter fst map snd app];
    rewrite ?Nat.eqb_refl; reflexivity.
Qed.

Lemma message_received (st : state) (req : WorkerRequest) :
  received (step st (Message req)) = S (received st).
Proof.
  cbn [step]. unfold onmessage. destruct req; [reflexivity|].
  cbn [transcriber]. now destruct (transcriber st).
Qed.

Lemma react_progress (ps : list progress_info) (id : nat) (d : device) :
  forall (rs : list WorkerResponse) (calls : list (pipeline * list Q)),
    fold_left react (map (ProgressCallback id) ps) (Some (Creating d), rs, calls)
    = (Some (Creating d), rs ++ map progress_response ps, calls).
Proof.
  induction ps as [|p rest IH]; intros rs calls; cbn [map fold_left react].
  - now rewrite app_nil_r.
  - rewrite IH, <- app_assoc. reflexivity.
Qed.

(** A load request up to the moment [create(..)] settles. *)
Lemma load_in_progress (st : state) (mid : list event) (probe : gpu_probe)
    (ps : list progress_info) :
  tidy st ->
  filter (targets (received st)) mid
  = DeviceDetected (received st) probe
    :: map (ProgressCallback (received st)) ps ->
  view (received st) (run (step st (Message load)) mid)
  = (Some (Creating (detectDevice probe)),
     msg_progress "initiate"
       (Some ("device: " ++ device_name (detectDevice probe))%string) None
     :: map progress_response ps,
     []).
Proof.
  intros Htidy Hmid.
  rewrite run_react by (rewrite message_received; lia).
  rewrite Hmid, (@message_view st load Htidy).
  cbn [fold_left react]. now rewrite react_progress.
Qed.

End WorkerProtocol.

(** X15. Requests do not interfere: the responses posted for a request, and
    the pipeline calls made for it, depend only on the events of that
    request.  Two continuations of a history that contain the same events
    for a request received earlier, in the same order, give it the same
    responses and the same calls, whatever else is interleaved. *)
Theorem worker_requests_independent :
  forall (st : Worker.state) (evs evs' : list Worker.event) (id : nat),
    (id < Worker.received st)%nat ->
    filter (targets id) evs = filter (targets id) evs' ->
    Worker.responses id (Worker.run st evs)
    = Worker.responses id (Worker.run st evs')
    /\ Worker.invocations id (Worker.run st evs)
       = Worker.invocations id (Worker.run st evs').
Proof.
  intros st evs evs' id Hid Hsame.
  assert (Hview : Worker.view id (Worker.run st evs)
                  = Worker.view id (Worker.run st evs')).
  { rewrite !run_react by exact Hid. now rewrite Hsame. }
  unfold Worker.view in Hview. now injection Hview.
Qed.

Lemma worker_requests_independent_witness :
  Worker.responses 0
    (Worker.run (Worker.step Worker.initial (Worker.Message Worker.load))
       [Worker.Message (Worker.transcribe [1 # 2]);
        Worker.DeviceDetected 0 Worker.NoGpu])
  = Worker.responses 0
      (Worker.run (Worker.step Worker.initial (Worker.Message Worker.load))
         [Worker.DeviceDetected 0 Worker.NoGpu; Worker.Message Worker.load]).
Proof.
  refine (proj1 (@worker_requests_independent
                   (Worker.step Worker.initial (Worker.Message Worker.load))
                   [Worker.Message (Worker.transcribe [1 # 2]);
                    Worker.DeviceDetected 0 Worker.NoGpu]
                   [Worker.DeviceDetected 0 Worker.NoGpu;
                    Worker.Message Worker.load]
                   0%nat _ eq_refl)).
  simpl. lia.
Defined.

(** X16. A load that succeeds: the handler posts the [initiate] progress
    naming the detected device, then one progress response per callback in
    order, then, when [create(..)] resolves, the single [ready] response
    with that device; it assigns the new pipeline to [transcriber] and calls
    no pipeline. *)
Theorem load_success :
  forall (before mid : list Worker.event) (probe : Worker.gpu_probe)
         (ps : list Worker.progress_info) (m : Worker.pipeline),
    let st := Worker.run Worker.initial before in
    let id := Worker.received st in
    let st1 := Worker.run (Worker.step st (Worker.Message Worker.load)) mid in
    let st2 := Worker.step st1 (Worker.CreateResolved id m) in
    let device := Worker.device_name (Worker.detectDevice probe) in
    filter (targets id) mid
    = Worker.DeviceDetected id probe :: map (Worker.ProgressCallback id) ps ->
    Worker.responses id st2
    = Worker.msg_progress "initiate" (Some ("device: " ++ device)%string) None
      :: map progress_response ps ++ [Worker.msg_ready device]
    /\ Worker.transcriber st2 = Some m
    /\ Worker.find_task id (Worker.tasks st2) = None
    /\ Worker.invocations id st2 = [].
Proof.
  intros before mid probe ps m st id st1 st2 device Hmid.
  assert (Htidy : Worker.tidy st) by apply (tidy_run before tidy_initial).
  pose proof (@load_in_progress st mid probe ps Htidy Hmid) as Hview1.
  fold id st1 in Hview1.
  assert (Hid1 : (id < Worker.received st1)%nat).
  { pose proof (received_run mid
                  (Worker.step st (Worker.Message Worker.load))) as Hle.
    rewrite message_received in Hle. exact Hle. }
  pose proof (@step_react id st1 (Worker.CreateResolved id m) Hid1) as Hview2.
  cbn [targets] in Hview2. rewrite Nat.eqb_refl, Hview1 in Hview2.
  cbn [react] in Hview2. fold st2 in Hview2.
  unfold Worker.view in Hview2. injection Hview2 as Ht Hr Hi.
  split; [exact Hr|]. split; [|split; assumption].
  unfold Worker.view in Hview1. injection Hview1 as Ht1 _ _.
  unfold st2. cbn [Worker.step]. now rewrite Ht1.
Qed.

Lemma load_success_witness :
  Worker.responses 0
    (Worker.step
       (Worker.run (Worker.step Worker.initial (Worker.Message Worker.load))
          [Worker.DeviceDetected 0 (Worker.Adapter true);
           Worker.ProgressCallback 0
             (Worker.mkProgress (Some "download"%string)
                (Some "model.onnx"%string)
                (Some 50))])
       (Worker.CreateResolved 0 7%nat))
  = [Worker.msg_progress "initiate" (Some "device: webgpu"%string) None;
     Worker.msg_progress "download" (Some "model.onnx"%string) (Some 50);
     Worker.msg_ready "webgpu"].
Proof.
  exact (proj1 (@load_success []
                  [Worker.DeviceDetected 0 (Worker.Adapter true);
                   Worker.ProgressCallback 0
                     (Worker.mkProgress (Some "download"%string)
                (Some "model.onnx"%string)
                        (Some 50))]
                  (Worker.Adapter true)
                  [Worker.mkProgress (Some "download"%string)
                (Some "model.onnx"%string)
                     (Some 50)]
                  7%nat eq_refl)).
Defined.

(** X17. A load that fails: when [create(..)] rejects, the handler posts the
    single response [error "Model load failed: ..."] after the progress
    responses, no [ready], and does not touch [transcriber]: a pipeline
    loaded earlier stays in place. *)
Theorem load_failure :
  forall (before mid : list Worker.event) (probe : Worker.gpu_probe)
         (ps : list Worker.progress_info) (err : exn),
    let st := Worker.run Worker.initial before in
    let id := Worker.received st in
    let st1 := Worker.run (Worker.step st (Worker.Message Worker.load)) mid in
    let st2 := Worker.step st1 (Worker.CreateRejected id err) in
    let device := Worker.device_name (Worker.detectDevice probe) in
    filter (targets id) mid
    = Worker.DeviceDetected id probe :: map (Worker.ProgressCallback id) ps ->
    Worker.responses id st2
    = Worker.msg_progress "initiate" (Some ("device: " ++ device)%string) None
      :: map progress_response ps
         ++ [Worker.msg_error
               ("Model load failed: " ++ Worker.exn_string err)]
    /\ Worker.transcriber st2 = Worker.transcriber st1
    /\ Worker.find_task id (Worker.tasks st2) = None.
Proof.
  intros before mid probe ps err st id st1 st2 device Hmid.
  assert (Htidy : Worker.tidy st) by apply (tidy_run before tidy_initial).
  pose proof (@load_in_progress st mid probe ps Htidy Hmid) as Hview1.
  fold id st1 in Hview1.
  assert (Hid1 : (id < Worker.received st1)%nat).
  { pose proof (received_run mid
                  (Worker.step st (Worker.Message Worker.load))) as Hle.
    rewrite message_received in Hle. exact Hle. }
  pose proof (@step_react id st1 (Worker.CreateRejected id err) Hid1) as Hview2.
  cbn [targets] in Hview2. rewrite Nat.eqb_refl, Hview1 in Hview2.
  cbn [react] in Hview2. fold st2 in Hview2.
  unfold Worker.view in Hview2. injection Hview2 as Ht Hr Hi.
  split; [exact Hr|]. split; [|exact Ht].
  unfold st2. now apply step_transcriber.
Qed.

Lemma load_failure_witness :
  Worker.responses 0
    (Worker.step
       (Worker.run (Worker.step Worker.initial (Worker.Message Worker.load))
          [Worker.DeviceDetected 0 Worker.ProbeThrows])
       (Worker.CreateRejected 0 (Error "fetch failed")))
  = [Worker.msg_progress "initiate" (Some "device: wasm"%string) None;
     Worker.msg_error "Model load failed: fetch failed"].
Proof.
  exact (proj1 (@load_failure [] [Worker.DeviceDetected 0 Worker.ProbeThrows]
                  Worker.ProbeThrows [] (Error "fetch failed") eq_refl)).
Defined.

(** X18. A transcription that succeeds with an ASCII text: with a pipeline
    loaded the request calls it once with the audio of the request, and when
    the call resolves with a result object, or an array of them, whose
    (first) text is made of ASCII characters, the handler posts the single
    response [result] with that text trimmed of the white space of ASCII at
    both ends. *)
Theorem transcribe_success :
  forall (before mid : list Worker.event) (audio : list Q)
         (m : Worker.pipeline) (r : Worker.output) (text : string),
    let st := Worker.run Worker.initial before in
    let id := Worker.received st in
    let st1 :=
      Worker.run (Worker.step st (Worker.Message (Worker.transcribe audio)))
                 mid in
    let st2 := Worker.step st1 (Worker.InferenceResolved id r) in
    Worker.transcriber st = Some m ->
    filter (targets id) mid = [] ->
    (r = Worker.Single text \/ exists others, r = Worker.Many (text :: others)) ->
    ascii_text text = true ->
    Worker.responses id st2 = [Worker.msg_result (Worker.trim text)]
    /\ Worker.invocations id st2 = [(m, audio)]
    /\ Worker.find_task id (Worker.tasks st2) = None
    /\ Worker.transcriber st2 = Worker.transcriber st1.
Proof.
  intros before mid audio m r text st id st1 st2 Hm Hmid Hr _.
  assert (Htidy : Worker.tidy st) by apply (tidy_run before tidy_initial).
  assert (Hview1 : Worker.view id st1
                   = (Some (Worker.Inferring m audio), [], [(m, audio)])).
  { unfold st1. rewrite run_react by (rewrite message_received; unfold id; lia).
    rewrite Hmid. cbn [fold_left].
    unfold id. rewrite (@message_view st (Worker.transcribe audio) Htidy).
    now rewrite Hm. }
  assert (Hid1 : (id < Worker.received st1)%nat).
  { pose proof (received_run mid
                  (Worker.step st (Worker.Message (Worker.transcribe audio))))
      as Hle.
    rewrite message_received in Hle. exact Hle. }
  pose proof (@step_react id st1 (Worker.InferenceResolved id r) Hid1) as Hview2.
  cbn [targets] in Hview2. rewrite Nat.eqb_refl, Hview1 in Hview2.
  cbn [react] in Hview2. fold st2 in Hview2.
  assert (Htext : Worker.result_text r = Ok (Worker.trim text))
    by (destruct Hr as [->|[others ->]]; reflexivity).
  rewrite Htext in Hview2.
  unfold Worker.view in Hview2. injection Hview2 as Ht Hresp Hi.
  split; [exact Hresp|]. split; [exact Hi|]. split; [exact Ht|].
  unfold st2. now apply step_transcriber.
Qed.

Lemma transcribe_success_witness :
  Worker.responses 1
    (Worker.step
       (Worker.run
          (Worker.step
             (Worker.run Worker.initial
                [Worker.Message Worker.load;
                 Worker.DeviceDetected 0 Worker.NoGpu;
                 Worker.CreateResolved 0 7%nat])
             (Worker.Message (Worker.transcribe [1 # 2])))
          [])
       (Worker.InferenceResolved 1
          (Worker.Many [" hello world "; "other"]%string)))
  = [Worker.msg_result "hello world"].
Proof.
  refine (proj1 (@transcribe_success
                   [Worker.Message Worker.load;
                    Worker.DeviceDetected 0 Worker.NoGpu;
                    Worker.CreateResolved 0 7%nat]
                   [] [1 # 2] 7%nat
                   (Worker.Many [" hello world "; "other"]%string)
                   " hello world "%string eq_refl eq_refl _ eq_refl)).
  right. exists ["other"%string]. reflexivity.
Defined.

Section WorkerInvariants.

Import Worker.

Lemma quiet_app (rs : list WorkerResponse) (r : WorkerResponse) :
  forallb (fun r => negb (terminal r)) rs = true ->
  terminal r = false ->
  forallb (fun r => negb (terminal r)) (rs ++ [r]) = true.
Proof.
  intros Hrs Hr. rewrite forallb_app, Hrs. cbn. now rewrite Hr.
Qed.

Lemma react_in_order
    (v : option task * list WorkerResponse * list (pipeline * list Q))
    (ev : event) :
  in_order v -> in_order (react v ev).
Proof.
  destruct v as [[[[|d|m a]|] rs] calls]; cbn [in_order react];
    intros Hv; [| | |exact Hv].
  - destruct ev; try exact Hv. cbn [in_order]. now apply quiet_app.
  - destruct ev; try exact Hv; cbn [in_order].
    + now apply quiet_app.
    + eexists _, _. repeat split. exact Hv.
    + eexists _, _. repeat split. exact Hv.
  - destruct ev as [| | | | |i r|i e]; try exact Hv; cbn [in_order].
    + eexists _, _. split; [reflexivity|]. split; [exact Hv|].
      now destruct (result_text r).
    + eexists _, _. repeat split. exact Hv.
Qed.

Lemma received_only_messages (st : state) (ev : event) :
  received (step st ev)
  = match ev with Message _ => S (received st) | _ => received st end.
Proof.
  destruct ev as [req|i p|i p|i m|i e|i r|i e]; cbn [step];
    try (destruct (find_task i (tasks st)) as [[| |]|]; try reflexivity).
  - apply message_received.
  - now destruct (result_text r).
Qed.

Lemma step_in_order (st : state) (ev : event) :
  tidy st ->
  (forall id, (id < received st)%nat -> in_order (view id st)) ->
  forall id, (id < received (step st ev))%nat ->
             in_order (view id (step st ev)).
Proof.
  intros Htidy Hall id Hid.
  destruct (Nat.lt_ge_cases id (received st)) as [Hold|Hnew].
  - rewrite step_react by exact Hold.
    destruct (targets id ev); [apply react_in_order|]; now apply Hall.
  - rewrite received_only_messages in Hid.
    destruct ev as [req| | | | | |]; try lia.
    assert (id = received st) as -> by lia.
    rewrite message_view by exact Htidy.
    destruct req as [|audio]; [reflexivity|].
    destruct (transcriber st); [reflexivity|].
    exists [], (msg_error "Model not loaded"). repeat split.
Qed.

Lemma run_in_order (evs : list event) :
  forall st,
    tidy st ->
    (forall id, (id < received st)%nat -> in_order (view id st)) ->
    forall id, (id < received (run st evs))%nat ->
               in_order (view id (run st evs)).
Proof.
  induction evs as [|ev rest IH]; intros st Htidy Hall; [exact Hall|].
  apply IH; [now apply tidy_step|now apply step_in_order].
Qed.

(** Every response a step posts: a [result] among them carries a trimmed
    text. *)
Lemma trim_start_trimmed (s : string) :
  starts_with_space (trim_start s) = false.
Proof.
  induction s as [|c rest IH]; [reflexivity|]. cbn [trim_start].
  destruct (is_space c) eqn:Hc; [exact IH|]. cbn. exact Hc.
Qed.

Lemma trim_end_trimmed (s : string) : ends_with_space (trim_end s) = false.
Proof.
  induction s as [|c rest IH]; [reflexivity|]. cbn [trim_end].
  destruct (trim_end rest) as [|c' rest'] eqn:Hrest.
  - destruct (is_space c) eqn:Hc; [reflexivity|]. cbn. exact Hc.
  - exact IH.
Qed.

Lemma trim_end_start (s : string) :
  starts_with_space s = false -> starts_with_space (trim_end s) = false.
Proof.
  destruct s as [|c rest]; [reflexivity|]. cbn [starts_with_space trim_end].
  intros Hc. destruct (trim_end rest); [rewrite Hc|]; exact Hc.
Qed.

Lemma trim_trimmed (s : string) : trimmed (trim s) = true.
Proof.
  unfold trimmed, trim.
  now rewrite trim_end_start, trim_end_trimmed by apply trim_start_trimmed.
Qed.

Lemma result_text_trimmed (r : output) (text : string) :
  result_text r = Ok text -> trimmed text = true.
Proof.
  destruct r as [t|[|t others]]; cbn [result_text];
    try discriminate; intros [= <-]; apply trim_trimmed.
Qed.

Lemma step_posted (st : state) (ev : event) (id : nat) (text : string) :
  In (id, msg_result text) (posted (step st ev)) ->
  In (id, msg_result text) (posted st) \/ trimmed text = true.
Proof.
  destruct ev as [req|i p|i p|i m|i e|i r|i e]; cbn [step];
    try (destruct (find_task i (tasks st)) as [[| |]|]; try (now left));
    cbn [finish suspend postMessage posted];
    try (rewrite in_app_iff; intros [H|[[=]|[]]]; now left).
  - unfold onmessage. destruct req as [|audio]; [now left|].
    cbn [transcriber]. destruct (transcriber st); [now left|].
    cbn [postMessage posted]. rewrite in_app_iff.
    intros [H|[[=]|[]]]. now left.
  - destruct (result_text r) as [t|err] eqn:Hr;
      cbn [finish postMessage posted]; rewrite in_app_iff;
      intros [H|[[=]|[]]]; try (now left).
    subst. right. eapply result_text_trimmed, Hr.
Qed.

End WorkerInvariants.

(** X19. One answer per request, and it comes last: in every history, a
    request whose handler is no longer suspended has been answered by
    progress responses followed by exactly one of [ready], [result] and
    [error]; a request whose handler is still suspended has progress
    responses only. *)
Theorem worker_answers_once :
  forall (evs : list Worker.event) (id : nat),
    let st := Worker.run Worker.initial evs in
    (id < Worker.received st)%nat ->
    match Worker.find_task id (Worker.tasks st) with
    | Some _ =>
        filter terminal (Worker.responses id st) = []
    | None =>
        length (filter terminal (Worker.responses id st)) = 1%nat
        /\ exists ps t,
             Worker.responses id st = ps ++ [t]
             /\ filter terminal ps = []
             /\ terminal t = true
    end.
Proof.
  intros evs id st Hid.
  assert (Hquiet : forall rs,
             forallb (fun r => negb (terminal r)) rs = true ->
             filter terminal rs = []).
  { induction rs as [|r rs IH]; [reflexivity|]. cbn.
    destruct (terminal r); [discriminate|]. exact IH. }
  pose proof (@run_in_order evs Worker.initial tidy_initial) as Hall.
  specialize (Hall (fun id H => match Nat.nlt_0_r _ H with end) id Hid).
  fold st in Hall. unfold Worker.view in Hall.
  destruct (Worker.find_task id (Worker.tasks st)); cbn [in_order] in Hall.
  - now apply Hquiet.
  - destruct Hall as (ps & t & Hrs & Hps & Ht).
    split; [|exists ps, t; repeat split; auto].
    rewrite Hrs, filter_app, (Hquiet ps Hps). cbn. now rewrite Ht.
Qed.

Lemma worker_answers_once_witness :
  length (filter terminal
            (Worker.responses 0
               (Worker.run Worker.initial
                  [Worker.Message (Worker.transcribe [1 # 2])])))
  = 1%nat.
Proof.
  refine (proj1 (@worker_answers_once
                   [Worker.Message (Worker.transcribe [1 # 2])] 0%nat _)).
  simpl. lia.
Defined.

(** X20. Every [result] the worker ever posts carries a text without white
    space at its start or at its end. *)
Theorem worker_results_trimmed :
  forall (evs : list Worker.event) (id : nat) (text : string),
    In (id, Worker.msg_result text)
       (Worker.posted (Worker.run Worker.initial evs)) ->
    trimmed text = true.
Proof.
  intros evs.
  assert (Hgen : forall st,
             (forall id text, In (id, Worker.msg_result text) (Worker.posted st)
                              -> trimmed text = true) ->
             forall id text,
               In (id, Worker.msg_result text)
                  (Worker.posted (Worker.run st evs)) ->
               trimmed text = true).
  { induction evs as [|ev rest IH]; intros st Hst; [exact Hst|].
    apply IH. intros id text Hin.
    destruct (step_posted st ev id text Hin) as [Hold|Hnew]; [|exact Hnew].
    now apply (Hst id). }
  apply Hgen. intros id text [].
Qed.

Lemma worker_results_trimmed_witness :
  trimmed "hello world" = true.
Proof.
  apply (@worker_results_trimmed
           [Worker.Message Worker.load;
            Worker.DeviceDetected 0 Worker.NoGpu;
            Worker.CreateResolved 0 7%nat;
            Worker.Message (Worker.transcribe [1 # 2]);
            Worker.InferenceResolved 1 (Worker.Single "  hello world ")]
           1%nat "hello world"%string).
  simpl. right. right. left. reflexivity.
Defined.

(** X21. The worker never unloads: [transcriber] changes only when a load
    completes, and once a pipeline is loaded no event makes it [null]
    again. *)
Theorem worker_never_unloads :
  (forall (st : Worker.state) (ev : Worker.event),
     Worker.loads ev = false ->
     Worker.transcriber (Worker.step st ev) = Worker.transcriber st)
  /\ (forall (st : Worker.state) (evs : list Worker.event),
        Worker.transcriber st <> None ->
        Worker.transcriber (Worker.run st evs) <> None).
Proof.
  split.
  - intros st ev Hev. now apply step_transcriber.
  - intros st evs Hsome. now apply run_transcriber_loaded.
Qed.

Lemma worker_never_unloads_witness :
  Worker.transcriber
    (Worker.run (Worker.mkState (Some 7%nat) [] 0 [] [])
       [Worker.Message Worker.load;
        Worker.DeviceDetected 0 Worker.NoGpu;
        Worker.CreateRejected 0 (Error "offline")])
  <> None.
Proof.
  apply (proj2 worker_never_unloads).
  discriminate.
Defined.

(** ** The controller over whole histories *)

Section ControllerFacts.

Context {C : Type} {backend : AudioCapture C}.

Lemma startRecording_frame (st : @Main.state C) :
  Main.to_worker (fst (Main.startRecording st)) = Main.to_worker st
  /\ Main.modelReady (fst (Main.startRecording st)) = Main.modelReady st.
Proof.
  unfold Main.startRecording.
  destruct (Main.audioCapture st) as [capture|]; [|split; reflexivity].
  destruct (start capture) as [capture' [[]|e]]; cbn [fst].
  - unfold Main.updateDisplay. cbn.
    destruct (Main.has_bridge st); split; reflexivity.
  - split; reflexivity.
Qed.

Lemma stopRecording_posts (st : @Main.state C) :
  Main.modelReady (Main.stopRecording st) = Main.modelReady st
  /\ (Main.to_worker (Main.stopRecording st) = Main.to_worker st
      \/ exists audio,
           Main.to_worker (Main.stopRecording st)
           = Main.to_worker st ++ [Worker.transcribe audio]
           /\ (1600 <= length audio)%nat).
Proof.
  unfold Main.stopRecording.
  destruct (Main.audioCapture st) as [capture|]; [|split; [|left]; reflexivity].
  destruct (Main.recording st); cbn [negb]; [|split; [|left]; reflexivity].
  cbn [Main.memory Main.set_recording Main.btn_text Main.btn_disabled
       Main.btn_class_recording Main.set_button].
  destruct (stop (Main.memory st) capture) as [capture' [[h audio]|e]].
  - destruct (Nat.ltb_spec (length (deref h audio)) 1600) as [Hshort|Hlong].
    + split; [|left]; reflexivity.
    + split; [unfold Main.updateDisplay; cbn;
              now destruct (Main.has_bridge st)|].
      right. exists (deref h audio). split; [|exact Hlong].
      unfold Main.updateDisplay. cbn. now destruct (Main.has_bridge st).
  - split; [|left]; reflexivity.
Qed.

Lemma toggleRecording_posts (st : @Main.state C) :
  Main.to_worker (Main.toggleRecording st) = Main.to_worker st
  \/ exists audio,
       Main.to_worker (Main.toggleRecording st)
       = Main.to_worker st ++ [Worker.transcribe audio]
       /\ (1600 <= length audio)%nat.
Proof.
  unfold Main.toggleRecording.
  destruct (Main.modelReady st); cbn [negb]; [|now left].
  destruct (Main.recording st).
  - apply stopRecording_posts.
  - left. apply startRecording_frame.
Qed.

Lemma worker_onmessage_posts (st : @Main.state C)
    (msg : Worker.WorkerResponse) :
  Main.to_worker (Main.worker_onmessage st msg) = Main.to_worker st.
Proof.
  destruct msg as [status file progress|device|t|e]; cbn [Main.worker_onmessage].
  - now destruct (String.eqb status "initiate").
  - unfold Main.updateDisplay. cbn. now destruct (Main.has_bridge st).
  - unfold Main.updateDisplay. cbn. now destruct (Main.has_bridge st).
  - reflexivity.
Qed.

Lemma page_step_posts (st : @Main.state C) (o : Page.op) :
  Main.to_worker (Page.step st o) = Main.to_worker st
  \/ exists audio,
       Main.to_worker (Page.step st o)
       = Main.to_worker st ++ [Worker.transcribe audio]
       /\ (1600 <= length audio)%nat.
Proof.
  destruct o as [|msg|e]; cbn [Page.step].
  - apply toggleRecording_posts.
  - left. apply worker_onmessage_posts.
  - unfold Page.onEvenHubEvent.
    destruct (Page.has_audio e); [now left|].
    destruct (Page.eventType e) as [[| |code]|].
    + apply toggleRecording_posts.
    + left. unfold Main.updateDisplay. cbn.
      now destruct (Main.has_bridge st).
    + now left.
    + apply toggleRecording_posts.
Qed.

End ControllerFacts.

(** X22. The controller never sends a short utterance and never sends a
    second [load]: whatever clicks, worker messages and glasses events
    arrive, everything it posts to the worker is a [transcribe] request
    carrying at least 1600 samples. *)
Theorem controller_posts_long_audio_only :
  forall (C : Type) (backend : AudioCapture C) (st : @Main.state C)
         (ops : list Page.op),
    exists new : list Worker.WorkerRequest,
      Main.to_worker (Page.run st ops) = Main.to_worker st ++ new
      /\ Forall long_enough new.
Proof.
  intros C backend st ops. revert st.
  induction ops as [|o rest IH]; intros st.
  - exists []. split; [now rewrite app_nil_r|constructor].
  - cbn [Page.run fold_left]. fold (Page.run (Page.step st o) rest).
    destruct (IH (Page.step st o)) as (new & Hnew & Hall).
    destruct (page_step_posts st o) as [Hsame|(audio & Hpost & Hlong)].
    + exists new. now rewrite Hnew, Hsame.
    + exists (Worker.transcribe audio :: new).
      split; [|constructor; assumption].
      rewrite Hnew, Hpost, <- app_assoc. reflexivity.
Qed.

Section ControllerGate.

Context {C : Type} {backend : AudioCapture C}.

Lemma page_step_waits (st : @Main.state C) (o : Page.op) :
  Main.modelReady st = false ->
  Page.is_ready o = false ->
  session (Page.step st o) = session st.
Proof.
  intros Hnot Ho. unfold session.
  destruct o as [|msg|e]; cbn [Page.step].
  - unfold Main.toggleRecording. rewrite Hnot. cbn [negb].
    now rewrite Hnot.
  - destruct msg as [status file progress|device|t|err];
      cbn [Main.worker_onmessage]; try discriminate.
    + now destruct (String.eqb status "initiate").
    + unfold Main.updateDisplay. cbn. now destruct (Main.has_bridge st).
    + reflexivity.
  - unfold Page.onEvenHubEvent, Main.toggleRecording. rewrite Hnot.
    cbn [negb]. destruct (Page.has_audio e); [now rewrite Hnot|].
    destruct (Page.eventType e) as [[| |code]|]; try (now rewrite Hnot).
    unfold Main.updateDisplay. cbn.
    destruct (Main.has_bridge st); cbn; now rewrite Hnot.
Qed.

Lemma detach_same (h : heap) (r : ref) : deref (Main.detach h r) r = [].
Proof.
  unfold deref. revert r. induction h as [|a h IH]; intros [|r]; simpl; auto.
Qed.

Lemma detach_other (h : heap) (r r' : ref) :
  r' <> r -> deref (Main.detach h r) r' = deref h r'.
Proof.
  unfold deref. revert r r'.
  induction h as [|a h IH]; intros [|r] [|r'] Hne; simpl; auto;
    try congruence.
Qed.

End ControllerGate.

(** X23. Until the worker reports [ready] nothing can be recorded: while
    [modelReady] is false, clicks, glasses events and every other worker
    message leave the recording flag, the capture backend, the store and the
    messages posted to the worker as they are. *)
Theorem controller_waits_for_ready :
  forall (C : Type) (backend : AudioCapture C) (st : @Main.state C)
         (ops : list Page.op),
    Main.modelReady st = false ->
    forallb (fun o => negb (Page.is_ready o)) ops = true ->
    Main.recording (Page.run st ops) = Main.recording st
    /\ Main.to_worker (Page.run st ops) = Main.to_worker st
    /\ Main.audioCapture (Page.run st ops) = Main.audioCapture st
    /\ Main.memory (Page.run st ops) = Main.memory st
    /\ Main.modelReady (Page.run st ops) = false.
Proof.
  intros C backend st ops Hnot Hops.
  assert (Hsession : session (Page.run st ops) = session st).
  { revert st Hnot. induction ops as [|o rest IH]; intros st Hnot;
      [reflexivity|].
    cbn [forallb] in Hops. apply andb_prop in Hops as [Ho Hrest].
    apply negb_true_iff in Ho.
    pose proof (page_step_waits st o Hnot Ho) as Hstep.
    cbn [Page.run fold_left]. fold (Page.run (Page.step st o) rest).
    rewrite IH; [exact Hstep|exact Hrest|].
    unfold session in Hstep. injection Hstep as _ _ _ _ Hready. congruence. }
  unfold session in Hsession. injection Hsession as H1 H2 H3 H4 H5.
  repeat split; congruence.
Qed.

Lemma controller_waits_for_ready_witness :
  Main.recording
    (Page.run
       (Main.mkState [] false false
          (Some (Audio.Glasses.create Audio.new_bridge)) false
          (Main.Text "Loading") (Main.Text "Model") 
          (Main.mkButton (Main.Text "Record") true false) []
          [] [Worker.load])
       [Page.toggle;
        Page.from_worker (Worker.msg_progress "initiate" None None);
        Page.from_glasses (Page.mkHubEvent false None None None)])
  = false.
Proof.
  exact (proj1 (@controller_waits_for_ready Audio.Glasses.t
                  GlassesAudioCapture
                  (Main.mkState [] false false
                     (Some (Audio.Glasses.create Audio.new_bridge)) false
                     (Main.Text "Loading") (Main.Text "Model")
                     (Main.mkButton (Main.Text "Record") true false) []
                     [] [Worker.load])
                  [Page.toggle;
                   Page.from_worker (Worker.msg_progress "initiate" None None);
                   Page.from_glasses (Page.mkHubEvent false None None None)]
                  eq_refl eq_refl)).
Defined.

(** X24. When the capture backend's [stop()] throws, [stopRecording()]
    recovers: it logs the error, shows "Audio error - try again", is idle
    with the record button enabled and labelled "Record", and posts nothing
    to the worker. *)
Theorem stopRecording_recovers :
  forall (C : Type) (backend : AudioCapture C) (st : @Main.state C)
         (capture capture' : C) (err : exn),
    Main.audioCapture st = Some capture ->
    Main.recording st = true ->
    stop (Main.memory st) capture = (capture', Throw err) ->
    let st' := Main.stopRecording st in
    Main.statusEl st' = Main.Text "Audio error - try again"
    /\ hd_error (Main.logEl st')
       = Some (Main.error, Main.AudioDecodeError err)
    /\ Main.recording st' = false
    /\ Main.recordBtn st' = Main.mkButton (Main.Text "Record") false false
    /\ Main.to_worker st' = Main.to_worker st
    /\ Main.audioCapture st' = Some capture'
    /\ Main.memory st' = Main.memory st.
Proof.
  intros C backend st capture capture' err Hcap Hrec Hstop st'.
  unfold st', Main.stopRecording.
  rewrite Hcap, Hrec. cbn [negb].
  cbn [Main.memory Main.set_recording Main.btn_text Main.btn_disabled
       Main.btn_class_recording Main.set_button].
  rewrite Hstop. repeat split.
Qed.

(** A backend whose [stop()] always throws. *)
Lemma stopRecording_recovers_witness :
  Main.to_worker
    (@Main.stopRecording unit
       (Build_AudioCapture (fun c => (c, Ok tt))
          (fun _ c => (c, Throw (Error "Not recording")))
          (fun _ c => (c, Throw (Error "Not recording"))))
       (Main.mkState [] true false (Some tt) true (Main.Text "Recording...")
          (Main.ModelReady "wasm")
          (Main.mkButton (Main.Text "Stop") false true) [] [] []))
  = [].
Proof.
  refine (proj1 (proj2 (proj2 (proj2 (proj2
            (@stopRecording_recovers unit
               (Build_AudioCapture (fun c => (c, Ok tt))
                  (fun _ c => (c, Throw (Error "Not recording")))
                  (fun _ c => (c, Throw (Error "Not recording"))))
               (Main.mkState [] true false (Some tt) true
                  (Main.Text "Recording...") (Main.ModelReady "wasm")
                  (Main.mkButton (Main.Text "Stop") false true) [] [] [])
               tt tt (Error "Not recording") eq_refl eq_refl eq_refl)))))).
Defined.

(** X25. Posting the utterance hands the buffer over: after a
    [stopRecording()] that dispatches, the request carries the samples and
    the array on the controller's side is left empty, while every other
    array is as the backend's [stop()] left it. *)
Theorem stopRecording_transfers_buffer :
  forall (C : Type) (backend : AudioCapture C) (st : @Main.state C)
         (capture capture' : C) (h : heap) (audio : ref),
    Main.audioCapture st = Some capture ->
    Main.recording st = true ->
    stop (Main.memory st) capture = (capture', Ok (h, audio)) ->
    (1600 <= length (deref h audio))%nat ->
    let st' := Main.stopRecording st in
    Main.to_worker st'
    = Main.to_worker st ++ [Worker.transcribe (deref h audio)]
    /\ deref (Main.memory st') audio = []
    /\ (forall r, r <> audio -> deref (Main.memory st') r = deref h r).
Proof.
  intros C backend st capture capture' h audio Hcap Hrec Hstop Hlen st'.
  unfold st', Main.stopRecording.
  rewrite Hcap, Hrec. cbn [negb].
  cbn [Main.memory Main.set_recording Main.btn_text Main.btn_disabled
       Main.btn_class_recording Main.set_button].
  rewrite Hstop. apply Nat.ltb_ge in Hlen. rewrite Hlen.
  unfold Main.updateDisplay. cbn.
  destruct (Main.has_bridge st); cbn;
    (split; [reflexivity|]); (split; [apply detach_same|]);
    intros r Hr; now apply detach_other.
Qed.

Lemma stopRecording_transfers_buffer_witness :
  deref
    (Main.memory
       (@Main.stopRecording unit
          (Build_AudioCapture (fun c => (c, Ok tt))
             (fun h c => (c, Ok (h, 0%nat)))
             (fun h c => (c, Ok (h, 0%nat))))
          (Main.mkState [repeat (1 # 2) 1600] true false (Some tt) true
             (Main.Text "Recording...") (Main.ModelReady "wasm")
             (Main.mkButton (Main.Text "Stop") false true) [] [] [])))
    0%nat
  = [].
Proof.
  refine (proj1 (proj2
            (@stopRecording_transfers_buffer unit
               (Build_AudioCapture (fun c => (c, Ok tt))
                  (fun h c => (c, Ok (h, 0%nat)))
                  (fun h c => (c, Ok (h, 0%nat))))
               (Main.mkState [repeat (1 # 2) 1600] true false (Some tt) true
                  (Main.Text "Recording...") (Main.ModelReady "wasm")
                  (Main.mkButton (Main.Text "Stop") false true) [] [] [])
               tt tt [repeat (1 # 2) 1600] 0%nat eq_refl eq_refl eq_refl _))).
  apply Nat.leb_le. vm_compute. reflexivity.
Defined.
(** Events that carry audio pass the controller's listener, which returns
    at once, and reach the listener of the capture object. *)
Lemma deliver_frames (events : list Page.Event) :
  forall (st : @Main.state Audio.Glasses.t) (capture : Audio.Glasses.t),
    forallb Page.carries_audio events = true ->
    Main.audioCapture st = Some capture ->
    Page.deliver st events
    = Main.set_capture st
        (fst (Audio.Glasses.run (Main.memory st, capture)
                (map Audio.Glasses.op_event (map Page.for_capture events))))
        (snd (Audio.Glasses.run (Main.memory st, capture)
                (map Audio.Glasses.op_event (map Page.for_capture events)))).
Proof.
  induction events as [|e rest IH]; intros st capture Hall Hcap.
  - cbn. destruct st. cbn in Hcap. now subst.
  - cbn [forallb] in Hall. apply andb_true_iff in Hall.
    destruct Hall as [Haudio Hrest].
    cbn [Page.deliver fold_left map Audio.Glasses.run].
    unfold Page.bridge_event at 2.
    unfold Page.onEvenHubEvent, Page.for_controller.
    cbn [Page.has_audio]. rewrite Haudio, Hcap.
    destruct (Audio.Glasses.step (Main.memory st, capture)
                (Audio.Glasses.op_event (Page.for_capture e)))
      as [h1 capture1].
    change (fold_left Page.bridge_event rest (Main.set_capture st h1 capture1))
      with (Page.deliver (Main.set_capture st h1 capture1) rest).
    rewrite (IH (Main.set_capture st h1 capture1) capture1 Hrest eq_refl).
    reflexivity.
Qed.

(** X26. One utterance on the glasses, end to end: with the model ready
    and the controller idle, a toggle starts the backend, the bridge
    delivers events that all carry audio, each to the controller's listener
    and to the listener of the capture object, and a second toggle stops the
    backend.  If the frames hold fewer than 1600 samples in all, nothing is
    posted and "Too short - try again" is shown; otherwise exactly one
    [transcribe] request is posted, carrying the converted frames in arrival
    order.  Either way the controller is idle again. *)
Theorem glasses_utterance :
  forall (st : @Main.state Audio.Glasses.t) (capture : Audio.Glasses.t)
         (events : list Page.Event),
    Main.modelReady st = true ->
    Main.recording st = false ->
    Main.audioCapture st = Some capture ->
    Audio.listeners (Audio.Glasses.bridge capture) = [] ->
    forallb Page.carries_audio events = true ->
    let samples :=
      concat (flat_map frame_chunk (map Page.for_capture events)) in
    let st' :=
      Main.toggleRecording
        (Page.deliver (Main.toggleRecording st) events) in
    Main.recording st' = false
    /\ ((length samples < 1600)%nat ->
        Main.to_worker st' = Main.to_worker st
        /\ Main.statusEl st' = Main.Text "Too short - try again")
    /\ ((1600 <= length samples)%nat ->
        Main.to_worker st' = Main.to_worker st ++ [Worker.transcribe samples]
        /\ Main.statusEl st' = Main.Text "Transcribing...").
Proof.
  intros st capture events Hready Hidle Hcap Hls Haudio samples st'.
  pose proof (@glasses_session_merge (Main.memory st) capture
                (map Page.for_capture events) Hls)
    as Hmerge.
  cbv zeta in Hmerge. fold samples in Hmerge.
  set (run := Audio.Glasses.run (Main.memory st, Audio.Glasses.start capture)
                (map Audio.Glasses.op_event (map Page.for_capture events)))
    in *.
  assert (Hstopped : exists h' audio,
             snd (Audio.Glasses.stop (fst run) (snd run)) = Ok (h', audio)
             /\ deref h' audio = samples).
  { unfold Audio.Glasses.stop. cbn [snd Audio.Glasses.chunks].
    rewrite Hmerge. eexists _, _. split; [reflexivity|apply deref_app_new]. }
  destruct Hstopped as (h' & audio & Hstop & Hsamples).
  assert (Hst1 : exists st1,
             Main.toggleRecording st = st1
             /\ Main.modelReady st1 = true /\ Main.recording st1 = true
             /\ Main.audioCapture st1 = Some (Audio.Glasses.start capture)
             /\ Main.memory st1 = Main.memory st
             /\ Main.to_worker st1 = Main.to_worker st).
  { eexists. split; [reflexivity|].
    unfold Main.toggleRecording, Main.startRecording.
    rewrite Hready, Hidle, Hcap. cbn [negb start GlassesAudioCapture fst].
    unfold Main.updateDisplay. cbn.
    destruct (Main.has_bridge st); cbn; rewrite ?Hready; repeat split. }
  destruct Hst1 as (st1 & Hst1 & Hr1 & Hrec1 & Hcap1 & Hmem1 & Hw1).
  assert (Hst2 : exists st2,
             Page.deliver st1 events = st2
             /\ Main.modelReady st2 = true /\ Main.recording st2 = true
             /\ Main.audioCapture st2 = Some (snd run)
             /\ Main.memory st2 = fst run
             /\ Main.to_worker st2 = Main.to_worker st).
  { eexists. split; [reflexivity|].
    rewrite (@deliver_frames events st1 (Audio.Glasses.start capture)
               Haudio Hcap1).
    rewrite Hmem1. fold run.
    destruct run as [h2 capture2]. cbn. repeat split; assumption. }
  destruct Hst2 as (st2 & Hst2 & Hr2 & Hrec2 & Hcap2 & Hmem2 & Hw2).
  unfold st'. rewrite Hst1, Hst2.
  unfold Main.toggleRecording. rewrite Hr2, Hrec2. cbn [negb].
  unfold Main.stopRecording. rewrite Hcap2, Hrec2. cbn [negb].
  cbn [Main.memory Main.set_recording Main.btn_text Main.btn_disabled
       Main.btn_class_recording Main.set_button stop GlassesAudioCapture].
  rewrite Hmem2.
  destruct (Audio.Glasses.stop (fst run) (snd run)) as [capture3 r3].
  cbn [snd] in Hstop. subst r3. rewrite Hsamples.
  destruct (Nat.ltb_spec (length samples) 1600) as [Hshort|Hlong].
  - split; [reflexivity|]. split; [intros _; split; [exact Hw2|reflexivity]|].
    intros Hge. lia.
  - unfold Main.updateDisplay. cbn.
    destruct (Main.has_bridge st2); cbn;
      (split; [reflexivity|]); (split; [intros Hlt; lia|]);
      intros _; rewrite Hw2; unfold deref in Hsamples |- *;
      rewrite Hsamples; split; reflexivity.
Qed.

Lemma glasses_utterance_witness :
  Main.to_worker
    (Main.toggleRecording
       (Page.deliver
          (Main.toggleRecording
             (Main.mkState [] true true
                (Some (Audio.Glasses.create Audio.new_bridge)) false
                (Main.Text "Tap to record") (Main.ModelReady "wasm")
                (Main.mkButton (Main.Text "Record") false false) [] []
                [Worker.load]))
          [Page.mkPageEvent (Some (Audio.mkUint8Array [x00; x40] 0 2))
             None None None;
           Page.mkPageEvent (Some (Audio.mkUint8Array [x00; xc0] 0 2))
             (Some Page.CLICK_EVENT) None None]))
  = [Worker.load].
Proof.
  refine (proj1 (proj1 (proj2
            (@glasses_utterance
               (Main.mkState [] true true
                  (Some (Audio.Glasses.create Audio.new_bridge)) false
                  (Main.Text "Tap to record") (Main.ModelReady "wasm")
                  (Main.mkButton (Main.Text "Record") false false) [] []
                  [Worker.load])
               (Audio.Glasses.create Audio.new_bridge)
               [Page.mkPageEvent (Some (Audio.mkUint8Array [x00; x40] 0 2))
                  None None None;
                Page.mkPageEvent (Some (Audio.mkUint8Array [x00; xc0] 0 2))
                  (Some Page.CLICK_EVENT) None None]
               eq_refl eq_refl eq_refl eq_refl eq_refl)) _)).
  simpl. lia.
Defined.

(** ** [waitForServer] *)

Section WaitForServer.

Import Sim.

Variable up : nat -> bool.
Variable url : string.
Variable delay : nat.

Lemma waitForServer_from_success (k : nat) :
  forall i retries : nat,
    (k < retries)%nat ->
    (forall j, (j < k)%nat -> up (i + j) = false) ->
    up (i + k) = true ->
    waitForServer_from up url delay i retries
    = (failed_attempts url delay k ++ [fetch url], Ok true).
Proof.
  induction k as [|k IH]; intros i retries Hk Hdown Hup;
    destruct retries as [|n]; try lia; cbn [waitForServer_from].
  - rewrite Nat.add_0_r in Hup. now rewrite Hup.
  - rewrite <- (Nat.add_0_r i) at 1. rewrite (Hdown 0%nat) by lia.
    rewrite (IH (S i) n); [reflexivity|lia| |].
    + intros j Hj. rewrite <- (Hdown (S j)) by lia. f_equal. lia.
    + rewrite <- Hup. f_equal. lia.
Qed.

Lemma waitForServer_from_timeout (retries : nat) :
  forall i : nat,
    (forall j, (j < retries)%nat -> up (i + j) = false) ->
    waitForServer_from up url delay i retries
    = (failed_attempts url delay retries,
       Throw (Error ("Server at " ++ url ++ " did not start in time"))).
Proof.
  induction retries as [|n IH]; intros i Hdown; cbn [waitForServer_from];
    [reflexivity|].
  rewrite <- (Nat.add_0_r i) at 1. rewrite (Hdown 0%nat) by lia.
  rewrite (IH (S i)); [reflexivity|].
  intros j Hj. rewrite <- (Hdown (S j)) by lia. f_equal. lia.
Qed.

Lemma waitForServer_from_cases (retries : nat) :
  forall i : nat,
    (snd (waitForServer_from up url delay i retries) = Ok true
     /\ exists j, (j < retries)%nat /\ up (i + j) = true)
    \/ (forall j, (j < retries)%nat -> up (i + j) = false).
Proof.
  induction retries as [|n IH]; intros i; [right; intros j Hj; lia|].
  cbn [waitForServer_from].
  destruct (up i) eqn:Hi.
  - left. split; [reflexivity|].
    exists 0%nat. rewrite Nat.add_0_r. split; [lia|exact Hi].
  - destruct (IH (S i)) as [[Hok (j & Hj & Hupj)]|Hdown].
    + left. destruct (waitForServer_from up url delay (S i) n) as [trace r].
      split; [exact Hok|].
      exists (S j). split; [lia|]. rewrite <- Hupj. f_equal. lia.
    + right. intros [|j] Hj.
      * now rewrite Nat.add_0_r.
      * rewrite <- (Hdown j) by lia. f_equal. lia.
Qed.

End WaitForServer.

(** X27. [waitForServer] returns [true] at the first attempt whose fetch
    resolves, provided it is among the first [retries]: before it, every
    failed attempt is a fetch followed by one pause of [delay], and after
    the fetch that resolves nothing more is done. *)
Theorem waitForServer_returns_at_first_success :
  forall (up : nat -> bool) (url : string) (retries delay k : nat),
    (k < retries)%nat ->
    (forall j, (j < k)%nat -> up j = false) ->
    up k = true ->
    Sim.waitForServer up url retries delay
    = (Sim.failed_attempts url delay k ++ [Sim.fetch url], Ok true).
Proof.
  intros up url retries delay k Hk Hdown Hup.
  now apply waitForServer_from_success.
Qed.

Lemma waitForServer_returns_at_first_success_witness :
  Sim.waitForServer (fun i => Nat.eqb i 2) "http://localhost:5173" 30 1000
  = ([Sim.fetch "http://localhost:5173"; Sim.pause 1000;
      Sim.fetch "http://localhost:5173"; Sim.pause 1000;
      Sim.fetch "http://localhost:5173"], Ok true).
Proof.
  apply (@waitForServer_returns_at_first_success
           (fun i => Nat.eqb i 2) "http://localhost:5173" 30 1000 2).
  - lia.
  - intros [|[|j]] Hj; [reflexivity|reflexivity|lia].
  - reflexivity.
Defined.

(** X28. [waitForServer] gives up exactly when none of the first [retries]
    fetches resolves: it then has fetched [retries] times, has paused after
    every one of them, the last included, and throws "Server at ... did not
    start in time"; with [retries = 0] it throws without fetching.  In every
    other case it returns [true]. *)
Theorem waitForServer_times_out :
  forall (up : nat -> bool) (url : string) (retries delay : nat),
    ((forall j, (j < retries)%nat -> up j = false) ->
     Sim.waitForServer up url retries delay
     = (Sim.failed_attempts url delay retries,
        Throw (Error ("Server at " ++ url ++ " did not start in time"))))
    /\ ((exists j, (j < retries)%nat /\ up j = true) ->
        snd (Sim.waitForServer up url retries delay) = Ok true)
    /\ (forall e, snd (Sim.waitForServer up url retries delay) = Throw e ->
                  forall j, (j < retries)%nat -> up j = false).
Proof.
  intros up url retries delay.
  destruct (waitForServer_from_cases up url delay retries 0)
    as [[Hok (j & Hj & Hupj)]|Hdown]; cbn [Nat.add] in *.
  - split; [|split].
    + intros Hall. rewrite (Hall j Hj) in Hupj. discriminate.
    + intros _. exact Hok.
    + intros e He. unfold Sim.waitForServer in He. congruence.
  - split; [|split].
    + intros _. now apply waitForServer_from_timeout.
    + intros (j & Hj & Hupj). rewrite (Hdown j Hj) in Hupj. discriminate.
    + intros e _. exact Hdown.
Qed.

Lemma waitForServer_times_out_witness :
  Sim.waitForServer (fun _ => false) "http://localhost:5173" 2 1000
  = ([Sim.fetch "http://localhost:5173"; Sim.pause 1000;
      Sim.fetch "http://localhost:5173"; Sim.pause 1000],
     Throw (Error "Server at http://localhost:5173 did not start in time")).
Proof.
  apply (proj1 (@waitForServer_times_out
                  (fun _ => false) "http://localhost:5173" 2 1000)).
  reflexivity.
Defined.
